(** * Project_Builder: a verified model of [generator.py]

    The program reads a description of a directory tree (a JSON document,
    held in memory as nested Python dictionaries) and creates it on disk;
    a small Tk editor loads, saves and generates such descriptions.

    The development embeds
    - the values [json.load] produces (without [float]),
    - [pathlib]'s POSIX paths and the system calls the program issues,
      over a file system kept as a finite map from locations to entries,
    - the structure as objects in memory, handed around by reference,
      for what generation does to the structure it is given,
    - [ProjectGenerator.create_structure] with its inner [_create],
    - [json.dump (indent=4)] and [json.load],
    - the three handlers of [ProjectDesigner],
    and proves the properties of the specification about them.

    Modelling boundary.  A Python [str] is a Rocq [string] whose
    characters are code points below 256.  File contents are kept as
    text.  The file system has no symbolic links, permissions, quotas or
    limits on name length; every failure it can report is one of the
    exceptions of [Exc].  The JSON reader follows the C scanner of
    [json.decoder]; it refuses what lies outside the values above
    (numbers with a fraction or an exponent, [NaN], the infinities,
    escapes for code points from 256 on), and the interpreter's limits
    on recursion depth and on the digits of an [int] are not modelled. *)

From Stdlib Require Import ZArith Ascii String List Lia Bool.
From Stdlib Require Import DecimalString Decimal DecimalZ.
From stdpp Require Import base option list gmap strings.

Import ListNotations.
Local Open Scope string_scope.
Local Open Scope Z_scope.

(* ===================================================================== *)
(** * Values *)
(* ===================================================================== *)

(** What a structure is made of: the Python objects [json.load] returns.
    A dictionary keeps its items in insertion order. *)
#[warnings="-register-all"]
Inductive Value : Type :=
| VNone
| VBool (b : bool)
| VInt (n : Z)
| VStr (s : string)
| VList (xs : list Value)
| VDict (items : list (string * Value)).

(** [isinstance(v, dict)] and [v is None]. *)
Definition is_dict (v : Value) : bool :=
  match v with VDict _ => true | _ => false end.

Definition is_none (v : Value) : bool :=
  match v with VNone => true | _ => false end.

(** Induction over values that reaches into lists and dictionaries. *)
Section Value_induction.
Variable P : Value → Prop.
Hypothesis HNone : P VNone.
Hypothesis HBool : ∀ b, P (VBool b).
Hypothesis HInt : ∀ n, P (VInt n).
Hypothesis HStr : ∀ s, P (VStr s).
Hypothesis HList : ∀ xs, Forall P xs → P (VList xs).
Hypothesis HDict : ∀ items, Forall (λ kv, P kv.2) items → P (VDict items).

Fixpoint Value_nested_ind (v : Value) : P v :=
  match v with
  | VNone => HNone
  | VBool b => HBool b
  | VInt n => HInt n
  | VStr s => HStr s
  | VList xs =>
      HList xs
        ((fix go (l : list Value) : Forall P l :=
            match l with
            | [] => List.Forall_nil P
            | x :: l' => List.Forall_cons _ x l' (Value_nested_ind x) (go l')
            end) xs)
  | VDict items =>
      HDict items
        ((fix go (l : list (string * Value)) : Forall (λ kv, P kv.2) l :=
            match l with
            | [] => List.Forall_nil _
            | kv :: l' => List.Forall_cons _ kv l' (Value_nested_ind kv.2) (go l')
            end) items)
  end.
End Value_induction.

(* ===================================================================== *)
(** * Text *)
(* ===================================================================== *)

Definition chr (n : nat) : ascii := ascii_of_nat n.
Definition ord (c : ascii) : nat := nat_of_ascii c.

Definition LF : ascii := chr 10.
Definition DQ : ascii := chr 34.
Definition nl : string := String LF "".

(** [sep.join(parts)]. *)
Fixpoint join (sep : string) (l : list string) : string :=
  match l with
  | [] => ""
  | [x] => x
  | x :: rest => x ++ sep ++ join sep rest
  end.

Definition hex_digit (n : nat) : ascii :=
  if (n <? 10)%nat then chr (48 + n) else chr (87 + n).

(** Python's [int.__repr__]: decimal, with a minus sign when negative. *)
Definition repr_int (n : Z) : string := NilZero.string_of_int (Z.to_int n).

(** Whether a character below 256 is printable in the sense of
    [str.isprintable]: not a control character, and neither U+00A0
    (a separator other than the space) nor U+00AD (a format character). *)
Definition printable (c : ascii) : bool :=
  let n := ord c in
  ((32 <=? n) && (n <? 127) || (161 <=? n) && negb (n =? 173))%nat.

Definition has_char (c : ascii) (s : string) : bool :=
  existsb (Ascii.eqb c) (list_ascii_of_string s).

(** [repr] of a string: single quotes unless the text has one and has no
    double quote; the quote and the backslash escaped, tab, newline and
    carriage return by letter, other unprintable characters in hex. *)
Definition repr_char (q c : ascii) : string :=
  if Ascii.eqb c q || Ascii.eqb c "\" then String "\" (String c "")
  else if Ascii.eqb c (chr 9) then "\t"
  else if Ascii.eqb c (chr 10) then "\n"
  else if Ascii.eqb c (chr 13) then "\r"
  else if printable c then String c ""
  else String "\" (String "x"
         (String (hex_digit (ord c / 16)) (String (hex_digit (ord c mod 16)) ""))).

Definition repr_str (s : string) : string :=
  let q : ascii := if has_char "'" s && negb (has_char DQ s) then DQ else "'"%char in
  String q (join "" (map (repr_char q) (list_ascii_of_string s)) ++ String q "").

(** [str(v)] and [repr(v)] of a value.  They differ on strings only. *)
Fixpoint py_repr (v : Value) : string :=
  match v with
  | VNone => "None"
  | VBool true => "True"
  | VBool false => "False"
  | VInt n => repr_int n
  | VStr s => repr_str s
  | VList xs => "[" ++ join ", " (map py_repr xs) ++ "]"
  | VDict items =>
      "{" ++ join ", " (map (λ kv, repr_str kv.1 ++ ": " ++ py_repr kv.2) items) ++ "}"
  end.

Definition py_str (v : Value) : string :=
  match v with
  | VStr s => s
  | _ => py_repr v
  end.

(* ===================================================================== *)
(** * Paths *)
(* ===================================================================== *)

(** [s.split(sep)] for a one-character separator. *)
Fixpoint split_on (sep : ascii) (s : string) : list string :=
  match s with
  | "" => [""]
  | String c rest =>
      if Ascii.eqb c sep then "" :: split_on sep rest
      else match split_on sep rest with
           | x :: xs => String c x :: xs
           | [] => [String c ""]
           end
  end.

(** How a path starts: not at the root, at the root, or with exactly two
    slashes, which [pathlib] keeps apart from the root (three or more
    slashes are the root again). *)
Inductive Root : Type :=
| NoRoot
| Slash
| TwoSlashes.

(** A [pathlib.PurePosixPath]: its root and its components.  Parsing
    drops empty components and ["."]; [".."] stays. *)
Record Path : Type := mkPath { root : Root; parts : list string }.

(** Whether the path is absolute.  The kernel resolves a path that
    starts with two slashes from the root as well. *)
Definition anchored (p : Path) : bool :=
  match root p with
  | NoRoot => false
  | Slash | TwoSlashes => true
  end.

Definition kept_part (c : string) : bool :=
  negb (String.eqb c "") && negb (String.eqb c ".").

(** The root [splitroot] finds at the front of a string. *)
Definition root_of (s : string) : Root :=
  match s with
  | "" => NoRoot
  | String c1 rest1 =>
      if Ascii.eqb c1 "/" then
        match rest1 with
        | "" => Slash
        | String c2 rest2 =>
            if Ascii.eqb c2 "/" then
              match rest2 with
              | "" => TwoSlashes
              | String c3 _ => if Ascii.eqb c3 "/" then Slash else TwoSlashes
              end
            else Slash
        end
      else NoRoot
  end.

Definition Path_of (s : string) : Path :=
  {| root := root_of s;
     parts := List.filter kept_part (split_on "/" s) |}.

(** [p / name]: an absolute [name] replaces [p]. *)
Definition joinpath (p : Path) (name : string) : Path :=
  let q := Path_of name in
  if anchored q then q
  else {| root := root p; parts := parts p ++ parts q |}.

Declare Scope path_scope.
Delimit Scope path_scope with path.
Bind Scope path_scope with Path.
Notation "p / name" := (joinpath p name) : path_scope.

(** [p.parent]: the path without its last component. *)
Definition Path_parent (p : Path) : Path :=
  {| root := root p; parts := removelast (parts p) |}.

(** [str(p)]. *)
Definition Path_str (p : Path) : string :=
  match root p, parts p with
  | Slash, ps => "/" ++ join "/" ps
  | TwoSlashes, ps => "//" ++ join "/" ps
  | NoRoot, [] => "."
  | NoRoot, ps => join "/" ps
  end.

(* ===================================================================== *)
(** * The file system *)
(* ===================================================================== *)

(** A location is the list of names from the root down.  An entry is a
    directory or a regular file with its text. *)
Inductive Entry : Type :=
| Dir
| File (content : string).

(** The exceptions the program can meet. *)
Inductive Exc : Type :=
| FileNotFoundError
| FileExistsError
| NotADirectoryError
| IsADirectoryError
| ValueError
| TypeError
| JSONDecodeError.

#[global] Instance Exc_eq_dec : EqDecision Exc.
Proof. solve_decision. Defined.

#[global] Instance Entry_eq_dec : EqDecision Entry.
Proof. solve_decision. Defined.

Definition is_OSError (e : Exc) : bool :=
  match e with
  | FileNotFoundError | FileExistsError | NotADirectoryError | IsADirectoryError => true
  | _ => false
  end.

(** What the journal notes: an entry that was not there came to be, as a
    directory or as an empty file. *)
Inductive Event : Type :=
| Mkdir (loc : list string)
| Creat (loc : list string).

#[global] Instance Event_eq_dec : EqDecision Event.
Proof. solve_decision. Defined.

Definition event_loc (ev : Event) : list string :=
  match ev with Mkdir loc | Creat loc => loc end.

Definition event_entry (ev : Event) : Entry :=
  match ev with Mkdir _ => Dir | Creat _ => File "" end.

(** The world the program runs in: the entries on disk, the working
    directory, the lines printed so far, and a journal of the entries
    created, oldest first. *)
Record World : Type := mkWorld {
  files : gmap (list string) Entry;
  cwd : list string;
  stdout : list string;
  journal : list Event
}.

(** The root is always there. *)
Definition stat (w : World) (loc : list string) : option Entry :=
  match loc with
  | [] => Some Dir
  | _ => files w !! loc
  end.

(** Name resolution as the kernel does it: each component is looked up in
    the directory reached so far, which has to exist and be a directory;
    [".."] steps back to the containing directory. *)
Fixpoint walk (w : World) (cur : list string) (comps : list string)
  : Exc + list string :=
  match comps with
  | [] => inr cur
  | c :: rest =>
      match stat w cur with
      | Some Dir => walk w (if String.eqb c ".." then removelast cur else cur ++ [c]) rest
      | Some (File _) => inl NotADirectoryError
      | None => inl FileNotFoundError
      end
  end.

Definition NUL : ascii := chr 0.

(** A name with an embedded null character is refused before any system
    call is made. *)
Definition has_nul (p : Path) : bool := existsb (has_char NUL) (parts p).

(** The location a path denotes; the location itself need not exist. *)
Definition locate (w : World) (p : Path) : Exc + list string :=
  if has_nul p then inl ValueError
  else walk w (if anchored p then [] else cwd w) (parts p).

(* ===================================================================== *)
(** * Effects *)
(* ===================================================================== *)

(** A computation changes a state and returns a value or raises an
    exception.  What was done before an exception stays done. *)
Definition Run (S A : Type) : Type := S → S * (Exc + A).

(** The computations of the generator: their state is the world. *)
Definition M (A : Type) : Type := Run World A.

Definition ret {S A} (a : A) : Run S A := λ w, (w, inr a).

Definition raise {S A} (e : Exc) : Run S A := λ w, (w, inl e).

Definition bind {S A B} (m : Run S A) (k : A → Run S B) : Run S B :=
  λ w, match m w with
       | (w', inr a) => k a w'
       | (w', inl e) => (w', inl e)
       end.

(** [try: m except e: h e]. *)
Definition try_except {S A} (m : Run S A) (h : Exc → Run S A) : Run S A :=
  λ w, match m w with
       | (w', inr a) => (w', inr a)
       | (w', inl e) => h e w'
       end.

Declare Scope py_scope.
Delimit Scope py_scope with py.
Notation "'let*' x := m 'in' k" := (bind m (λ x, k))
  (at level 10, x name, m at level 100, k at level 200) : py_scope.
Notation "m >> k" := (bind m (λ _, k))
  (at level 100, k at level 200, right associativity) : py_scope.
Local Open Scope py_scope.

(** The world with one more line printed. *)
Definition with_line (w : World) (line : string) : World :=
  mkWorld (files w) (cwd w) (stdout w ++ [line]) (journal w).

(** The world with a new entry on disk, noted in the journal. *)
Definition with_entry (w : World) (ev : Event) : World :=
  mkWorld (<[event_loc ev := event_entry ev]> (files w)) (cwd w) (stdout w)
    (journal w ++ [ev]).

(** The world with the text of the file at a location replaced. *)
Definition with_content (w : World) (loc : list string) (text : string) : World :=
  mkWorld (<[loc := File text]> (files w)) (cwd w) (stdout w) (journal w).

(** [print(line)]. *)
Definition print (line : string) : M unit := λ w, (with_line w line, inr tt).

Definition create_entry (ev : Event) : M unit := λ w, (with_entry w ev, inr tt).

Definition set_content (loc : list string) (text : string) : M unit :=
  λ w, (with_content w loc text, inr tt).

(** Resolve a path in the current world. *)
Definition resolve (p : Path) : M (list string) :=
  λ w, (w, locate w p).

Definition lookup_entry (loc : list string) : M (option Entry) :=
  λ w, (w, inr (stat w loc)).

(** [os.mkdir(p)]. *)
Definition os_mkdir (p : Path) : M unit :=
  let* loc := resolve p in
  let* e := lookup_entry loc in
  match e with
  | Some _ => raise FileExistsError
  | None => create_entry (Mkdir loc)
  end.

(** [p.is_dir()]: never raises. *)
Definition Path_is_dir (p : Path) : M bool :=
  λ w, (w, inr match locate w p with
               | inr loc => match stat w loc with Some Dir => true | _ => false end
               | inl _ => false
               end).

(** [p.mkdir(parents=False, exist_ok=True)]. *)
Definition mkdir_exist_ok (p : Path) : M unit :=
  try_except (os_mkdir p) (λ e,
    match e with
    | FileNotFoundError => raise e
    | _ =>
        if is_OSError e then
          let* d := Path_is_dir p in
          if d then ret tt else raise e
        else raise e
    end).

(** [p.mkdir(parents=True, exist_ok=True)], by recursion on the components
    of [p] from the last one: when the containing directory is missing it
    is made first, in the same way. *)
Fixpoint mkdir_parents (a : Root) (rparts : list string) : M unit :=
  let self := mkPath a (rev rparts) in
  try_except (os_mkdir self) (λ e,
    match e with
    | FileNotFoundError =>
        match rparts with
        | [] => raise e
        | _ :: rparent => mkdir_parents a rparent >> mkdir_exist_ok self
        end
    | _ =>
        if is_OSError e then
          let* d := Path_is_dir self in
          if d then ret tt else raise e
        else raise e
    end).

Definition Path_mkdir (p : Path) : M unit :=
  mkdir_parents (root p) (rev (parts p)).

(** [open(p, 'w')]: the file is created, or emptied when it is there; the
    handle is its location. *)
Definition open_w (p : Path) : M (list string) :=
  let* loc := resolve p in
  let* e := lookup_entry loc in
  match e with
  | Some Dir => raise IsADirectoryError
  | Some (File _) => set_content loc "" >> ret loc
  | None => create_entry (Creat loc) >> ret loc
  end.

(** [f.write(text)] on a handle from [open_w]. *)
Definition f_write (f : list string) (text : string) : M unit :=
  let* e := lookup_entry f in
  match e with
  | Some (File old) => set_content f (old ++ text)
  | _ => raise ValueError
  end.

(** [os.utime(p)]: times are not kept, so only the lookup is left. *)
Definition os_utime (p : Path) : M unit :=
  let* loc := resolve p in
  let* e := lookup_entry loc in
  match e with
  | Some _ => ret tt
  | None => raise FileNotFoundError
  end.

(** [os.close(os.open(p, O_CREAT | O_WRONLY))]. *)
Definition os_open_creat (p : Path) : M unit :=
  let* loc := resolve p in
  let* e := lookup_entry loc in
  match e with
  | Some Dir => raise IsADirectoryError
  | Some (File _) => ret tt
  | None => create_entry (Creat loc)
  end.

(** [p.touch()]: an entry that is there is left alone. *)
Definition Path_touch (p : Path) : M unit :=
  try_except (os_utime p) (λ e,
    if is_OSError e then os_open_creat p else raise e).

(* ===================================================================== *)
(** * ProjectGenerator *)
(* ===================================================================== *)

(** The inner function of [create_structure]. *)
Fixpoint _create (base : Path) (content : Value) {struct content} : M unit :=
  match content with
  | VDict items =>
      (fix loop (items : list (string * Value)) : M unit :=
         match items with
         | [] => ret tt
         | (name, subcontent) :: rest =>
             let path := (base / name)%path in
             (match subcontent with
              | VDict _ | VNone =>
                  Path_mkdir path >>
                  print ("Created directory: " ++ Path_str path) >>
                  _create path subcontent
              | _ =>
                  (let* f := open_w path in
                   f_write f (py_str subcontent)) >>
                  print ("Created file: " ++ Path_str path)
              end) >>
             loop rest
         end) items
  | VNone => ret tt
  | VStr s =>
      let path := (base / s)%path in
      Path_touch path >>
      print ("Created file: " ++ Path_str path)
  | VBool _ | VInt _ | VList _ => raise TypeError
  end.

(** The body of the loop of [_create], for one item of the dictionary. *)
Definition create_item (base : Path) (name : string) (subcontent : Value) : M unit :=
  let path := (base / name)%path in
  match subcontent with
  | VDict _ | VNone =>
      Path_mkdir path >>
      print ("Created directory: " ++ Path_str path) >>
      _create path subcontent
  | _ =>
      (let* f := open_w path in
       f_write f (py_str subcontent)) >>
      print ("Created file: " ++ Path_str path)
  end.

Definition create_structure (base_dir : string) (structure : Value) : M unit :=
  let base_path := Path_of base_dir in
  _create base_path structure >>
  print (nl ++ "Project structure created successfully at " ++ Path_str base_path).


(* ===================================================================== *)
(** * json.dump with indent=4 *)
(* ===================================================================== *)

Definition hex4 (n : nat) : string :=
  String (hex_digit (n / 4096 mod 16))
    (String (hex_digit (n / 256 mod 16))
       (String (hex_digit (n / 16 mod 16))
          (String (hex_digit (n mod 16)) ""))).

(** What [ESCAPE_ASCII] and [ESCAPE_DCT] make of one character: the
    backslash, the double quote and five control characters by letter,
    everything else outside [' ' .. '~'] as [\uXXXX]. *)
Definition escape_char (c : ascii) : string :=
  if Ascii.eqb c "\" then "\\"
  else if Ascii.eqb c DQ then String "\" (String DQ "")
  else if Ascii.eqb c (chr 8) then "\b"
  else if Ascii.eqb c (chr 12) then "\f"
  else if Ascii.eqb c (chr 10) then "\n"
  else if Ascii.eqb c (chr 13) then "\r"
  else if Ascii.eqb c (chr 9) then "\t"
  else if ((ord c <? 32) || (126 <? ord c))%nat then "\u" ++ hex4 (ord c)
  else String c "".

Fixpoint escape (s : string) : string :=
  match s with
  | "" => ""
  | String c rest => escape_char c ++ escape rest
  end.

(** [encode_basestring_ascii]. *)
Definition encode_basestring_ascii (s : string) : string :=
  String DQ (escape s ++ String DQ "").

Fixpoint spaces (n : nat) : string :=
  match n with
  | O => ""
  | S n => String " " (spaces n)
  end.

(** ['\n' + indent * level], with an indent of four spaces. *)
Definition newline_indent (level : nat) : string :=
  String LF (spaces (4 * level)).

(** [_iterencode], all chunks joined: lists and dictionaries that are not
    empty put each item on a line of its own, one level deeper. *)
Fixpoint iterencode (level : nat) (o : Value) : string :=
  match o with
  | VStr s => encode_basestring_ascii s
  | VNone => "null"
  | VBool true => "true"
  | VBool false => "false"
  | VInt n => repr_int n
  | VList [] => "[]"
  | VList lst =>
      "[" ++ newline_indent (S level)
      ++ join ("," ++ newline_indent (S level)) (map (iterencode (S level)) lst)
      ++ newline_indent level ++ "]"
  | VDict [] => "{}"
  | VDict dct =>
      "{" ++ newline_indent (S level)
      ++ join ("," ++ newline_indent (S level))
           (map (λ kv, encode_basestring_ascii kv.1 ++ ": "
                       ++ iterencode (S level) kv.2) dct)
      ++ newline_indent level ++ "}"
  end.

(** [json.dumps(obj, indent=4)]: what [json.dump] writes to the file. *)
Definition json_dumps (obj : Value) : string := iterencode 0 obj.

(* ===================================================================== *)
(** * json.load *)
(* ===================================================================== *)

(** The characters of [WHITESPACE]. *)
Definition is_ws (c : ascii) : bool :=
  Ascii.eqb c " " || Ascii.eqb c (chr 9) || Ascii.eqb c (chr 10) || Ascii.eqb c (chr 13).

Fixpoint skip_ws (s : string) : string :=
  match s with
  | "" => ""
  | String c rest => if is_ws c then skip_ws rest else s
  end.

Definition is_digit (c : ascii) : bool := ((48 <=? ord c) && (ord c <=? 57))%nat.

Definition hex_value (c : ascii) : option nat :=
  let n := ord c in
  if is_digit c then Some (n - 48)%nat
  else if ((97 <=? n) && (n <=? 102))%nat then Some (n - 87)%nat
  else if ((65 <=? n) && (n <=? 70))%nat then Some (n - 55)%nat
  else None.

(** [_decode_uXXXX]: four hexadecimal digits. *)
Definition decode_uXXXX (h1 h2 h3 h4 : ascii) : option nat :=
  match hex_value h1, hex_value h2, hex_value h3, hex_value h4 with
  | Some a, Some b, Some c, Some d => Some (((a * 16 + b) * 16 + c) * 16 + d)%nat
  | _, _, _, _ => None
  end.

(** The table [BACKSLASH]. *)
Definition backslash (esc : ascii) : option ascii :=
  if Ascii.eqb esc DQ then Some DQ
  else if Ascii.eqb esc "\" then Some "\"%char
  else if Ascii.eqb esc "/" then Some "/"%char
  else if Ascii.eqb esc "b" then Some (chr 8)
  else if Ascii.eqb esc "f" then Some (chr 12)
  else if Ascii.eqb esc "n" then Some (chr 10)
  else if Ascii.eqb esc "r" then Some (chr 13)
  else if Ascii.eqb esc "t" then Some (chr 9)
  else None.

(** [scanstring] in strict mode, from just after the opening quote: the
    text and what follows the closing quote.  [None] stands for
    [JSONDecodeError]; an escape for a code point above 255 is outside
    the model and refused as well. *)
Fixpoint scanstring (s : string) : option (string * string) :=
  match s with
  | "" => None
  | String c rest =>
      if Ascii.eqb c DQ then Some ("", rest)
      else if Ascii.eqb c "\" then
        match rest with
        | "" => None
        | String esc rest1 =>
            if Ascii.eqb esc "u" then
              match rest1 with
              | String h1 (String h2 (String h3 (String h4 rest2))) =>
                  match decode_uXXXX h1 h2 h3 h4 with
                  | Some uni =>
                      if (uni <? 256)%nat then
                        match scanstring rest2 with
                        | Some (text, after) => Some (String (chr uni) text, after)
                        | None => None
                        end
                      else None
                  | None => None
                  end
              | _ => None
              end
            else
              match backslash esc with
              | Some ch =>
                  match scanstring rest1 with
                  | Some (text, after) => Some (String ch text, after)
                  | None => None
                  end
              | None => None
              end
        end
      else if (ord c <? 32)%nat then None
      else
        match scanstring rest with
        | Some (text, after) => Some (String c text, after)
        | None => None
        end
  end.

(** The longest run of digits at the front. *)
Fixpoint span_digits (s : string) : string * string :=
  match s with
  | "" => ("", "")
  | String c rest =>
      if is_digit c then
        let (ds, after) := span_digits rest in (String c ds, after)
      else ("", s)
  end.

(** The integer part of [NUMBER_RE]: an optional minus, then [0] or a
    digit from 1 to 9 followed by digits. *)
Definition match_integer (s : string) : option (string * string) :=
  let (sign, s1) :=
    match s with
    | String c r => if Ascii.eqb c "-" then ("-", r) else ("", s)
    | "" => ("", s)
    end in
  match s1 with
  | "" => None
  | String c r =>
      if Ascii.eqb c "0" then Some (sign ++ "0", r)
      else if is_digit c then
        let (ds, after) := span_digits r in Some (sign ++ String c ds, after)
      else None
  end.

(** Whether [NUMBER_RE] goes on with a fraction or an exponent, which
    makes the number a [float]. *)
Definition float_follows (s : string) : bool :=
  match s with
  | "" => false
  | String e rest =>
      if Ascii.eqb e "." then
        match rest with
        | String d _ => is_digit d
        | "" => false
        end
      else if Ascii.eqb e "e" || Ascii.eqb e "E" then
        match rest with
        | String d rest' =>
            if is_digit d then true
            else if Ascii.eqb d "+" || Ascii.eqb d "-" then
              match rest' with
              | String d' _ => is_digit d'
              | "" => false
              end
            else false
        | "" => false
        end
      else false
  end.

(** [int(text)] for the text [match_integer] found. *)
Definition parse_int (text : string) : option Z :=
  option_map Z.of_int (NilZero.int_of_string text).

(** [s.startswith(p)] and [s[n:]]. *)
Fixpoint starts_with (p s : string) : bool :=
  match p with
  | "" => true
  | String a p' =>
      match s with
      | "" => false
      | String b s' => Ascii.eqb a b && starts_with p' s'
      end
  end.

Fixpoint drop (n : nat) (s : string) : string :=
  match n with
  | O => s
  | S n' =>
      match s with
      | "" => ""
      | String _ s' => drop n' s'
      end
  end.

(** [dict.__setitem__] on the items of a dictionary: the value of a key
    that is there is replaced in place, a new key goes to the end. *)
Fixpoint dict_set (k : string) (v : Value) (d : list (string * Value))
  : list (string * Value) :=
  match d with
  | [] => [(k, v)]
  | (k', v') :: d' =>
      if String.eqb k k' then (k, v) :: d' else (k', v') :: dict_set k v d'
  end.

(** [dict(pairs)]. *)
Definition dict_of_pairs (pairs : list (string * Value)) : list (string * Value) :=
  fold_left (λ d kv, dict_set kv.1 kv.2 d) pairs [].

(** [scan_once], with [JSONObject] and [JSONArray]: the value at the
    front of the text and what follows it.  The recursion is on a bound
    [fuel] on its depth; [json_loads] starts it with more than the
    text can use.  Numbers with a fraction or an exponent, [NaN] and
    the infinities are [float]s, outside the model, and refused. *)
Fixpoint scan_once (fuel : nat) (s : string) : option (Value * string) :=
  match fuel with
  | O => None
  | S fuel =>
      match s with
      | "" => None
      | String c rest =>
          if Ascii.eqb c DQ then
            match scanstring rest with
            | Some (text, after) => Some (VStr text, after)
            | None => None
            end
          else if Ascii.eqb c "{" then
            match skip_ws rest with
            | "" => None
            | String c' after =>
                if Ascii.eqb c' "}" then Some (VDict [], after)
                else if Ascii.eqb c' DQ then
                  match parse_pairs fuel after with
                  | Some (pairs, after') => Some (VDict (dict_of_pairs pairs), after')
                  | None => None
                  end
                else None
            end
          else if Ascii.eqb c "[" then
            match skip_ws rest with
            | "" => None
            | String c' after =>
                if Ascii.eqb c' "]" then Some (VList [], after)
                else
                  match parse_values fuel (String c' after) with
                  | Some (values, after') => Some (VList values, after')
                  | None => None
                  end
            end
          else if starts_with "null" s then Some (VNone, drop 4 s)
          else if starts_with "true" s then Some (VBool true, drop 4 s)
          else if starts_with "false" s then Some (VBool false, drop 5 s)
          else
            match match_integer s with
            | Some (text, after) =>
                if float_follows after then None
                else
                  match parse_int text with
                  | Some n => Some (VInt n, after)
                  | None => None
                  end
            | None => None
            end
      end
  end

(** The loop of [JSONObject], from just after the opening quote of a key. *)
with parse_pairs (fuel : nat) (s : string)
  : option (list (string * Value) * string) :=
  match fuel with
  | O => None
  | S fuel =>
      match scanstring s with
      | None => None
      | Some (key, s1) =>
          match skip_ws s1 with
          | "" => None
          | String c1 s2 =>
              if Ascii.eqb c1 ":" then
                match scan_once fuel (skip_ws s2) with
                | None => None
                | Some (value, s3) =>
                    match skip_ws s3 with
                    | "" => None
                    | String c3 s4 =>
                        if Ascii.eqb c3 "}" then Some ([(key, value)], s4)
                        else if Ascii.eqb c3 "," then
                          match skip_ws s4 with
                          | "" => None
                          | String c5 s5 =>
                              if Ascii.eqb c5 DQ then
                                match parse_pairs fuel s5 with
                                | Some (more, after) =>
                                    Some ((key, value) :: more, after)
                                | None => None
                                end
                              else None
                          end
                        else None
                    end
                end
              else None
          end
      end
  end

(** The loop of [JSONArray], from the start of a value. *)
with parse_values (fuel : nat) (s : string) : option (list Value * string) :=
  match fuel with
  | O => None
  | S fuel =>
      match scan_once fuel s with
      | None => None
      | Some (value, s1) =>
          match skip_ws s1 with
          | "" => None
          | String c1 s2 =>
              if Ascii.eqb c1 "]" then Some ([value], s2)
              else if Ascii.eqb c1 "," then
                match parse_values fuel (skip_ws s2) with
                | Some (more, after) => Some (value :: more, after)
                | None => None
                end
              else None
          end
      end
  end.

(** [json.loads(text)]: leading whitespace, one value, trailing
    whitespace, and nothing else. *)
Definition json_loads (text : string) : option Value :=
  match scan_once (S (String.length text)) (skip_ws text) with
  | Some (obj, after) =>
      match skip_ws after with
      | "" => Some obj
      | _ => None
      end
  | None => None
  end.

(* ===================================================================== *)
(** * ProjectDesigner *)
(* ===================================================================== *)

(** A row of the tree view: a folder with its rows, or a file. *)
#[warnings="-register-all"]
Inductive TreeItem : Type :=
| Folder (name : string) (children : list TreeItem)
| Leaf (name : string).

(** A message box: the title, the text, and for an error the exception
    whose message ends the text. *)
Inductive Dialog : Type :=
| ShowError (title message : string) (e : Exc)
| ShowInfo (title message : string).

(** The editor: the structure it holds, what its widgets show, and the
    message boxes it has put up. *)
Record Designer : Type := mkDesigner {
  project_structure : Value;
  tree_view : list TreeItem;
  status : string;
  dialogs : list Dialog
}.

(** The state of the application: the editor and the world around it. *)
Record App : Type := mkApp { designer : Designer; world : World }.

(** The computations of the editor. *)
Definition G (A : Type) : Type := Run App A.

(** A computation on the world, run inside the application. *)
Definition lift {A} (m : M A) : G A :=
  λ app, let (w', r) := m (world app) in (mkApp (designer app) w', r).

Definition get_structure : G Value :=
  λ app, (app, inr (project_structure (designer app))).

(** [self.project_structure = v]. *)
Definition set_structure (v : Value) : G unit :=
  λ app,
    let d := designer app in
    (mkApp (mkDesigner v (tree_view d) (status d) (dialogs d)) (world app), inr tt).

(** [self.status.config(text=text)]. *)
Definition set_status (text : string) : G unit :=
  λ app,
    let d := designer app in
    (mkApp (mkDesigner (project_structure d) (tree_view d) text (dialogs d))
       (world app), inr tt).

Definition show (dlg : Dialog) : G unit :=
  λ app,
    let d := designer app in
    (mkApp (mkDesigner (project_structure d) (tree_view d) (status d)
              (dialogs d ++ [dlg])) (world app), inr tt).

(** [_add_tree_node]: the rows for a structure. *)
Fixpoint _add_tree_node (structure : Value) : list TreeItem :=
  match structure with
  | VDict items =>
      map (λ kv, match kv.2 with
                 | VDict _ => Folder kv.1 (_add_tree_node kv.2)
                 | _ => Leaf kv.1
                 end) items
  | _ => []
  end.

(** [update_tree_view]: all rows are dropped and drawn again. *)
Definition update_tree_view : G unit :=
  λ app,
    let d := designer app in
    (mkApp (mkDesigner (project_structure d) (_add_tree_node (project_structure d))
              (status d) (dialogs d)) (world app), inr tt).

(** [open(p).read()]. *)
Definition read_text (p : Path) : M string :=
  let* loc := resolve p in
  let* e := lookup_entry loc in
  match e with
  | Some (File text) => ret text
  | Some Dir => raise IsADirectoryError
  | None => raise FileNotFoundError
  end.

(** [json.load(f)] on the text read. *)
Definition json_load {S} (text : string) : Run S Value :=
  match json_loads text with
  | Some v => ret v
  | None => raise JSONDecodeError
  end.

(** The handlers get what the file dialog returned: the empty string
    when it was cancelled. *)
Definition load_json (file_path : string) : G unit :=
  if String.eqb file_path "" then ret tt
  else
    try_except
      (let* text := lift (read_text (Path_of file_path)) in
       let* v := json_load text in
       set_structure v >>
       update_tree_view >>
       set_status ("Loaded structure from: " ++ file_path))
      (λ e, show (ShowError "Error" ("Failed to load JSON:" ++ nl) e)).

Definition save_json (file_path : string) : G unit :=
  if String.eqb file_path "" then ret tt
  else
    let* structure := get_structure in
    (let* f := lift (open_w (Path_of file_path)) in
     lift (f_write f (json_dumps structure))) >>
    set_status ("Structure saved to: " ++ file_path).

Definition generate_project (target_dir : string) : G unit :=
  if String.eqb target_dir "" then ret tt
  else
    try_except
      (let* structure := get_structure in
       lift (create_structure target_dir structure) >>
       show (ShowInfo "Success" ("Project generated at:" ++ nl ++ target_dir)) >>
       set_status ("Project created at: " ++ target_dir))
      (λ e, show (ShowError "Error" ("Failed to create project:" ++ nl) e)).

(** The structure the editor starts with. *)
Definition sample_structure : Value :=
  VDict [("book_recommender", VDict [
    ("app", VDict [
       ("__init__.py", VStr "");
       ("main.py", VStr (
          "# FastAPI app setup" ++ nl ++
          "from fastapi import FastAPI" ++ nl ++
          "from .routes import router" ++ nl ++ nl ++
          "app = FastAPI()" ++ nl ++
          "app.include_router(router)" ++ nl ++ nl ++
          "@app.get('/')" ++ nl ++
          "def read_root():" ++ nl ++
          "    return {'message': 'Welcome to Book Recommender API'}"));
       ("routes.py", VStr (
          "# API endpoints" ++ nl ++
          "from fastapi import APIRouter" ++ nl ++
          "from .schemas import BookQuery" ++ nl ++
          "from .services.recommendation_service import recommend_books" ++ nl ++ nl ++
          "router = APIRouter()" ++ nl ++ nl ++
          "@router.post('/recommend')" ++ nl ++
          "def get_recommendations(query: BookQuery):" ++ nl ++
          "    return recommend_books(query)"));
       ("schemas.py", VStr (
          "# Pydantic models" ++ nl ++
          "from pydantic import BaseModel" ++ nl ++ nl ++
          "class BookQuery(BaseModel):" ++ nl ++
          "    genre: str" ++ nl ++
          "    author: str = None" ++ nl ++
          "    min_rating: float = 0.0"));
       ("services", VDict [
          ("__init__.py", VStr "");
          ("book_service.py", VStr "# Logic related to books");
          ("recommendation_service.py", VStr (
             "# Recommendation logic" ++ nl ++
             "def recommend_books(query):" ++ nl ++
             "    # Dummy logic" ++ nl ++
             "    return {'recommendations': ['Book A', 'Book B']}"))]);
       ("data", VDict [
          ("__init__.py", VStr "");
          ("data_loader.py", VStr "# Functions for loading book data");
          ("books.csv", VStr (
             "book_id,title,author,genre,rating" ++ nl ++
             "1,1984,George Orwell,Dystopian,4.6" ++ nl ++
             "2,Dune,Frank Herbert,Science Fiction,4.5"))])]);
    ("requirements.txt",
       VStr ("fastapi" ++ nl ++ "uvicorn" ++ nl ++ "pydantic" ++ nl ++ "pandas"));
    ("README.md",
       VStr ("# Book Recommender" ++ nl ++ nl ++
             "A FastAPI-based book recommendation system."))])].

Definition load_sample_structure : G unit :=
  set_structure sample_structure >>
  update_tree_view >>
  set_status "Loaded sample book_recommender structure".

(** [ProjectDesigner.__init__]: the editor as it comes up. *)
Definition initial_designer : Designer :=
  mkDesigner (VDict []) [] "Ready" [].

(** [ProjectGenerator.create_from_json]. *)
Definition create_from_json (json_path target_dir : string) : M unit :=
  let* text := read_text (Path_of json_path) in
  let* structure := json_load text in
  create_structure target_dir structure.

(* ===================================================================== *)
(** * Vocabulary of the specification *)
(* ===================================================================== *)

Definition same_kind (e e' : Entry) : Prop :=
  match e, e' with
  | Dir, Dir => True
  | File _, File _ => True
  | _, _ => False
  end.

(** [extends w t]: everything on disk in [w] is on disk in [t], as an
    entry of the same kind; the working directory is the same. *)
Definition extends (w t : World) : Prop :=
  cwd t = cwd w ∧
  ∀ loc e, files w !! loc = Some e → ∃ e', files t !! loc = Some e' ∧ same_kind e e'.

(** Whether a path is a directory, as a fact about the world. *)
Definition is_dir (w : World) (p : Path) : Prop :=
  ∃ loc, locate w p = inr loc ∧ stat w loc = Some Dir.

(** [with open(p, 'w') as f: f.write(text)]: the world after it. *)
Definition written (w : World) (loc : list string) (text : string) : World :=
  mkWorld (<[loc := File text]> (files w)) (cwd w) (stdout w)
    (journal w ++ match stat w loc with None => [Creat loc] | Some _ => [] end).

(** The world after directories were made at the given locations, in
    that order. *)
Definition made (w : World) (locs : list (list string)) : World :=
  foldl (λ w l, with_entry w (Mkdir l)) w locs.

(** A disk is a tree when every entry sits in a directory. *)
Definition tree (w : World) : Prop :=
  ∀ loc e, files w !! loc = Some e → stat w (removelast loc) = Some Dir.

(** [below loc l]: the location [l] is strictly inside [loc]. *)
Definition below (loc l : list string) : Prop :=
  ∃ suffix, suffix ≠ [] ∧ l = (loc ++ suffix)%list.

(** A disk to run examples on: [/tmp/x] exists and is empty. *)
Definition tmp_x : World :=
  mkWorld {[ ["tmp"] := Dir; ["tmp"; "x"] := Dir ]} [] [] [].

(** The example of the specification. *)
Definition example_structure : Value :=
  VDict [("a", VDict [("b.txt", VStr "hi"); ("c", VDict [])])].

(** A computation can be replayed when each of its successful runs comes
    down to laying a fixed set [W] of entries over the disk, and running
    it again from any world that has grown out of the one it reached
    succeeds with the same value, lays the same [W] over that disk, and
    creates nothing. *)
Definition replays {A} (m : M A) : Prop :=
  ∀ w w1 a, m w = (w1, inr a) →
    extends w w1 ∧
    ∃ W : gmap (list string) Entry,
      files w1 = W ∪ files w ∧
      ∀ t, extends w1 t →
        ∃ t1, m t = (t1, inr a) ∧ files t1 = W ∪ files t ∧
              cwd t1 = cwd t ∧ journal t1 = journal t.

(** A world is well formed when its disk is a tree and the working
    directory is one of its directories. *)
Definition wf_world (w : World) : Prop :=
  tree w ∧ stat w (cwd w) = Some Dir.

(** [parent_first w evs]: for each entry noted in [evs], the directory
    that contains it was a directory of [w] or was made earlier in
    [evs]. *)
Definition parent_first (w : World) (evs : list Event) : Prop :=
  ∀ pre ev post, evs = (pre ++ ev :: post)%list →
    stat w (removelast (event_loc ev)) = Some Dir
    ∨ Mkdir (removelast (event_loc ev)) ∈ pre.

(** [grows w w1]: from a well-formed [w], the world [w1] is well formed,
    keeps what was on disk, and its journal continues that of [w] with
    events that account for every new entry, for every new directory as
    a directory, and that came parent first. *)
Definition grows (w w1 : World) : Prop :=
  wf_world w →
  wf_world w1 ∧ extends w w1 ∧
  ∃ evs, journal w1 = (journal w ++ evs)%list ∧
         (∀ l, is_Some (stat w1 l) → is_Some (stat w l) ∨ l ∈ map event_loc evs) ∧
         (∀ l, stat w1 l = Some Dir → stat w l = Some Dir ∨ Mkdir l ∈ evs) ∧
         parent_first w evs.

(** [keeps R m]: every run of [m], failed or not, relates the world it
    starts in to the world it ends in by [R]. *)
Definition keeps (R : World → World → Prop) {A} (m : M A) : Prop :=
  ∀ w w1 r, m w = (w1, r) → R w w1.

(** A key that is one path component: not empty, not ["."] or [".."],
    without a slash and without a null character. *)
Definition plain_name (n : string) : bool :=
  negb (String.eqb n "") && negb (String.eqb n ".") && negb (String.eqb n "..")
  && negb (has_char "/" n) && negb (has_char NUL n).

(** A valid structure: in every mapping of it the keys are plain names,
    and no key occurs twice (as in any Python dictionary). *)
Fixpoint valid (v : Value) : bool :=
  match v with
  | VDict items =>
      bool_decide (NoDup (map fst items))
      && forallb (λ kv, plain_name kv.1 && valid kv.2) items
  | _ => true
  end.

(** The keys of a structure, each as the sequence of keys from the root
    down to it, in the order of the traversal. *)
Fixpoint key_paths (v : Value) : list (list string) :=
  match v with
  | VDict items =>
      flat_map (λ kv, [kv.1] :: map (cons kv.1) (key_paths kv.2)) items
  | _ => []
  end.

(** What an item becomes on disk. *)
Definition entry_for (child : Value) : Entry :=
  if is_dict child || is_none child then Dir else File (py_str child).

(** The entries a structure stands for under the location [b], in the
    order of the traversal. *)
Fixpoint expected (b : list string) (v : Value) : list (list string * Entry) :=
  match v with
  | VDict items =>
      flat_map (λ kv, (b ++ [kv.1], entry_for kv.2)%list
                      :: expected (b ++ [kv.1])%list kv.2) items
  | _ => []
  end.

(** The event that notes the creation of an entry. *)
Definition event_for (le : list string * Entry) : Event :=
  match le.2 with
  | Dir => Mkdir le.1
  | File _ => Creat le.1
  end.

(** Nothing is at or below [b / k] for any key [k] of the mapping [v]. *)
Definition fresh (w : World) (b : list string) (v : Value) : Prop :=
  match v with
  | VDict items =>
      ∀ k s, k ∈ map fst items → files w !! (b ++ k :: s)%list = None
  | _ => True
  end.

(** The keys of a mapping. *)
Definition keys_of (v : Value) : list string :=
  match v with
  | VDict items => map fst items
  | _ => []
  end.

(** [lays w w1 es]: going from [w] to [w1], the entries [es] were created
    in that order, each is on disk in [w1], and nothing else on disk
    changed. *)
Definition lays (w w1 : World) (es : list (list string * Entry)) : Prop :=
  journal w1 = (journal w ++ map event_for es)%list ∧
  (∀ l e, (l, e) ∈ es → files w1 !! l = Some e) ∧
  (∀ l, l ∉ map fst es → files w1 !! l = files w !! l).

(** [materializes v]: from any world in which the base is a directory
    with nothing at the keys of [v], creating the valid mapping (or
    [None]) [v] succeeds and lays exactly the entries it stands for. *)
Definition materializes (v : Value) : Prop :=
  ∀ base w b,
    valid v = true → is_dict v || is_none v = true →
    locate w base = inr b → stat w b = Some Dir → fresh w b v →
    ∃ w1, _create base v w = (w1, inr tt) ∧ lays w w1 (expected b v).

(** The same disk with a file [/tmp/x/b.txt] that has some text. *)
Definition tmp_x_old : World :=
  mkWorld {[ ["tmp"] := Dir; ["tmp"; "x"] := Dir;
             ["tmp"; "x"; "b.txt"] := File "old text, longer than the new" ]}
    [] [] [].

(** [tree], decided by going through the entries. *)
Definition treeb (w : World) : bool :=
  forallb (λ le, bool_decide (stat w (removelast le.1) = Some Dir))
    (map_to_list (files w)).

(** The editor after a failed load: as it was, with one more error box. *)
Definition load_failed (app : App) (e : Exc) : App :=
  let d := designer app in
  mkApp (mkDesigner (project_structure d) (tree_view d) (status d)
           (dialogs d ++ [ShowError "Error" ("Failed to load JSON:" ++ nl) e]))
    (world app).

(** The editor after a load that went through. *)
Definition loaded (app : App) (file_path : string) (v : Value) : App :=
  let d := designer app in
  mkApp (mkDesigner v (_add_tree_node v) ("Loaded structure from: " ++ file_path)
           (dialogs d))
    (world app).

(** A disk with a file that is not JSON and a file that is. *)
Definition tmp_x_json : World :=
  mkWorld {[ ["tmp"] := Dir; ["tmp"; "x"] := Dir;
             ["tmp"; "x"; "bad.json"] := File "{ bad";
             ["tmp"; "x"; "good.json"] := File "[1, 2]" ]}
    [] [] [].

(** An editor that holds the example of the specification. *)
Definition example_app : App :=
  mkApp (mkDesigner example_structure (_add_tree_node example_structure) "Ready" [])
    tmp_x_json.

(** A structure as [json] knows it: no key twice in one dictionary, at
    any depth. *)
Fixpoint well_formed (v : Value) : bool :=
  match v with
  | VList xs => forallb well_formed xs
  | VDict items =>
      bool_decide (NoDup (map fst items))
      && forallb (λ kv, well_formed kv.2) items
  | _ => true
  end.

(** A bound on the depth of the calls [scan_once] makes for a value. *)
Fixpoint weight (v : Value) : nat :=
  match v with
  | VList xs => S (list_sum (map (λ x, S (weight x)) xs))
  | VDict items => S (list_sum (map (λ kv, S (weight kv.2)) items))
  | _ => 1
  end.

(** What follows a value in the output of [json.dumps]: nothing, a
    comma, or a line break. *)
Definition value_end (rest : string) : bool :=
  match rest with
  | "" => true
  | String c _ => Ascii.eqb c "," || Ascii.eqb c LF
  end.

(** What a value starts with: not whitespace, and not a closing bracket. *)
Definition value_start (s : string) : bool :=
  match s with
  | "" => false
  | String c _ => negb (is_ws c) && negb (Ascii.eqb c "]") && negb (Ascii.eqb c "}")
  end.

(** [reads_back v]: what [json.dumps] writes for [v], at any level of
    indentation and followed by any text that can follow a value, is
    scanned as [v] with that text left, given fuel for its depth. *)
Definition reads_back (v : Value) : Prop :=
  ∀ level fuel rest,
    well_formed v = true → (weight v ≤ fuel)%nat → value_end rest = true →
    scan_once fuel (iterencode level v ++ rest) = Some (v, rest).

(** The characters a successful scan of [s] took, with [rest] left. *)
Definition consumed (s rest : string) : nat := String.length s - String.length rest.

(** [bound_free scan fuel]: a result [scan] gives under the bound [fuel]
    takes characters, and is the result under any bound that covers
    them. *)
Definition bound_free {A} (scan : nat → string → option (A * string)) (fuel : nat) : Prop :=
  ∀ s x rest, scan fuel s = Some (x, rest) →
    (String.length rest < String.length s)%nat ∧
    ∀ fuel', (consumed s rest ≤ fuel')%nat → scan fuel' s = Some (x, rest).

(* ===================================================================== *)
(** * The window and main *)
(* ===================================================================== *)

(** What the user does in the window: one of the three buttons, with
    what the file dialog it opens returns (the empty string when the
    dialog is cancelled). *)
Inductive Click : Type :=
| LoadJSON (file_path : string)
| SaveJSON (file_path : string)
| GenerateProject (target_dir : string).

(** The [command] of each button, as [setup_ui] binds them. *)
Definition command (c : Click) : G unit :=
  match c with
  | LoadJSON file_path => load_json file_path
  | SaveJSON file_path => save_json file_path
  | GenerateProject target_dir => generate_project target_dir
  end.

(** [root.mainloop()]: the commands of the clicks, one after the other.
    Tk reports an exception a command raises (a traceback on the error
    stream, which is not modelled) and goes on with the loop. *)
Fixpoint mainloop (clicks : list Click) : G unit :=
  match clicks with
  | [] => ret tt
  | c :: rest => try_except (command c) (λ _, ret tt) >> mainloop rest
  end.

(** [ProjectDesigner(root)]: the fields as [__init__] and [setup_ui] set
    them, then the sample. *)
Definition ProjectDesigner_init : G unit :=
  λ app, load_sample_structure (mkApp initial_designer (world app)).

(** What [parse_args] returns: [--json] (absent: [None]), [--output]
    (absent: ["."]) and [--gui]. *)
Record Args : Type := mkArgs { json : option string; output : string; gui : bool }.

(** [if x:] for an optional string. *)
Definition truthy (x : option string) : bool :=
  match x with
  | Some s => negb (String.eqb s "")
  | None => false
  end.

(** [main], from the parsed arguments on.  [help] is the text
    [parser.print_help()] writes, [clicks] what the user does while the
    window is up.  With [--gui] the result carries the editor as the
    loop left it. *)
Definition main (help : string) (args : Args) (clicks : list Click) : G unit :=
  if gui args then
    ProjectDesigner_init >> mainloop clicks
  else if truthy (json args) then
    lift (create_from_json (default "" (json args)) (output args))
  else
    lift (print "Please specify either --gui or --json argument" >> print help).

(* ===================================================================== *)
(** * More vocabulary *)
(* ===================================================================== *)

(** The lines [_create] prints for a structure under [base] when nothing
    stops it. *)
Fixpoint report (base : Path) (content : Value) : list string :=
  match content with
  | VDict items =>
      flat_map (λ kv,
        let path := (base / kv.1)%path in
        if is_dict kv.2 || is_none kv.2
        then ("Created directory: " ++ Path_str path) :: report path kv.2
        else ["Created file: " ++ Path_str path]) items
  | VStr s => ["Created file: " ++ Path_str (base / s)%path]
  | _ => []
  end.

(** The last line of [create_structure]. *)
Definition success_line (base_dir : string) : string :=
  nl ++ "Project structure created successfully at " ++ Path_str (Path_of base_dir).

(** The rows of a tree view, each with the names from the top row down
    to it and whether it is a folder. *)
Fixpoint item_rows (t : TreeItem) : list (list string * bool) :=
  match t with
  | Folder name children =>
      ([name], true)
      :: map (λ pb, (name :: pb.1, pb.2)) (flat_map item_rows children)
  | Leaf name => [([name], false)]
  end.

Definition rows (items : list TreeItem) : list (list string * bool) :=
  flat_map item_rows items.

(** The keys of a structure as [key_paths] lists them, each with whether
    its value is a mapping. *)
Fixpoint key_kinds (v : Value) : list (list string * bool) :=
  match v with
  | VDict items =>
      flat_map (λ kv, ([kv.1], is_dict kv.2)
                      :: map (λ pb, (kv.1 :: pb.1, pb.2)) (key_kinds kv.2)) items
  | _ => []
  end.

(** The editor is in step when its structure has no key twice in a
    mapping and its tree view is the one drawn from that structure. *)
Definition in_step (d : Designer) : Prop :=
  well_formed (project_structure d) = true
  ∧ tree_view d = _add_tree_node (project_structure d).

(** A disk with the example of the specification saved as JSON in
    [/tmp/x/p.json], and an empty directory [/tmp/x/out]. *)
Definition tmp_x_project : World :=
  mkWorld {[ ["tmp"] := Dir; ["tmp"; "x"] := Dir;
             ["tmp"; "x"; "out"] := Dir;
             ["tmp"; "x"; "p.json"] := File (json_dumps example_structure) ]}
    [] [] [].

(** A test that holds of every character of a text. *)
Fixpoint all_chars (P : ascii → bool) (s : string) : bool :=
  match s with
  | "" => true
  | String c rest => P c && all_chars P rest
  end.

(** The line feed and the printable characters of ASCII, from the space
    to the tilde. *)
Definition plain_ascii (c : ascii) : bool :=
  Ascii.eqb c LF || ((32 <=? ord c) && (ord c <=? 126))%nat.

(** [only_at w w1 locs]: going from [w] to [w1], nothing on disk changed
    outside the locations [locs]. *)
Definition only_at (w w1 : World) (locs : list (list string)) : Prop :=
  ∀ l, l ∉ locs → files w1 !! l = files w !! l.

(** [settles v]: over any disk on which the base is a directory, a run of
    [_create] on the valid mapping (or [None]) [v] changes nothing but
    the locations of its keys, and when it goes through every key has
    the entry its value stands for. *)
Definition settles (v : Value) : Prop :=
  ∀ base w b w1 r,
    valid v = true → is_dict v || is_none v = true →
    locate w base = inr b → stat w b = Some Dir →
    _create base v w = (w1, r) →
    only_at w w1 (map fst (expected b v)) ∧
    (r = inr tt → ∀ l e, (l, e) ∈ expected b v → files w1 !! l = Some e).

(* ===================================================================== *)
(** * The structure in memory *)
(* ===================================================================== *)

(** Python hands objects around by reference: the dictionary the editor
    keeps in [self.project_structure] is the very object that
    [create_structure] receives and walks, and a dictionary or a list can
    be changed in place by whoever holds it.  To say that generation
    leaves the structure alone, the objects are kept in a memory, and a
    run can change the memory as well as the disk. *)

(** A reference is the place of an object in the memory. *)
Definition ref : Type := nat.

(** An object: a dictionary maps its keys to references, a list holds
    references; the same object can be reached along several ways. *)
Inductive Obj : Type :=
| ONone
| OBool (b : bool)
| OInt (n : Z)
| OStr (s : string)
| OList (xs : list ref)
| ODict (items : list (string * ref)).

Definition Heap : Type := list Obj.

(** What a run works on: the world and the objects in memory. *)
Record Mem : Type := mkMem { disk : World; heap : Heap }.

(** A computation on a state with objects in it returns a value or
    raises, like the computations on the world, or does not come back
    within the bound it was given on the depth of its calls ([None]); a
    place that holds no object has no reading either. *)
Definition Py (S A : Type) : Type := S → option (S * (Exc + A)).

Definition py_ret {S A} (a : A) : Py S A := λ s, Some (s, inr a).

Definition py_raise {S A} (e : Exc) : Py S A := λ s, Some (s, inl e).

Definition py_bind {S A B} (c : Py S A) (k : A → Py S B) : Py S B :=
  λ s, match c s with
       | Some (s', inr a) => k a s'
       | Some (s', inl e) => Some (s', inl e)
       | None => None
       end.

Definition py_try {S A} (c : Py S A) (h : Exc → Py S A) : Py S A :=
  λ s, match c s with
       | Some (s', inr a) => Some (s', inr a)
       | Some (s', inl e) => h e s'
       | None => None
       end.

Definition too_deep {S A} : Py S A := λ _, None.

Declare Scope mem_scope.
Delimit Scope mem_scope with mem.
Notation "'let*' x := m 'in' k" := (py_bind m (λ x, k))
  (at level 10, x name, m at level 100, k at level 200) : mem_scope.
Notation "m >> k" := (py_bind m (λ _, k))
  (at level 100, k at level 200, right associativity) : mem_scope.

(** A computation on the world, run on the disk; the objects stay. *)
Definition on_disk {A} (c : M A) : Py Mem A :=
  λ m, let (w', r) := c (disk m) in Some (mkMem w' (heap m), r).

(** Reading the object at a reference. *)
Definition deref (r : ref) : Py Mem Obj :=
  λ m, match heap m !! r with
       | Some o => Some (m, inr o)
       | None => None
       end.

(** The value an object stands for: the object with everything reachable
    from it, read down to [depth] levels. *)
Fixpoint value_at (depth : nat) (h : Heap) (r : ref) : option Value :=
  match depth with
  | O => None
  | S depth =>
      match h !! r with
      | None => None
      | Some ONone => Some VNone
      | Some (OBool b) => Some (VBool b)
      | Some (OInt n) => Some (VInt n)
      | Some (OStr s) => Some (VStr s)
      | Some (OList xs) => VList <$> mapM (value_at depth h) xs
      | Some (ODict items) =>
          VDict <$> mapM (λ kr, pair kr.1 <$> value_at depth h kr.2) items
      end
  end.

(** [str(x)] of the object at a reference: it reads the object and what
    it holds, and changes nothing.  A list that holds itself, which
    Python prints with an ellipsis, has no reading here. *)
Definition str_of (depth : nat) (r : ref) : Py Mem string :=
  λ m, match value_at depth (heap m) r with
       | Some v => Some (m, inr (py_str v))
       | None => None
       end.

(** The editor with its structure held by reference. *)
Record Window : Type := mkWindow {
  self_project_structure : ref;
  self_status : string;
  message_boxes : list Dialog;
  memory : Mem
}.

(** A computation on the memory, run inside the window. *)
Definition in_memory {A} (c : Py Mem A) : Py Window A :=
  λ win, match c (memory win) with
         | Some (m', r) =>
             Some (mkWindow (self_project_structure win) (self_status win)
                     (message_boxes win) m', r)
         | None => None
         end.

Definition config_status (text : string) : Py Window unit :=
  λ win, Some (mkWindow (self_project_structure win) text (message_boxes win)
                 (memory win), inr tt).

Definition messagebox (dlg : Dialog) : Py Window unit :=
  λ win, Some (mkWindow (self_project_structure win) (self_status win)
                 (message_boxes win ++ [dlg]) (memory win), inr tt).

Module InMemory.

(** [_create] on the object it is given.  The loop goes through the
    items the dictionary has when the loop starts. *)
Fixpoint _create (depth : nat) (base : Path) (content : ref) : Py Mem unit :=
  match depth with
  | O => too_deep
  | S depth =>
      (let* o := deref content in
       match o with
       | ODict items =>
           (fix loop (items : list (string * ref)) : Py Mem unit :=
              match items with
              | [] => py_ret tt
              | (name, subcontent) :: rest =>
                  let path := (base / name)%path in
                  (let* sub := deref subcontent in
                   match sub with
                   | ODict _ | ONone =>
                       on_disk (Path_mkdir path) >>
                       on_disk (print ("Created directory: " ++ Path_str path)) >>
                       _create depth path subcontent
                   | _ =>
                       (let* f := on_disk (open_w path) in
                        let* text := str_of depth subcontent in
                        on_disk (f_write f text)) >>
                       on_disk (print ("Created file: " ++ Path_str path))
                   end) >>
                  loop rest
              end) items
       | ONone => py_ret tt
       | OStr s =>
           let path := (base / s)%path in
           on_disk (Path_touch path) >>
           on_disk (print ("Created file: " ++ Path_str path))
       | OBool _ | OInt _ | OList _ => py_raise TypeError
       end)%mem
  end.

Definition create_structure (depth : nat) (base_dir : string) (structure : ref)
  : Py Mem unit :=
  let base_path := Path_of base_dir in
  (_create depth base_path structure >>
   on_disk (print (nl ++ "Project structure created successfully at "
                   ++ Path_str base_path)))%mem.

(** [generate_project], given what [askdirectory] returned. *)
Definition generate_project (depth : nat) (target_dir : string) : Py Window unit :=
  if String.eqb target_dir "" then py_ret tt
  else
    py_try
      (let* structure := (λ win, Some (win, inr (self_project_structure win))) in
       in_memory (create_structure depth target_dir structure) >>
       messagebox (ShowInfo "Success" ("Project generated at:" ++ nl ++ target_dir)) >>
       config_status ("Project created at: " ++ target_dir))%mem
      (λ e, messagebox (ShowError "Error" ("Failed to create project:" ++ nl) e)).

End InMemory.

(** The example of the specification in memory, and next to it a
    structure whose two keys hold one and the same dictionary. *)
Definition example_heap : Heap :=
  [ ODict [("a", 1%nat)];
    ODict [("b.txt", 2%nat); ("c", 3%nat)];
    OStr "hi";
    ODict [];
    ODict [("left", 1%nat); ("right", 1%nat)] ].

(** A change in place puts another object at a reference, as
    [d[k] = v], [del d[k]] or [d.clear()] do to a dictionary.  Nothing in
    [_create] calls it; it says what leaving the structure alone rules
    out. *)
Definition store_at (r : ref) (o : Obj) : Py Mem unit :=
  λ m, Some (mkMem (disk m) (<[r := o]> (heap m)), inr tt).

(** [keeps_heap c]: no run of [c] changes an object. *)
Definition keeps_heap {A} (c : Py Mem A) : Prop :=
  ∀ m m1 r, c m = Some (m1, r) → heap m1 = heap m.

(* ===================================================================== *)
(** * Running computations *)
(* ===================================================================== *)

Lemma bind_ok {A B} (m : M A) (k : A → M B) w w1 a :
  m w = (w1, inr a) → bind m k w = k a w1.
Proof. unfold bind. by intros ->. Qed.

Lemma bind_err {A B} (m : M A) (k : A → M B) w w1 e :
  m w = (w1, inl e) → bind m k w = (w1, inl e).
Proof. unfold bind. by intros ->. Qed.

Lemma bind_inv_ok {A B} (m : M A) (k : A → M B) w w2 b :
  bind m k w = (w2, inr b) → ∃ w1 a, m w = (w1, inr a) ∧ k a w1 = (w2, inr b).
Proof.
  unfold bind. destruct (m w) as [w1 [e|a]]; [done|]. intros H. by exists w1, a.
Qed.

Lemma bind_assoc {A B C} (m : M A) (k : A → M B) (h : B → M C) w :
  bind (bind m k) h w = bind m (λ a, bind (k a) h) w.
Proof. unfold bind. by destruct (m w) as [w1 [e|a]]. Qed.

(** The loop of [_create], one item at a time. *)
Lemma _create_nil base w : _create base (VDict []) w = (w, inr tt).
Proof. reflexivity. Qed.

Lemma _create_cons base name subcontent rest :
  _create base (VDict ((name, subcontent) :: rest))
  = (create_item base name subcontent >> _create base (VDict rest)).
Proof. reflexivity. Qed.

Lemma _create_app base xs ys w :
  _create base (VDict (xs ++ ys)) w
  = (_create base (VDict xs) >> _create base (VDict ys)) w.
Proof.
  revert w. induction xs as [|[name sub] xs IH]; intros w.
  - reflexivity.
  - rewrite <- app_comm_cons, !_create_cons, bind_assoc.
    destruct (create_item base name sub w) as [w1 [e|[]]] eqn:E.
    + by rewrite !(bind_err _ _ _ _ _ E).
    + rewrite !(bind_ok _ _ _ _ _ E). apply IH.
Qed.

(** After a prefix of the items went through, the run goes on with the
    item that follows. *)
Lemma _create_middle base pre name subcontent post w0 w :
  _create base (VDict pre) w0 = (w, inr tt) →
  _create base (VDict (pre ++ (name, subcontent) :: post)) w0
  = (create_item base name subcontent >> _create base (VDict post)) w.
Proof.
  intros Hpre. rewrite _create_app. rewrite (bind_ok _ _ _ _ _ Hpre).
  by rewrite _create_cons.
Qed.

(* ===================================================================== *)
(** * Worlds that grow *)
(* ===================================================================== *)

Lemma same_kind_refl e : same_kind e e.
Proof. by destruct e. Qed.

Lemma same_kind_trans e1 e2 e3 : same_kind e1 e2 → same_kind e2 e3 → same_kind e1 e3.
Proof. by destruct e1, e2, e3. Qed.

Lemma same_kind_Dir e : same_kind Dir e → e = Dir.
Proof. by destruct e. Qed.

Lemma extends_refl w : extends w w.
Proof. split; [done|]. intros loc e H. exists e. split; [done|apply same_kind_refl]. Qed.

Lemma extends_trans w1 w2 w3 : extends w1 w2 → extends w2 w3 → extends w1 w3.
Proof.
  intros [Hc1 H1] [Hc2 H2]. split; [congruence|].
  intros loc e He. destruct (H1 _ _ He) as (e' & He' & Hk).
  destruct (H2 _ _ He') as (e'' & He'' & Hk'). exists e''. split; [done|].
  by eapply same_kind_trans.
Qed.

Lemma stat_root w : stat w [] = Some Dir.
Proof. reflexivity. Qed.

Lemma stat_files w loc : loc ≠ [] → stat w loc = files w !! loc.
Proof. by destruct loc. Qed.

Lemma stat_None_files w loc : stat w loc = None → files w !! loc = None ∧ loc ≠ [].
Proof. by destruct loc. Qed.

Lemma extends_stat_Dir w t loc :
  extends w t → stat w loc = Some Dir → stat t loc = Some Dir.
Proof.
  intros [_ H] Hs. destruct loc as [|c loc]; [done|]. simpl in *.
  destruct (H _ _ Hs) as (e' & -> & Hk). by rewrite (same_kind_Dir _ Hk).
Qed.

Lemma extends_stat w t loc e :
  extends w t → stat w loc = Some e → ∃ e', stat t loc = Some e' ∧ same_kind e e'.
Proof.
  intros [_ H] Hs. destruct loc as [|c loc].
  - simpl in *. inversion Hs. by exists Dir.
  - simpl in *. by apply H.
Qed.

Lemma walk_extends w t cur comps loc :
  extends w t → walk w cur comps = inr loc → walk t cur comps = inr loc.
Proof.
  intros Hext. revert cur. induction comps as [|c comps IH]; intros cur; simpl; [done|].
  destruct (stat w cur) as [[|?]|] eqn:Hs; [|done..].
  rewrite (extends_stat_Dir _ _ _ Hext Hs). apply IH.
Qed.

Lemma locate_extends w t p loc :
  extends w t → locate w p = inr loc → locate t p = inr loc.
Proof.
  intros Hext. unfold locate. destruct (has_nul p); [done|].
  destruct Hext as [Hc Hf]. rewrite Hc. apply walk_extends. by split.
Qed.

Lemma extends_with_entry w ev :
  stat w (event_loc ev) = None → extends w (with_entry w ev).
Proof.
  intros Hs. apply stat_None_files in Hs as [Hs _]. split; [done|].
  intros loc e He. exists e. split; [|apply same_kind_refl]. simpl.
  rewrite lookup_insert_ne; [done|]. intros Heq. rewrite Heq in Hs. congruence.
Qed.

Lemma extends_with_content w loc old text :
  files w !! loc = Some (File old) → extends w (with_content w loc text).
Proof.
  intros Hs. split; [done|]. intros l e He. simpl.
  destruct (decide (loc = l)) as [->|Hne].
  - rewrite lookup_insert_eq. exists (File text). split; [done|].
    rewrite Hs in He. by inversion He.
  - rewrite lookup_insert_ne; [|done]. exists e. split; [done|apply same_kind_refl].
Qed.

Lemma extends_with_line w line : extends w (with_line w line).
Proof. split; [done|]. intros loc e He. exists e. split; [done|apply same_kind_refl]. Qed.

(** [os.mkdir], case by case. *)
Lemma os_mkdir_run p w :
  os_mkdir p w =
  match locate w p with
  | inl e => (w, inl e)
  | inr loc =>
      match stat w loc with
      | Some _ => (w, inl FileExistsError)
      | None => (with_entry w (Mkdir loc), inr tt)
      end
  end.
Proof.
  unfold os_mkdir, bind, resolve, lookup_entry.
  destruct (locate w p) as [e|loc]; [done|]. by destruct (stat w loc).
Qed.

Lemma Path_is_dir_run p w :
  Path_is_dir p w = (w, inr match locate w p with
                            | inr loc => match stat w loc with Some Dir => true | _ => false end
                            | inl _ => false
                            end).
Proof. reflexivity. Qed.

Lemma is_dir_extends w t p : extends w t → is_dir w p → is_dir t p.
Proof.
  intros Hext (loc & Hl & Hs). exists loc. split.
  - by eapply locate_extends.
  - by eapply extends_stat_Dir.
Qed.

Lemma Path_is_dir_true p w : is_dir w p → Path_is_dir p w = (w, inr true).
Proof. intros (loc & Hl & Hs). by rewrite Path_is_dir_run, Hl, Hs. Qed.

Lemma Path_is_dir_true_inv p w : Path_is_dir p w = (w, inr true) → is_dir w p.
Proof.
  rewrite Path_is_dir_run. destruct (locate w p) as [e|loc] eqn:Hl; [done|].
  destruct (stat w loc) as [[|?]|] eqn:Hs; try done. intros _. by exists loc.
Qed.

(* ===================================================================== *)
(** * Leaves that become files *)
(* ===================================================================== *)

Lemma open_write_run p text w :
  (let* f := open_w p in f_write f text) w =
  match locate w p with
  | inl e => (w, inl e)
  | inr loc =>
      match stat w loc with
      | Some Dir => (w, inl IsADirectoryError)
      | _ => (written w loc text, inr tt)
      end
  end.
Proof.
  unfold open_w, f_write, bind, resolve, lookup_entry.
  destruct (locate w p) as [e|loc]; [done|].
  destruct (stat w loc) as [[|old]|] eqn:Hs; [done| |].
  - assert (loc ≠ []) as Hne by (intros ->; done).
    unfold set_content, with_content, ret, written; simpl.
    rewrite (stat_files _ _ Hne). simpl. rewrite lookup_insert_eq. simpl.
    rewrite insert_insert_eq, Hs, app_nil_r. reflexivity.
  - assert (loc ≠ []) as Hne by (intros ->; done).
    unfold create_entry, set_content, with_entry, with_content, ret, written; simpl.
    rewrite (stat_files _ _ Hne). simpl. rewrite lookup_insert_eq. simpl.
    rewrite insert_insert_eq, Hs. reflexivity.
Qed.

(** One item whose value is neither a dictionary nor [None]. *)
Lemma leaf_item_run base name child w loc :
  is_dict child = false → is_none child = false →
  locate w (base / name)%path = inr loc →
  stat w loc ≠ Some Dir →
  create_item base name child w
  = (with_line (written w loc (py_str child))
       ("Created file: " ++ Path_str (base / name)%path), inr tt).
Proof.
  intros Hd Hn Hl Hs.
  assert (create_item base name child
          = ((let* f := open_w (base / name)%path in f_write f (py_str child)) >>
             print ("Created file: " ++ Path_str (base / name)%path))) as ->
    by (by destruct child).
  unfold bind at 1. rewrite open_write_run, Hl.
  destruct (stat w loc) as [[|old]|] eqn:Hst; done.
Qed.

(** What stops such an item: the path does not resolve, or a directory is
    in the way. *)
Lemma leaf_item_locate_err base name child w e :
  is_dict child = false → is_none child = false →
  locate w (base / name)%path = inl e →
  create_item base name child w = (w, inl e).
Proof.
  intros Hd Hn Hl.
  assert (create_item base name child
          = ((let* f := open_w (base / name)%path in f_write f (py_str child)) >>
             print ("Created file: " ++ Path_str (base / name)%path))) as ->
    by (by destruct child).
  unfold bind at 1. by rewrite open_write_run, Hl.
Qed.

Lemma leaf_item_is_dir_err base name child w loc :
  is_dict child = false → is_none child = false →
  locate w (base / name)%path = inr loc →
  stat w loc = Some Dir →
  create_item base name child w = (w, inl IsADirectoryError).
Proof.
  intros Hd Hn Hl Hs.
  assert (create_item base name child
          = ((let* f := open_w (base / name)%path in f_write f (py_str child)) >>
             print ("Created file: " ++ Path_str (base / name)%path))) as ->
    by (by destruct child).
  unfold bind at 1. by rewrite open_write_run, Hl, Hs.
Qed.

(** The world after an item that became a file: the text is in place and
    the line is printed. *)
Lemma leaf_item_world base name child w loc :
  let w1 := with_line (written w loc (py_str child))
              ("Created file: " ++ Path_str (base / name)%path) in
  files w1 = <[loc := File (py_str child)]> (files w) ∧
  files w1 !! loc = Some (File (py_str child)) ∧
  (∀ l, l ≠ loc → files w1 !! l = files w !! l) ∧
  journal w1 = (journal w ++ match stat w loc with None => [Creat loc] | Some _ => [] end)%list ∧
  cwd w1 = cwd w.
Proof.
  simpl. split_and!; try done.
  - apply lookup_insert_eq.
  - intros l Hl. by rewrite lookup_insert_ne.
Qed.

(** C2.  An item [(name, child)] whose [child] is a string, anywhere in a
    mapping: once the items before it went through, and [base / name]
    resolves to a location that is not a directory, the text of [child]
    itself, unchanged, is the whole content of the file there afterwards,
    whether the file was there or not (it is noted as created in the
    journal exactly when it was not); no other entry changes, and the
    run goes on with the items after it. *)
Theorem string_leaf_written base pre name s post w0 w loc :
  _create base (VDict pre) w0 = (w, inr tt) →
  locate w (base / name)%path = inr loc →
  stat w loc ≠ Some Dir →
  ∃ w1,
    _create base (VDict (pre ++ (name, VStr s) :: post)) w0
    = _create base (VDict post) w1 ∧
    files w1 = <[loc := File s]> (files w) ∧
    files w1 !! loc = Some (File s) ∧
    (∀ l, l ≠ loc → files w1 !! l = files w !! l) ∧
    journal w1 = (journal w ++ match stat w loc with None => [Creat loc] | Some _ => [] end)%list ∧
    cwd w1 = cwd w.
Proof.
  intros Hpre Hl Hs.
  pose proof (leaf_item_run base name (VStr s) w loc eq_refl eq_refl Hl Hs) as Hrun.
  eexists. split.
  - rewrite (_create_middle _ _ _ _ _ _ _ Hpre). by rewrite (bind_ok _ _ _ _ _ Hrun).
  - apply (leaf_item_world base name (VStr s) w loc).
Qed.

(** C10.  An item [(name, child)] whose [child] is neither a mapping nor
    [None] (a number, a boolean, a list, or a string): under the same
    conditions on the disk, nothing is raised for it, and [str(child)] is
    the whole content of the file at [base / name] afterwards. *)
Theorem other_leaf_written_as_str base pre name child post w0 w loc :
  is_dict child = false →
  is_none child = false →
  _create base (VDict pre) w0 = (w, inr tt) →
  locate w (base / name)%path = inr loc →
  stat w loc ≠ Some Dir →
  ∃ w1,
    create_item base name child w = (w1, inr tt) ∧
    _create base (VDict (pre ++ (name, child) :: post)) w0
    = _create base (VDict post) w1 ∧
    files w1 = <[loc := File (py_str child)]> (files w) ∧
    files w1 !! loc = Some (File (py_str child)) ∧
    (∀ l, l ≠ loc → files w1 !! l = files w !! l) ∧
    journal w1 = (journal w ++ match stat w loc with None => [Creat loc] | Some _ => [] end)%list ∧
    cwd w1 = cwd w.
Proof.
  intros Hd Hn Hpre Hl Hs.
  pose proof (leaf_item_run base name child w loc Hd Hn Hl Hs) as Hrun.
  eexists. split; [|split].
  - exact Hrun.
  - rewrite (_create_middle _ _ _ _ _ _ _ Hpre). by rewrite (bind_ok _ _ _ _ _ Hrun).
  - apply (leaf_item_world base name child w loc).
Qed.

(* ===================================================================== *)
(** * Making directories *)
(* ===================================================================== *)

Lemma made_snoc w locs l : made w (locs ++ [l]) = with_entry (made w locs) (Mkdir l).
Proof. unfold made. by rewrite foldl_app. Qed.

Lemma made_cwd w locs : cwd (made w locs) = cwd w.
Proof. induction locs as [|l locs IH] using rev_ind; [done|]. by rewrite made_snoc. Qed.

Lemma made_stdout w locs : stdout (made w locs) = stdout w.
Proof. induction locs as [|l locs IH] using rev_ind; [done|]. by rewrite made_snoc. Qed.

Lemma made_journal w locs : journal (made w locs) = (journal w ++ map Mkdir locs)%list.
Proof.
  induction locs as [|l locs IH] using rev_ind.
  - simpl. by rewrite app_nil_r.
  - rewrite made_snoc. simpl. rewrite IH, map_app. simpl. by rewrite app_assoc.
Qed.

Lemma made_lookup w locs l :
  files (made w locs) !! l = if decide (l ∈ locs) then Some Dir else files w !! l.
Proof.
  induction locs as [|l' locs IH] using rev_ind.
  - destruct (decide (l ∈ [])) as [H|H]; [by apply elem_of_nil in H|done].
  - rewrite made_snoc. unfold with_entry at 1. cbn [files event_loc event_entry].
    destruct (decide (l' = l)) as [->|Hne].
    + rewrite lookup_insert_eq.
      destruct (decide (l ∈ (locs ++ [l])%list)) as [H|H]; [done|].
      exfalso. apply H. apply elem_of_app. right. by apply list_elem_of_singleton.
    + rewrite lookup_insert_ne, IH; [|done].
      destruct (decide (l ∈ locs)) as [H|H];
        destruct (decide (l ∈ (locs ++ [l'])%list)) as [H'|H']; try done; exfalso.
      * apply H'. apply elem_of_app. by left.
      * apply elem_of_app in H' as [H'|H']; [done|].
        apply list_elem_of_singleton in H'. congruence.
Qed.

Lemma made_extends w locs :
  Forall (λ l, stat w l = None) locs → extends w (made w locs).
Proof.
  intros Hfresh. split; [apply made_cwd|]. intros l e He.
  rewrite made_lookup. case_decide as Hin.
  - rewrite Forall_forall in Hfresh. apply Hfresh in Hin.
    apply stat_None_files in Hin as [Hin _]. congruence.
  - exists e. split; [done|apply same_kind_refl].
Qed.

Lemma made_only_dirs w locs l :
  Forall (λ l, stat w l = None) locs →
  files (made w locs) !! l = files w !! l
  ∨ (files w !! l = None ∧ files (made w locs) !! l = Some Dir).
Proof.
  intros Hfresh. rewrite made_lookup. case_decide as Hin; [|by left].
  right. rewrite Forall_forall in Hfresh. apply Hfresh in Hin.
  by apply stat_None_files in Hin as [Hin _].
Qed.

Lemma is_dir_with_entry w p loc :
  locate w p = inr loc → stat w loc = None → is_dir (with_entry w (Mkdir loc)) p.
Proof.
  intros Hl Hs. exists loc. split.
  - eapply locate_extends; [|done]. by apply (extends_with_entry w (Mkdir loc)).
  - apply stat_None_files in Hs as [_ Hne]. rewrite (stat_files _ _ Hne). simpl.
    apply lookup_insert_eq.
Qed.

(** [mkdir(exist_ok=True)] succeeds in two ways: the directory is made, or
    it is there. *)
Lemma mkdir_exist_ok_inv p w w1 :
  mkdir_exist_ok p w = (w1, inr tt) →
  (∃ loc, locate w p = inr loc ∧ stat w loc = None ∧ w1 = with_entry w (Mkdir loc))
  ∨ (w1 = w ∧ is_dir w p).
Proof.
  unfold mkdir_exist_ok, try_except. rewrite os_mkdir_run.
  destruct (locate w p) as [e|loc] eqn:Hl.
  - destruct e; simpl; unfold bind, raise; rewrite ?Path_is_dir_run, ?Hl; done.
  - destruct (stat w loc) as [en|] eqn:Hs.
    + simpl. unfold bind. rewrite Path_is_dir_run, Hl, Hs.
      destruct en; [|done]. intros [= <-]. right. split; [done|]. by exists loc.
    + intros [= <-]. left. by exists loc.
Qed.

Lemma mkdir_parents_there a rparts w :
  is_dir w (mkPath a (rev rparts)) → mkdir_parents a rparts w = (w, inr tt).
Proof.
  intros Hd. pose proof Hd as (loc & Hl & Hs).
  destruct rparts; simpl in *; unfold try_except; rewrite os_mkdir_run, Hl, Hs; simpl;
    unfold bind; by rewrite (Path_is_dir_true _ _ Hd).
Qed.

(** [mkdir(parents=True, exist_ok=True)], when it succeeds: the path is a
    directory afterwards, and all that happened is that directories were
    made where there was nothing. *)
Lemma mkdir_parents_inv a rparts w w1 :
  mkdir_parents a rparts w = (w1, inr tt) →
  is_dir w1 (mkPath a (rev rparts)) ∧
  ∃ locs, w1 = made w locs ∧ Forall (λ l, stat w l = None) locs.
Proof.
  revert w w1. induction rparts as [|c rparent IH]; intros w w1.
  - simpl. unfold try_except. rewrite os_mkdir_run.
    destruct (locate w (mkPath a [])) as [e|loc] eqn:Hl.
    + destruct e; simpl; unfold bind, raise; rewrite ?Path_is_dir_run, ?Hl; done.
    + destruct (stat w loc) as [en|] eqn:Hs.
      * simpl. unfold bind. rewrite Path_is_dir_run, Hl, Hs.
        destruct en; [|done]. intros [= <-]. split; [by exists loc|].
        by exists [].
      * intros [= <-]. split; [by apply is_dir_with_entry|].
        exists [loc]. split; [done|]. by constructor.
  - simpl. unfold try_except. rewrite os_mkdir_run.
    set (self := mkPath a (rev rparent ++ [c])).
    destruct (locate w self) as [e|loc] eqn:Hl.
    + destruct e; simpl;
        try (unfold bind, raise; rewrite ?Path_is_dir_run, ?Hl; done).
      intros Hrun. apply bind_inv_ok in Hrun as (w' & [] & Hpar & Hself).
      apply IH in Hpar as (Hpd & locs & -> & Hfresh).
      apply mkdir_exist_ok_inv in Hself as [(loc & Hl' & Hs' & ->)|[-> Hd]].
      * split; [by apply is_dir_with_entry|].
        exists (locs ++ [loc])%list. split; [by rewrite made_snoc|].
        apply Forall_app. split; [done|]. constructor; [|done].
        destruct (stat w loc) as [en|] eqn:Hs; [|done].
        destruct (extends_stat _ _ _ _ (made_extends _ _ Hfresh) Hs) as (e' & He' & _).
        congruence.
      * split; [done|]. by exists locs.
    + destruct (stat w loc) as [en|] eqn:Hs.
      * simpl. unfold bind. rewrite Path_is_dir_run, Hl, Hs.
        destruct en; [|done]. intros [= <-]. split; [by exists loc|].
        by exists [].
      * intros [= <-]. split; [by apply is_dir_with_entry|].
        exists [loc]. split; [done|]. by constructor.
Qed.

Lemma Path_mkdir_self p : mkPath (root p) (rev (rev (parts p))) = p.
Proof. rewrite rev_involutive. by destruct p. Qed.

Lemma Path_mkdir_there p w : is_dir w p → Path_mkdir p w = (w, inr tt).
Proof.
  intros Hd. apply mkdir_parents_there. by rewrite Path_mkdir_self.
Qed.

Lemma Path_mkdir_inv p w w1 :
  Path_mkdir p w = (w1, inr tt) →
  is_dir w1 p ∧ ∃ locs, w1 = made w locs ∧ Forall (λ l, stat w l = None) locs.
Proof.
  intros H. apply mkdir_parents_inv in H. by rewrite Path_mkdir_self in H.
Qed.

(** The common case: the containing directory is there and the name is
    free. *)
Lemma Path_mkdir_fresh p w loc :
  locate w p = inr loc → stat w loc = None →
  Path_mkdir p w = (with_entry w (Mkdir loc), inr tt).
Proof.
  intros Hl Hs. unfold Path_mkdir.
  assert (∀ rp, mkPath (root p) (rev rp) = p →
                mkdir_parents (root p) rp w = (with_entry w (Mkdir loc), inr tt)) as H.
  { intros rp Hp. destruct rp; simpl in *; unfold try_except;
      rewrite os_mkdir_run, Hp, Hl, Hs; done. }
  apply H, Path_mkdir_self.
Qed.

(** A file in the way is never taken for the directory. *)
Lemma Path_mkdir_file p w loc text :
  locate w p = inr loc → stat w loc = Some (File text) →
  Path_mkdir p w = (w, inl FileExistsError).
Proof.
  intros Hl Hs. unfold Path_mkdir.
  assert (∀ rp, mkPath (root p) (rev rp) = p →
                mkdir_parents (root p) rp w = (w, inl FileExistsError)) as H.
  { intros rp Hp. destruct rp; simpl in *; unfold try_except;
      rewrite os_mkdir_run, Hp, Hl, Hs; simpl; unfold bind;
      rewrite Path_is_dir_run, Hl, Hs; done. }
  apply H, Path_mkdir_self.
Qed.

Lemma tree_nothing_below w loc l :
  tree w → stat w loc = None → below loc l → files w !! l = None.
Proof.
  intros Ht Hs (suffix & Hne & ->).
  induction suffix as [|c suffix IH] using rev_ind; [done|].
  destruct (files w !! (loc ++ suffix ++ [c])%list) as [e|] eqn:He; [|done].
  apply Ht in He. rewrite app_assoc, removelast_last in He.
  destruct suffix as [|c' suffix'].
  - rewrite app_nil_r in He. congruence.
  - rewrite stat_files in He by (by destruct loc). rewrite IH in He; done.
Qed.

Lemma dir_item_unfold base name child :
  is_dict child || is_none child = true →
  create_item base name child
  = (Path_mkdir (base / name)%path >>
     print ("Created directory: " ++ Path_str (base / name)%path) >>
     _create (base / name)%path child).
Proof. by destruct child. Qed.

(** C3.  An item [(name, child)] whose [child] is a mapping or [None],
    anywhere in a mapping, once the items before it went through:
    - a directory already at [base / name] is accepted, and nothing
      changes;
    - when making the directory succeeds, [base / name] is a directory,
      directories are all that was added, and the run goes on inside
      it: [_create] is called on [child] with [base / name] as the base,
      then on the items that follow;
    - when it fails, the run stops with the exception, and a file at
      [base / name] makes it fail: the item never becomes a file;
    - for a leaf ([None] or the empty mapping) the call on [child] does
      nothing, so that over a tree-shaped disk a directory made for it at
      a free name has nothing inside. *)
Theorem mapping_child_becomes_directory base pre name child post w0 w :
  is_dict child || is_none child = true →
  _create base (VDict pre) w0 = (w, inr tt) →
  (is_dir w (base / name)%path → Path_mkdir (base / name)%path w = (w, inr tt)) ∧
  (∀ w1, Path_mkdir (base / name)%path w = (w1, inr tt) →
     is_dir w1 (base / name)%path ∧
     (∀ l, files w1 !! l = files w !! l
           ∨ (files w !! l = None ∧ files w1 !! l = Some Dir)) ∧
     _create base (VDict (pre ++ (name, child) :: post)) w0
     = (_create (base / name)%path child >> _create base (VDict post))
         (with_line w1 ("Created directory: " ++ Path_str (base / name)%path))) ∧
  (∀ w1 e, Path_mkdir (base / name)%path w = (w1, inl e) →
     _create base (VDict (pre ++ (name, child) :: post)) w0 = (w1, inl e)) ∧
  (∀ loc text, locate w (base / name)%path = inr loc → stat w loc = Some (File text) →
     Path_mkdir (base / name)%path w = (w, inl FileExistsError)) ∧
  (child = VNone ∨ child = VDict [] →
     (∀ w2, _create (base / name)%path child w2 = (w2, inr tt)) ∧
     (∀ loc, tree w → locate w (base / name)%path = inr loc → stat w loc = None →
        Path_mkdir (base / name)%path w = (with_entry w (Mkdir loc), inr tt) ∧
        files (with_entry w (Mkdir loc)) !! loc = Some Dir ∧
        ∀ l, below loc l → files (with_entry w (Mkdir loc)) !! l = None)).
Proof.
  intros Hkind Hpre. split_and!.
  - apply Path_mkdir_there.
  - intros w1 Hmk. pose proof (Path_mkdir_inv _ _ _ Hmk) as (Hd & locs & -> & Hfresh).
    split_and!; [done|by intros l; apply made_only_dirs|].
    rewrite (_create_middle _ _ _ _ _ _ _ Hpre), (dir_item_unfold _ _ _ Hkind).
    rewrite !bind_assoc. by rewrite (bind_ok _ _ _ _ _ Hmk).
  - intros w1 e Hmk.
    rewrite (_create_middle _ _ _ _ _ _ _ Hpre), (dir_item_unfold _ _ _ Hkind).
    rewrite !bind_assoc. by rewrite (bind_err _ _ _ _ _ Hmk).
  - intros loc text. apply Path_mkdir_file.
  - intros Hleaf. split; [by destruct Hleaf as [-> | ->]|].
    intros loc Ht Hl Hs. split_and!.
    + by apply Path_mkdir_fresh.
    + simpl. apply lookup_insert_eq.
    + intros l Hb. simpl. rewrite lookup_insert_ne.
      * by eapply tree_nothing_below.
      * destruct Hb as (suffix & Hne & ->). intros Heq.
        apply Hne. apply (app_inv_head loc). by rewrite app_nil_r.
Qed.

(* ===================================================================== *)
(** * A bare value at the root *)
(* ===================================================================== *)

Lemma Path_touch_run p w :
  Path_touch p w =
  match locate w p with
  | inl e => (w, inl e)
  | inr loc =>
      match stat w loc with
      | Some _ => (w, inr tt)
      | None => (with_entry w (Creat loc), inr tt)
      end
  end.
Proof.
  unfold Path_touch, try_except, os_utime, os_open_creat, bind, resolve, lookup_entry.
  destruct (locate w p) as [e|loc] eqn:Hl.
  - unfold raise. destruct (is_OSError e); [by rewrite Hl|done].
  - destruct (stat w loc) as [en|] eqn:Hs; [done|]. simpl. by rewrite Hl, Hs.
Qed.

(** C8, as the code has it.  A string at the root is a file name: when
    [base / s] resolves, an empty file is created there if nothing is
    there, an entry that is there is left as it is, and nothing else
    changes on disk; when it does not resolve the exception is raised.
    Any other value that is neither a mapping nor [None] raises
    [TypeError] and leaves the world as it was. *)
Theorem root_bare_value base w :
  (∀ s loc, locate w (base / s)%path = inr loc →
     _create base (VStr s) w
     = (with_line (match stat w loc with
                   | Some _ => w
                   | None => with_entry w (Creat loc)
                   end)
          ("Created file: " ++ Path_str (base / s)%path), inr tt)) ∧
  (∀ s e, locate w (base / s)%path = inl e → _create base (VStr s) w = (w, inl e)) ∧
  (∀ content, is_dict content = false → is_none content = false →
     (∀ s, content ≠ VStr s) → _create base content w = (w, inl TypeError)).
Proof.
  split_and!.
  - intros s loc Hl. simpl. unfold bind. rewrite Path_touch_run, Hl.
    by destruct (stat w loc).
  - intros s e Hl. simpl. unfold bind. by rewrite Path_touch_run, Hl.
  - intros content Hd Hn Hs. destruct content; try done. by destruct (Hs s).
Qed.

(** C8 fails as stated: the number 5 at the root is not taken for a file
    name; [TypeError] is raised and no file is created. *)
Lemma root_number_raises :
  _create (Path_of "/tmp/x") (VInt 5) tmp_x = (tmp_x, inl TypeError)
  ∧ _create (Path_of "/tmp/x") (VList [VStr "f"]) tmp_x = (tmp_x, inl TypeError)
  ∧ create_structure "/tmp/x" (VBool true) tmp_x = (tmp_x, inl TypeError).
Proof. by split_and!. Qed.

(* ===================================================================== *)
(** * Running twice *)
(* ===================================================================== *)

Lemma same_kind_sym e e' : same_kind e e' → same_kind e' e.
Proof. by destruct e, e'. Qed.

Lemma replays_ret {A} (a : A) : replays (ret a).
Proof.
  intros w w1 a' [= <- <-]. split; [apply extends_refl|].
  exists ∅. split; [by rewrite (left_id_L ∅ (∪))|].
  intros t _. exists t. by rewrite (left_id_L ∅ (∪)).
Qed.

Lemma replays_print line : replays (print line).
Proof.
  intros w w1 [] [= <-]. split; [apply extends_with_line|].
  exists ∅. split; [by rewrite (left_id_L ∅ (∪))|].
  intros t _. exists (with_line t line). by rewrite (left_id_L ∅ (∪)).
Qed.

Lemma replays_bind {A B} (m : M A) (k : A → M B) :
  replays m → (∀ a, replays (k a)) → replays (bind m k).
Proof.
  intros Hm Hk w w2 b Hrun.
  apply bind_inv_ok in Hrun as (w1 & a & Hrun1 & Hrun2).
  destruct (Hm _ _ _ Hrun1) as (Hext1 & W1 & HW1 & Hre1).
  destruct (Hk a _ _ _ Hrun2) as (Hext2 & W2 & HW2 & Hre2).
  split; [by eapply extends_trans|].
  exists (W2 ∪ W1). split; [by rewrite HW2, HW1, (assoc_L (∪))|].
  intros t Hext.
  destruct (Hre1 t (extends_trans _ _ _ Hext2 Hext)) as (t1 & Ht1 & Hf1 & Hc1 & Hj1).
  assert (extends w2 t1) as Hext'.
  { destruct Hext as [Hc Hf]. split; [congruence|]. intros loc e He.
    rewrite Hf1, lookup_union. destruct (W1 !! loc) as [e1|] eqn:HW.
    - exists e1. split; [by destruct (files t !! loc)|].
      assert (files w1 !! loc = Some e1) as He1.
      { rewrite HW1, lookup_union, HW. by destruct (files w !! loc). }
      destruct Hext2 as [_ Hf2]. destruct (Hf2 _ _ He1) as (e2 & He2 & Hk2).
      rewrite He in He2. inversion He2; subst. by apply same_kind_sym.
    - rewrite (left_id_L None (∪)). by apply Hf. }
  destruct (Hre2 t1 Hext') as (t2 & Ht2 & Hf2 & Hc2 & Hj2).
  exists t2. rewrite (bind_ok _ _ _ _ _ Ht1). split_and!; [done| |congruence..].
  by rewrite Hf2, Hf1, (assoc_L (∪)).
Qed.

Lemma replays_Path_mkdir p : replays (Path_mkdir p).
Proof.
  intros w w1 [] Hrun.
  apply Path_mkdir_inv in Hrun as (Hd & locs & -> & Hfresh).
  split; [by apply made_extends|].
  exists (gset_to_gmap Dir (list_to_set locs)). split.
  - apply map_eq. intros l. rewrite made_lookup, lookup_union, lookup_gset_to_gmap.
    destruct (decide (l ∈ locs)) as [Hin|Hin].
    + rewrite option_guard_True by (by apply elem_of_list_to_set).
      simpl. by destruct (files w !! l).
    + rewrite option_guard_False by (by rewrite elem_of_list_to_set).
      simpl. by rewrite (left_id_L None (∪)).
  - intros t Hext. exists t. split_and!; try done.
    + apply Path_mkdir_there. by eapply is_dir_extends.
    + apply map_eq. intros l. rewrite lookup_union, lookup_gset_to_gmap.
      destruct (decide (l ∈ locs)) as [Hin|Hin].
      * rewrite option_guard_True by (by apply elem_of_list_to_set). simpl.
        assert (files (made w locs) !! l = Some Dir) as Hl.
        { rewrite made_lookup. by destruct (decide (l ∈ locs)). }
        destruct Hext as [_ Hf]. destruct (Hf _ _ Hl) as (e' & -> & Hk).
        by rewrite (same_kind_Dir _ Hk).
      * rewrite option_guard_False by (by rewrite elem_of_list_to_set).
        simpl. by rewrite (left_id_L None (∪)).
Qed.

Lemma extends_written w loc text :
  stat w loc ≠ Some Dir → extends w (written w loc text).
Proof.
  intros Hs. split; [done|]. intros l e He. simpl.
  destruct (decide (loc = l)) as [->|Hne].
  - rewrite lookup_insert_eq. exists (File text). split; [done|].
    destruct l; [|simpl in Hs]; destruct e; try done.
  - rewrite lookup_insert_ne by done. exists e. split; [done|apply same_kind_refl].
Qed.

Lemma replays_open_write p text :
  replays (let* f := open_w p in f_write f text).
Proof.
  intros w w1 [] Hrun. rewrite open_write_run in Hrun.
  destruct (locate w p) as [e|loc] eqn:Hl; [done|].
  assert (stat w loc ≠ Some Dir ∧ w1 = written w loc text) as [Hs ->].
  { destruct (stat w loc) as [[|old]|]; by inversion Hrun. }
  pose proof (extends_written w loc text Hs) as Hext0.
  split; [done|].
  exists {[ loc := File text ]}. split; [by rewrite <- insert_union_singleton_l|].
  intros t Hext. exists (with_content t loc text).
  assert (loc ≠ []) as Hne by (intros ->; done).
  assert (∃ old, stat t loc = Some (File old)) as [old Hst].
  { assert (files (written w loc text) !! loc = Some (File text)) as Hw
      by apply lookup_insert_eq.
    destruct Hext as [_ Hf]. destruct (Hf _ _ Hw) as (e' & He' & Hk).
    rewrite (stat_files _ _ Hne), He'. destruct e'; [done|by eexists]. }
  rewrite open_write_run.
  rewrite (locate_extends _ _ _ _ (extends_trans _ _ _ Hext0 Hext) Hl), Hst.
  split_and!.
  - unfold written, with_content. by rewrite Hst, app_nil_r.
  - simpl. by rewrite <- insert_union_singleton_l.
  - done.
  - done.
Qed.

(** Every call of [_create] on a mapping or on [None] can be replayed. *)
Lemma replays_create content :
  ∀ base, is_dict content || is_none content = true → replays (_create base content).
Proof.
  induction content as [| | | | |items IH] using Value_nested_ind;
    intros base Hkind; try done.
  - apply (replays_ret tt).
  - clear Hkind. induction items as [|[name child] rest IHrest].
    + apply (replays_ret tt).
    + rewrite _create_cons. apply Forall_cons in IH as [IHchild IHitems].
      apply replays_bind; [|intros _; by apply IHrest].
      destruct (is_dict child || is_none child) eqn:Hkind.
      * rewrite (dir_item_unfold _ _ _ Hkind).
        apply replays_bind; [apply replays_Path_mkdir|intros _].
        apply replays_bind; [apply replays_print|intros _].
        by apply IHchild.
      * assert (create_item base name child
                = ((let* f := open_w (base / name)%path in f_write f (py_str child)) >>
                   print ("Created file: " ++ Path_str (base / name)%path))) as ->
          by (by destruct child).
        apply replays_bind; [apply replays_open_write|intros _; apply replays_print].
Qed.

(** The world a replayable computation reaches is a fixed point of it. *)
Lemma replays_twice {A} (m : M A) w w1 a :
  replays m → m w = (w1, inr a) →
  ∃ w2, m w1 = (w2, inr a) ∧ files w2 = files w1 ∧ cwd w2 = cwd w1
        ∧ journal w2 = journal w1.
Proof.
  intros Hm Hrun. destruct (Hm _ _ _ Hrun) as (_ & W & HW & Hre).
  destruct (Hre w1 (extends_refl w1)) as (w2 & Hrun2 & Hf & Hc & Hj).
  exists w2. split_and!; try done.
  rewrite Hf, HW, (assoc_L (∪)). f_equal.
  apply map_eq. intros l. rewrite lookup_union. by destruct (W !! l).
Qed.

Lemma root_string_twice base s line w w1 :
  (_create base (VStr s) >> print line) w = (w1, inr tt) →
  ∃ w2, (_create base (VStr s) >> print line) w1 = (w2, inr tt)
        ∧ files w2 = files w1 ∧ cwd w2 = cwd w1 ∧ journal w2 = journal w1.
Proof.
  simpl. unfold bind. rewrite Path_touch_run.
  destruct (locate w (base / s)%path) as [e|loc] eqn:Hl; [done|].
  set (line1 := "Created file: " ++ Path_str (base / s)%path).
  intros Hrun.
  assert (∃ w', extends w w' ∧ is_Some (stat w' loc)
                ∧ w1 = with_line (with_line w' line1) line)
    as (w' & Hext & [en Hs] & ->).
  { destruct (stat w loc) as [en|] eqn:Hs; inversion Hrun.
    - exists w. split_and!; [apply extends_refl|by rewrite Hs|done].
    - exists (with_entry w (Creat loc)). split_and!; [|exists (File "")|done].
      + by apply (extends_with_entry w (Creat loc)).
      + apply stat_None_files in Hs as [_ Hne]. rewrite (stat_files _ _ Hne).
        apply lookup_insert_eq. }
  set (w1 := with_line (with_line w' line1) line).
  assert (extends w w1) as Hext1.
  { eapply extends_trans; [done|]. eapply extends_trans; apply extends_with_line. }
  exists (with_line (with_line w1 line1) line).
  rewrite Path_touch_run, (locate_extends _ _ _ _ Hext1 Hl).
  assert (stat w1 loc = Some en) as -> by (by destruct loc).
  done.
Qed.

(** C4.  When materializing a structure into a directory succeeds, doing
    it once more from the world so reached succeeds as well (directories
    that are there raise nothing), creates no entry, and leaves every
    file and directory exactly as the first run left it. *)
Theorem materialize_twice base_dir structure w w1 :
  create_structure base_dir structure w = (w1, inr tt) →
  ∃ w2, create_structure base_dir structure w1 = (w2, inr tt)
        ∧ files w2 = files w1 ∧ cwd w2 = cwd w1 ∧ journal w2 = journal w1.
Proof.
  unfold create_structure.
  destruct (is_dict structure || is_none structure) eqn:Hkind.
  - apply replays_twice.
    apply replays_bind; [by apply replays_create|intros _; apply replays_print].
  - destruct structure as [| | |s| |]; try done. apply root_string_twice.
Qed.

(* ===================================================================== *)
(** * What every run keeps *)
(* ===================================================================== *)

Section Keeps.
Variable R : World → World → Prop.
Hypothesis R_refl : ∀ w, R w w.
Hypothesis R_trans : ∀ w1 w2 w3, R w1 w2 → R w2 w3 → R w1 w3.

Lemma keeps_still {A} (m : M A) : (∀ w, (m w).1 = w) → keeps R m.
Proof. intros H w w1 r Hrun. specialize (H w). rewrite Hrun in H. simpl in H. by subst. Qed.

Lemma keeps_ret {A} (a : A) : keeps R (ret a).
Proof. by apply keeps_still. Qed.

Lemma keeps_raise {A} e : keeps R (raise e : M A).
Proof. by apply keeps_still. Qed.

Lemma keeps_bind {A B} (m : M A) (k : A → M B) :
  keeps R m → (∀ a, keeps R (k a)) → keeps R (bind m k).
Proof.
  intros Hm Hk w w2 r. unfold bind. destruct (m w) as [w1 [e|a]] eqn:Hrun.
  - intros [= <- <-]. by eapply Hm.
  - intros Hrun2. eapply R_trans; [by eapply Hm|by eapply Hk].
Qed.

Lemma keeps_try_except {A} (m : M A) (h : Exc → M A) :
  keeps R m → (∀ e, keeps R (h e)) → keeps R (try_except m h).
Proof.
  intros Hm Hh w w2 r. unfold try_except. destruct (m w) as [w1 [e|a]] eqn:Hrun.
  - intros Hrun2. eapply R_trans; [by eapply Hm|by eapply Hh].
  - intros [= <- <-]. by eapply Hm.
Qed.

Hypothesis R_print : ∀ w line, R w (with_line w line).
Hypothesis R_create : ∀ w p loc ev,
  locate w p = inr loc → stat w loc = None → event_loc ev = loc →
  R w (with_entry w ev).
Hypothesis R_content : ∀ w loc old text,
  stat w loc = Some (File old) → R w (with_content w loc text).

Lemma keeps_print line : keeps R (print line).
Proof. intros w w1 r [= <- _]. apply R_print. Qed.

Lemma keeps_os_mkdir p : keeps R (os_mkdir p).
Proof.
  intros w w1 r. rewrite os_mkdir_run.
  destruct (locate w p) as [e|loc] eqn:Hl; [by intros [= <- _]|].
  destruct (stat w loc) eqn:Hs; intros [= <- _]; [done|].
  by apply (R_create w p loc).
Qed.

Lemma keeps_Path_is_dir p : keeps R (Path_is_dir p).
Proof. by apply keeps_still. Qed.

Lemma keeps_mkdir_handler p (e : Exc) :
  keeps R (if is_OSError e
           then let* d := Path_is_dir p in if d then ret tt else raise e
           else raise e).
Proof.
  destruct (is_OSError e); [|apply keeps_raise].
  apply keeps_bind; [apply keeps_Path_is_dir|].
  intros []; [apply keeps_ret|apply keeps_raise].
Qed.

Lemma keeps_mkdir_exist_ok p : keeps R (mkdir_exist_ok p).
Proof.
  apply keeps_try_except; [apply keeps_os_mkdir|].
  intros e. destruct e; try apply (keeps_mkdir_handler p); apply keeps_raise.
Qed.

Lemma keeps_mkdir_parents a rparts : keeps R (mkdir_parents a rparts).
Proof.
  induction rparts as [|c rparent IH]; simpl.
  - apply keeps_try_except; [apply keeps_os_mkdir|].
    intros e. destruct e; try apply (keeps_mkdir_handler (mkPath a [])); apply keeps_raise.
  - apply keeps_try_except; [apply keeps_os_mkdir|].
    intros e.
    destruct e; try apply (keeps_mkdir_handler (mkPath a (rev rparent ++ [c]))).
    apply keeps_bind; [done|intros _; apply keeps_mkdir_exist_ok].
Qed.

Lemma keeps_Path_mkdir p : keeps R (Path_mkdir p).
Proof. apply keeps_mkdir_parents. Qed.

Lemma keeps_open_write p text : keeps R (let* f := open_w p in f_write f text).
Proof.
  intros w w1 r. rewrite open_write_run.
  destruct (locate w p) as [e|loc] eqn:Hl; [by intros [= <- _]|].
  destruct (stat w loc) as [[|old]|] eqn:Hs; intros [= <- _]; [done| |].
  - unfold written. rewrite Hs, app_nil_r. by apply (R_content w loc old).
  - eapply R_trans; [by apply (R_create w p loc (Creat loc))|].
    assert (written w loc text
            = with_content (with_entry w (Creat loc)) loc text) as ->.
    { unfold written, with_content, with_entry. simpl.
      by rewrite Hs, insert_insert_eq. }
    apply (R_content _ loc "").
    apply stat_None_files in Hs as [_ Hne]. rewrite (stat_files _ _ Hne).
    apply lookup_insert_eq.
Qed.

Lemma keeps_Path_touch p : keeps R (Path_touch p).
Proof.
  intros w w1 r. rewrite Path_touch_run.
  destruct (locate w p) as [e|loc] eqn:Hl; [by intros [= <- _]|].
  destruct (stat w loc) eqn:Hs; intros [= <- _]; [done|].
  by apply (R_create w p loc).
Qed.

Lemma keeps_create content : ∀ base, keeps R (_create base content).
Proof.
  induction content as [| | | | |items IH] using Value_nested_ind; intros base;
    try apply keeps_raise.
  - apply keeps_ret.
  - simpl. apply keeps_bind; [apply keeps_Path_touch|intros _; apply keeps_print].
  - induction items as [|[name child] rest IHrest]; [apply keeps_ret|].
    rewrite _create_cons. apply Forall_cons in IH as [IHchild IHitems].
    apply keeps_bind; [|intros _; by apply IHrest].
    destruct (is_dict child || is_none child) eqn:Hkind.
    + rewrite (dir_item_unfold _ _ _ Hkind).
      apply keeps_bind; [apply keeps_Path_mkdir|intros _].
      apply keeps_bind; [apply keeps_print|intros _; apply IHchild].
    + assert (create_item base name child
              = ((let* f := open_w (base / name)%path in f_write f (py_str child)) >>
                 print ("Created file: " ++ Path_str (base / name)%path))) as ->
        by (by destruct child).
      apply keeps_bind; [apply keeps_open_write|intros _; apply keeps_print].
Qed.

Lemma keeps_create_structure base_dir structure :
  keeps R (create_structure base_dir structure).
Proof.
  apply keeps_bind; [apply keeps_create|intros _; apply keeps_print].
Qed.
End Keeps.

(* ===================================================================== *)
(** * Parent before child *)
(* ===================================================================== *)

Lemma tree_parent_dir w cur :
  tree w → stat w cur = Some Dir → stat w (removelast cur) = Some Dir.
Proof.
  intros Ht Hs. destruct cur as [|c cur]; [done|]. by apply (Ht _ Dir).
Qed.

(** A name that resolves to a free location lies in a directory. *)
Lemma walk_free_parent w comps : ∀ cur loc,
  tree w → stat w cur = Some Dir →
  walk w cur comps = inr loc → stat w loc = None →
  stat w (removelast loc) = Some Dir.
Proof.
  induction comps as [|c rest IH]; intros cur loc Ht Hcur; simpl.
  - intros [= <-]. congruence.
  - rewrite Hcur.
    set (next := if String.eqb c ".." then removelast cur else (cur ++ [c])%list).
    destruct rest as [|c' rest'].
    + simpl. intros [= <-] Hfree. subst next.
      destruct (String.eqb c "..").
      * rewrite (tree_parent_dir _ _ Ht Hcur) in Hfree. done.
      * by rewrite removelast_last.
    + intros Hwalk Hfree. destruct (stat w next) as [[|?]|] eqn:Hnext.
      * by apply (IH next).
      * simpl in Hwalk. by rewrite Hnext in Hwalk.
      * simpl in Hwalk. by rewrite Hnext in Hwalk.
Qed.

Lemma locate_free_parent w p loc :
  wf_world w → locate w p = inr loc → stat w loc = None →
  stat w (removelast loc) = Some Dir.
Proof.
  intros [Ht Hcwd]. unfold locate. destruct (has_nul p); [done|].
  apply walk_free_parent; [done|]. by destruct (anchored p).
Qed.

Lemma grows_refl w : grows w w.
Proof.
  intros Hwf. split_and!; [done|apply extends_refl|].
  exists []. split_and!; [by rewrite app_nil_r|by left|by left|].
  intros pre ev post H. by destruct pre.
Qed.

Lemma grows_trans w1 w2 w3 : grows w1 w2 → grows w2 w3 → grows w1 w3.
Proof.
  intros H12 H23 Hwf1.
  destruct (H12 Hwf1) as (Hwf2 & Hext12 & evs1 & Hj1 & Ha1 & Hd1 & Hp1).
  destruct (H23 Hwf2) as (Hwf3 & Hext23 & evs2 & Hj2 & Ha2 & Hd2 & Hp2).
  split_and!; [done|by eapply extends_trans|].
  exists (evs1 ++ evs2)%list. split_and!.
  - by rewrite Hj2, Hj1, app_assoc.
  - intros l Hl. rewrite map_app. destruct (Ha2 l Hl) as [Hl2|Hin].
    + destruct (Ha1 l Hl2) as [Hl1|Hin]; [by left|].
      right. apply elem_of_app. by left.
    + right. apply elem_of_app. by right.
  - intros l Hl. destruct (Hd2 l Hl) as [Hl2|Hin].
    + destruct (Hd1 l Hl2) as [Hl1|Hin]; [by left|].
      right. apply elem_of_app. by left.
    + right. apply elem_of_app. by right.
  - intros pre ev post Heq. symmetry in Heq.
    apply app_eq_app in Heq as [mid [[-> Hmid]|[-> Hpost]]].
    + destruct (Hp2 mid ev post) as [Hdir|Hin]; [done| |].
      * destruct (Hd1 _ Hdir) as [?|Hin]; [by left|].
        right. apply elem_of_app. by left.
      * right. apply elem_of_app. by right.
    + destruct mid as [|ev' mid].
      * simpl in Hpost. rewrite app_nil_r in Hd1.
        destruct (Hp2 [] ev post) as [Hdir|Hin]; [done| |by apply elem_of_nil in Hin].
        destruct (Hd1 _ Hdir) as [?|?]; [by left|by right].
      * simpl in Hpost. injection Hpost as -> ->.
        destruct (Hp1 pre ev' mid eq_refl) as [?|?]; [by left|by right].
Qed.

Lemma grows_print w line : grows w (with_line w line).
Proof.
  intros Hwf. split_and!; [done|apply extends_with_line|].
  exists []. split_and!; [by rewrite app_nil_r|by left|by left|].
  intros pre ev post H. by destruct pre.
Qed.

Lemma grows_create w p loc ev :
  locate w p = inr loc → stat w loc = None → event_loc ev = loc →
  grows w (with_entry w ev).
Proof.
  intros Hl Hfree Hev Hwf. subst loc.
  pose proof (locate_free_parent _ _ _ Hwf Hl Hfree) as Hpar.
  pose proof (extends_with_entry w ev Hfree) as Hext.
  destruct Hwf as [Ht Hcwd]. split_and!.
  - split; [|by apply (extends_stat_Dir w)].
    intros l e. simpl. destruct (decide (event_loc ev = l)) as [<-|Hne].
    + intros _. by apply (extends_stat_Dir w).
    + rewrite lookup_insert_ne by done. intros He.
      apply (extends_stat_Dir w); [done|]. by apply (Ht l e).
  - done.
  - exists [ev]. split_and!; [done| | |].
    + intros l. destruct l as [|c l]; [by left|]. simpl.
      destruct (decide (event_loc ev = c :: l)) as [Heq|Hne].
      * intros _. right. rewrite Heq. by apply list_elem_of_singleton.
      * rewrite lookup_insert_ne by done. by left.
    + intros l. destruct l as [|c l]; [by left|]. simpl.
      destruct (decide (event_loc ev = c :: l)) as [Heq|Hne].
      * rewrite Heq, lookup_insert_eq. intros [= Hdir]. right.
        apply list_elem_of_singleton. destruct ev; [by rewrite <- Heq|done].
      * rewrite lookup_insert_ne by done. by left.
    + intros pre ev' post Heq. destruct pre as [|? pre].
      * injection Heq as <- _. by left.
      * injection Heq as _ Heq. by destruct pre.
Qed.

Lemma grows_content w loc old text :
  stat w loc = Some (File old) → grows w (with_content w loc text).
Proof.
  intros Hs Hwf.
  assert (loc ≠ []) as Hne by (intros ->; done).
  assert (files w !! loc = Some (File old)) as Hf by (by rewrite <- stat_files).
  pose proof (extends_with_content w loc old text Hf) as Hext.
  destruct Hwf as [Ht Hcwd]. split_and!.
  - split; [|by apply (extends_stat_Dir w)].
    intros l e. simpl. intros He. apply (extends_stat_Dir w); [done|].
    destruct (decide (loc = l)) as [<-|Hnel]; [by apply (Ht loc (File old))|].
    rewrite lookup_insert_ne in He by done. by apply (Ht l e).
  - done.
  - exists []. split_and!; [by rewrite app_nil_r| | |].
    + intros l. destruct l as [|c l]; [by left|]. simpl.
      destruct (decide (loc = c :: l)) as [<-|Hnel].
      * left. by rewrite Hf.
      * rewrite lookup_insert_ne by done. by left.
    + intros l. destruct l as [|c l]; [by left|]. simpl.
      destruct (decide (loc = c :: l)) as [<-|Hnel].
      * by rewrite lookup_insert_eq.
      * rewrite lookup_insert_ne by done. by left.
    + intros pre ev post H. by destruct pre.
Qed.

(** C9.  In every run of the materializer from a well-formed world, to
    its end or up to the exception that stops it, the journal of the
    entries created extends the journal it started with; every entry
    that is on disk afterwards and was not before is in it; and for each
    event in it, the directory containing the new entry was a directory
    before the run or was made by an earlier event of the run. *)
Theorem parent_before_child base_dir structure w w1 r :
  wf_world w →
  create_structure base_dir structure w = (w1, r) →
  ∃ evs, journal w1 = (journal w ++ evs)%list ∧
    (∀ l, is_Some (stat w1 l) → is_Some (stat w l) ∨ l ∈ map event_loc evs) ∧
    ∀ pre ev post, evs = (pre ++ ev :: post)%list →
      stat w (removelast (event_loc ev)) = Some Dir
      ∨ Mkdir (removelast (event_loc ev)) ∈ pre.
Proof.
  intros Hwf Hrun.
  destruct (keeps_create_structure grows grows_refl grows_trans grows_print
              grows_create grows_content base_dir structure w w1 r Hrun Hwf)
    as (_ & _ & evs & Hj & Ha & _ & Hp).
  by exists evs.
Qed.

(* ===================================================================== *)
(** * Plain names *)
(* ===================================================================== *)

Lemma split_on_absent sep s : has_char sep s = false → split_on sep s = [s].
Proof.
  unfold has_char. induction s as [|c s IH]; simpl; [done|].
  intros H. apply orb_false_iff in H as [Hc Hs].
  rewrite Ascii.eqb_sym, Hc. by rewrite (IH Hs).
Qed.

Lemma plain_name_inv n :
  plain_name n = true →
  n ≠ "" ∧ n ≠ "." ∧ n ≠ ".." ∧ has_char "/" n = false ∧ has_char NUL n = false.
Proof.
  unfold plain_name. rewrite !andb_true_iff, !negb_true_iff.
  intros ((((H1 & H2) & H3) & H4) & H5).
  apply String.eqb_neq in H1, H2, H3. done.
Qed.

Lemma Path_of_plain n : plain_name n = true → Path_of n = mkPath NoRoot [n].
Proof.
  intros H. apply plain_name_inv in H as (H1 & H2 & _ & H4 & _).
  unfold Path_of. rewrite (split_on_absent _ _ H4). f_equal.
  - destruct n as [|c n]; [done|]. unfold has_char in H4. simpl in H4.
    apply orb_false_iff in H4 as [Hc _].
    destruct (Ascii.eqb_spec "/" c) as [<-|Hne]; [done|].
    destruct c as [[] [] [] [] [] [] [] []]; done.
  - simpl. unfold kept_part.
    apply String.eqb_neq in H1, H2. by rewrite H1, H2.
Qed.

Lemma joinpath_plain p n :
  plain_name n = true → (p / n)%path = mkPath (root p) (parts p ++ [n]).
Proof. intros H. unfold joinpath. by rewrite (Path_of_plain _ H). Qed.

Lemma walk_app w xs ys : ∀ cur,
  walk w cur (xs ++ ys) =
  match walk w cur xs with
  | inr mid => walk w mid ys
  | inl e => inl e
  end.
Proof.
  induction xs as [|c xs IH]; intros cur; simpl; [done|].
  destruct (stat w cur) as [[|?]|]; [apply IH|done..].
Qed.

(** Joining a plain name to a path that denotes a directory denotes the
    name inside that directory. *)
Lemma locate_join_plain w base b n :
  plain_name n = true → locate w base = inr b → stat w b = Some Dir →
  locate w (base / n)%path = inr (b ++ [n])%list.
Proof.
  intros Hp Hl Hs. rewrite (joinpath_plain _ _ Hp).
  apply plain_name_inv in Hp as (_ & _ & H3 & _ & H5).
  unfold locate, has_nul, anchored in *. simpl.
  rewrite existsb_app. simpl. rewrite H5, !orb_false_r.
  destruct (existsb (has_char NUL) (parts base)); [done|].
  rewrite walk_app, Hl. simpl. rewrite Hs.
  apply String.eqb_neq in H3. by rewrite H3.
Qed.

(** Whatever happens, a run keeps what is on disk. *)
Lemma _create_extends base content w w1 r :
  _create base content w = (w1, r) → extends w w1.
Proof.
  apply (keeps_create extends extends_refl extends_trans extends_with_line).
  - intros w' p loc ev _ Hs <-. by apply extends_with_entry.
  - intros w' loc old text Hs. apply (extends_with_content w' loc old).
    rewrite <- stat_files; [done|]. by intros ->.
Qed.

(* ===================================================================== *)
(** * One entry per key *)
(* ===================================================================== *)

Lemma lays_nil w : lays w w [].
Proof. split_and!; [by rewrite app_nil_r| |done]. intros l e H. by apply elem_of_nil in H. Qed.

Lemma lays_line_r w w1 es line : lays w w1 es → lays w (with_line w1 line) es.
Proof. by intros (? & ? & ?). Qed.

Lemma lays_app w w' w1 es1 es2 :
  lays w w' es1 → lays w' w1 es2 →
  (∀ l, l ∈ map fst es1 → l ∉ map fst es2) →
  lays w w1 (es1 ++ es2).
Proof.
  intros (Hj1 & Hin1 & Hfr1) (Hj2 & Hin2 & Hfr2) Hdisj. split_and!.
  - by rewrite Hj2, Hj1, map_app, app_assoc.
  - intros l e H. apply elem_of_app in H as [H|H].
    + rewrite Hfr2; [by apply Hin1|]. apply Hdisj.
      apply list_elem_of_In, in_map_iff. exists (l, e). split; [done|].
      by apply list_elem_of_In.
    + by apply Hin2.
  - intros l H. rewrite map_app in H.
    rewrite Hfr2, Hfr1; [done|..]; intros Hin; apply H, elem_of_app; [by left|by right].
Qed.

Lemma expected_under v : ∀ b l e,
  (l, e) ∈ expected b v → ∃ k s, k ∈ keys_of v ∧ l = (b ++ k :: s)%list.
Proof.
  induction v as [|?|?|?|? _|items IH] using Value_nested_ind; intros bl l e H;
    try (by apply elem_of_nil in H).
  simpl in H. apply list_elem_of_In, in_flat_map in H as ([k child] & Hin & H).
  rewrite Forall_forall in IH. apply list_elem_of_In in Hin.
  exists k. simpl in H. destruct H as [[= <- _]|H].
  - exists []. split; [|done]. simpl.
    apply list_elem_of_In, in_map_iff. exists (k, child). split; [done|].
    by apply list_elem_of_In.
  - apply list_elem_of_In in H.
    destruct (IH _ Hin _ _ _ H) as (k' & s & _ & ->).
    exists (k' :: s). split; [|by rewrite <- app_assoc]. simpl.
    apply list_elem_of_In, in_map_iff. exists (k, child). split; [done|].
    by apply list_elem_of_In.
Qed.

Lemma expected_leaf b child :
  is_dict child || is_none child = false → expected b child = [].
Proof. by destruct child. Qed.

Lemma expected_None b : expected b VNone = [].
Proof. done. Qed.

Lemma item_locs_under b name e child l :
  l ∈ map fst ((b ++ [name], e)%list :: expected (b ++ [name])%list child) →
  ∃ s, l = (b ++ name :: s)%list.
Proof.
  simpl. intros H. apply elem_of_cons in H as [->|H]; [by exists []|].
  apply list_elem_of_In, in_map_iff in H as ([l' e'] & <- & H).
  apply list_elem_of_In, expected_under in H as (k & s & _ & ->).
  exists (k :: s). simpl. by rewrite <- app_assoc.
Qed.

Lemma lays_single w ev :
  stat w (event_loc ev) = None →
  lays w (with_entry w ev) [(event_loc ev, event_entry ev)].
Proof.
  intros Hs. split_and!.
  - simpl. by destruct ev.
  - intros l e H. apply list_elem_of_singleton in H as [= -> ->]. apply lookup_insert_eq.
  - intros l H. simpl. rewrite lookup_insert_ne; [done|]. intros <-. apply H.
    by apply list_elem_of_singleton.
Qed.

Lemma item_lays base name child w b :
  plain_name name = true → valid child = true →
  (is_dict child || is_none child = true → materializes child) →
  locate w base = inr b → stat w b = Some Dir →
  (∀ s, files w !! (b ++ name :: s)%list = None) →
  ∃ w1, create_item base name child w = (w1, inr tt) ∧
        lays w w1 ((b ++ [name], entry_for child)%list
                   :: expected (b ++ [name])%list child).
Proof.
  intros Hp Hv IH Hl Hs Hfree.
  pose proof (locate_join_plain _ _ _ _ Hp Hl Hs) as Hloc.
  set (loc := (b ++ [name])%list) in *.
  assert (loc ≠ []) as Hne by (subst loc; by destruct b).
  assert (stat w loc = None) as Hnone by (rewrite stat_files; [apply (Hfree [])|done]).
  unfold entry_for. destruct (is_dict child || is_none child) eqn:Hkind.
  - rewrite (dir_item_unfold _ _ _ Hkind).
    set (path := (base / name)%path) in *.
    set (line := "Created directory: " ++ Path_str path).
    pose proof (Path_mkdir_fresh path w loc Hloc Hnone) as Hmk.
    pose proof (extends_with_entry w (Mkdir loc) Hnone) as Hext.
    destruct (IH eq_refl path (with_line (with_entry w (Mkdir loc)) line) loc)
      as (w1 & Hrun & Hlays); try done.
    + eapply locate_extends; [|done].
      eapply extends_trans; [done|apply extends_with_line].
    + rewrite stat_files by done. apply lookup_insert_eq.
    + destruct child; try done. intros k s Hk. simpl.
      rewrite lookup_insert_ne.
      * subst loc. rewrite <- app_assoc. apply Hfree.
      * intros Heq. apply (f_equal length) in Heq.
        rewrite length_app in Heq. simpl in Heq. lia.
    + exists w1. split.
      * rewrite (bind_ok _ _ _ _ _ Hmk). exact Hrun.
      * apply (lays_app w (with_line (with_entry w (Mkdir loc)) line) w1 [(loc, Dir)]).
        -- apply lays_line_r. by apply (lays_single w (Mkdir loc)).
        -- done.
        -- intros l Hin Hin'. apply list_elem_of_singleton in Hin as ->.
           apply list_elem_of_In, in_map_iff in Hin' as ([l' e'] & Heq & H).
           simpl in Heq. subst l'.
           apply list_elem_of_In, expected_under in H as (k & s & _ & Heq).
           apply (f_equal length) in Heq. rewrite length_app in Heq. simpl in Heq. lia.
  - apply orb_false_iff in Hkind as [Hd Hn].
    rewrite (expected_leaf _ child) by (by rewrite Hd, Hn).
    eexists. split.
    + apply (leaf_item_run base name child w loc); try done. by rewrite Hnone.
    + apply lays_line_r. unfold written. rewrite Hnone. split_and!.
      * done.
      * intros l e H. apply list_elem_of_singleton in H as [= -> ->]. apply lookup_insert_eq.
      * intros l H. simpl. rewrite lookup_insert_ne; [done|]. intros <-. apply H.
        by apply list_elem_of_singleton.
Qed.

Lemma valid_cons name child rest :
  valid (VDict ((name, child) :: rest)) = true →
  (name ∉ map fst rest) ∧ plain_name name = true ∧ valid child = true
  ∧ valid (VDict rest) = true.
Proof.
  simpl. rewrite !andb_true_iff. intros (Hnd & (Hp & Hv) & Hrest).
  apply bool_decide_eq_true in Hnd. apply NoDup_cons in Hnd as [Hnotin Hnd].
  split_and!; try done. by apply bool_decide_eq_true.
Qed.

(** Every valid mapping materializes. *)
Lemma materializes_all v : materializes v.
Proof.
  induction v as [|?|?|?|? _|items IH] using Value_nested_ind;
    intros base w bl Hv Hkind Hl Hs Hfresh; try done.
  - exists w. split; [done|apply lays_nil].
  - clear Hkind. revert w Hv Hl Hs Hfresh.
    induction items as [|[name child] rest IHrest]; intros w Hv Hl Hs Hfresh.
    + exists w. split; [done|apply lays_nil].
    + apply Forall_cons in IH as [IHchild IHitems].
      apply valid_cons in Hv as (Hnotin & Hp & Hvc & Hvr).
      destruct (item_lays base name child w bl) as (w' & Hitem & Hlays1); try done.
      { intros s. apply Hfresh. simpl. by left. }
      assert (extends w w') as Hext.
      { apply (_create_extends base (VDict [(name, child)]) w w' (inr tt)).
        rewrite _create_cons. by rewrite (bind_ok _ _ _ _ _ Hitem). }
      destruct (IHrest IHitems w') as (w1 & Hrest & Hlays2); try done.
      { by eapply locate_extends. }
      { by eapply extends_stat_Dir. }
      { intros k s Hk. destruct Hlays1 as (_ & _ & Hframe). rewrite Hframe.
        - apply Hfresh. simpl. by right.
        - intros Hin. apply item_locs_under in Hin as (s' & Heq).
          apply app_inv_head in Heq. injection Heq as -> _. done. }
      exists w1. split.
      * rewrite _create_cons. by rewrite (bind_ok _ _ _ _ _ Hitem).
      * apply (lays_app w w' w1 _ _ Hlays1 Hlays2).
        intros l Hin Hin'. apply item_locs_under in Hin as (s & ->).
        apply list_elem_of_In, in_map_iff in Hin' as ([l' e'] & Heq & H).
        simpl in Heq. subst l'.
        apply list_elem_of_In, expected_under in H as (k & s' & Hk & Heq).
        apply app_inv_head in Heq. injection Heq as -> _. done.
Qed.

Lemma expected_locs v : ∀ b, map fst (expected b v) = map (app b) (key_paths v).
Proof.
  induction v as [|?|?|?|? _|items IH] using Value_nested_ind; intros bl; try done.
  induction items as [|[k child] rest IHrest]; [done|].
  apply Forall_cons in IH as [IHchild IHitems].
  change (expected bl (VDict ((k, child) :: rest)))
    with (((bl ++ [k])%list, entry_for child) :: expected (bl ++ [k])%list child
          ++ expected bl (VDict rest))%list.
  change (key_paths (VDict ((k, child) :: rest)))
    with (([k] :: map (cons k) (key_paths child)) ++ key_paths (VDict rest))%list.
  rewrite map_cons, !map_app, map_cons, (IHrest IHitems). simpl. f_equal. f_equal.
  rewrite IHchild, map_map. apply map_ext. intros p. by rewrite <- app_assoc.
Qed.

Lemma key_paths_head items p :
  p ∈ key_paths (VDict items) → ∃ k s, k ∈ map fst items ∧ p = k :: s.
Proof.
  simpl. intros H. apply list_elem_of_In, in_flat_map in H as ([k child] & Hin & H).
  exists k. simpl in H. destruct H as [<-|H].
  - exists []. split; [|done]. apply list_elem_of_In, in_map_iff. by exists (k, child).
  - apply in_map_iff in H as (s & <- & _). exists s. split; [|done].
    apply list_elem_of_In, in_map_iff. by exists (k, child).
Qed.

Lemma key_paths_nonempty v : [] ∉ key_paths v.
Proof.
  destruct v; try apply not_elem_of_nil.
  intros H. by apply key_paths_head in H as (k & s & _ & ?).
Qed.

Lemma key_paths_NoDup v : valid v = true → NoDup (key_paths v).
Proof.
  induction v as [|?|?|?|? _|items IH] using Value_nested_ind; intros Hv;
    try apply NoDup_nil_2.
  induction items as [|[k child] rest IHrest]; [apply NoDup_nil_2|].
  apply Forall_cons in IH as [IHchild IHitems].
  apply valid_cons in Hv as (Hnotin & _ & Hvc & Hvr).
  change (key_paths (VDict ((k, child) :: rest)))
    with (([k] :: map (cons k) (key_paths child)) ++ key_paths (VDict rest))%list.
  apply NoDup_app. split_and!.
  - apply NoDup_cons. split.
    + intros H. apply list_elem_of_In, in_map_iff in H as (s & [= ->] & H).
      by apply list_elem_of_In, key_paths_nonempty in H.
    + apply (NoDup_fmap_2 (cons k)). by apply IHchild.
  - intros p Hin Hin'. apply key_paths_head in Hin' as (k' & s' & Hk' & ->).
    apply elem_of_cons in Hin as [[= <- _]|Hin]; [done|].
    apply list_elem_of_In, in_map_iff in Hin as (s & [= <- _] & _). done.
  - by apply IHrest.
Qed.

Lemma event_for_loc es : map event_loc (map event_for es) = map fst es.
Proof.
  rewrite map_map. apply map_ext. intros [l e]. unfold event_for. simpl. by destruct e.
Qed.

Lemma fresh_from_tree w b v :
  tree w → (∀ k, k ∈ keys_of v → stat w (b ++ [k])%list = None) → fresh w b v.
Proof.
  intros Ht Hfree. destruct v; try done. intros k s Hk.
  specialize (Hfree k Hk). destruct s as [|c s].
  - by apply stat_None_files in Hfree as [? _].
  - apply (tree_nothing_below w (b ++ [k])%list); [done..|].
    exists (c :: s). split; [done|]. by rewrite <- app_assoc.
Qed.

(** C1, as the code has it.  A nested mapping whose keys are plain names
    (one path component each: not empty, not [.] or [..], without [/]
    or NUL),
    no key twice in one mapping, materialized into a base directory that
    is there and has nothing at the top-level keys, over a tree-shaped
    disk: the run succeeds; the entries it creates are, in order, one for
    each key of the structure, at the base location followed by the keys
    from the root of the mapping down to that key; these locations are
    pairwise different; each holds the entry its value stands for and
    was free before; and nothing else on disk changes. *)
Theorem one_entry_per_key base_dir structure w b :
  is_dict structure = true →
  valid structure = true →
  tree w →
  locate w (Path_of base_dir) = inr b →
  stat w b = Some Dir →
  (∀ k, k ∈ keys_of structure → stat w (b ++ [k])%list = None) →
  ∃ w1 created,
    create_structure base_dir structure w = (w1, inr tt) ∧
    journal w1 = (journal w ++ created)%list ∧
    created = map event_for (expected b structure) ∧
    map event_loc created = map (app b) (key_paths structure) ∧
    NoDup (key_paths structure) ∧
    (∀ l e, (l, e) ∈ expected b structure →
            files w1 !! l = Some e ∧ files w !! l = None) ∧
    (∀ l, l ∉ map (app b) (key_paths structure) → files w1 !! l = files w !! l).
Proof.
  intros Hd Hv Ht Hl Hs Hfree.
  pose proof (fresh_from_tree w b structure Ht Hfree) as Hfresh.
  destruct (materializes_all structure (Path_of base_dir) w b)
    as (w' & Hrun & Hj & Hin & Hframe); try done.
  { by rewrite Hd. }
  eexists _, (map event_for (expected b structure)). split_and!.
  - unfold create_structure. rewrite (bind_ok _ _ _ _ _ Hrun). reflexivity.
  - done.
  - done.
  - by rewrite event_for_loc, expected_locs.
  - by apply key_paths_NoDup.
  - intros l e H. split; [by apply Hin|].
    apply expected_under in H as (k & s & Hk & ->).
    destruct structure; try done. by apply Hfresh.
  - intros l H. simpl. apply Hframe. by rewrite expected_locs.
Qed.

(** C1 fails as stated for a key of several components: for the one key
    [a/b] of this mapping, [mkdir(parents=True)] makes two entries under
    the base directory, [a] and [a/b]. *)
Lemma key_of_two_components :
  (create_structure "/tmp/x" (VDict [("a/b", VDict [])]) tmp_x).2 = inr tt
  ∧ key_paths (VDict [("a/b", VDict [])]) = [["a/b"]]
  ∧ journal (create_structure "/tmp/x" (VDict [("a/b", VDict [])]) tmp_x).1
    = [Mkdir ["tmp"; "x"; "a"]; Mkdir ["tmp"; "x"; "a"; "b"]]
  ∧ files (create_structure "/tmp/x" (VDict [("a/b", VDict [])]) tmp_x).1
    = {[ ["tmp"] := Dir; ["tmp"; "x"] := Dir;
         ["tmp"; "x"; "a"] := Dir; ["tmp"; "x"; "a"; "b"] := Dir ]}.
Proof. split_and!; by vm_compute. Qed.

(* ===================================================================== *)
(** * The theorems at work *)
(* ===================================================================== *)

Lemma treeb_sound w : treeb w = true → tree w.
Proof.
  unfold treeb. rewrite forallb_forall. intros H loc e He.
  apply elem_of_map_to_list, list_elem_of_In, H in He.
  by apply bool_decide_eq_true in He.
Qed.

Lemma one_entry_per_key_example :
  ∃ w1 created,
    create_structure "/tmp/x" example_structure tmp_x = (w1, inr tt) ∧
    journal w1 = (journal tmp_x ++ created)%list ∧
    created = map event_for (expected ["tmp"; "x"] example_structure) ∧
    map event_loc created = map (app ["tmp"; "x"]) (key_paths example_structure) ∧
    NoDup (key_paths example_structure) ∧
    (∀ l e, (l, e) ∈ expected ["tmp"; "x"] example_structure →
            files w1 !! l = Some e ∧ files tmp_x !! l = None) ∧
    (∀ l, l ∉ map (app ["tmp"; "x"]) (key_paths example_structure) →
          files w1 !! l = files tmp_x !! l).
Proof.
  apply (one_entry_per_key "/tmp/x" example_structure tmp_x ["tmp"; "x"]).
  - reflexivity.
  - reflexivity.
  - apply treeb_sound. vm_compute. reflexivity.
  - reflexivity.
  - reflexivity.
  - intros k Hk. apply list_elem_of_singleton in Hk. subst k. reflexivity.
Defined.

Lemma string_leaf_written_example :
  ∃ w1,
    _create (Path_of "/tmp/x") (VDict ([] ++ [("b.txt", VStr "hi")])) tmp_x_old
    = _create (Path_of "/tmp/x") (VDict []) w1 ∧
    files w1 = <[ ["tmp"; "x"; "b.txt"] := File "hi" ]> (files tmp_x_old) ∧
    files w1 !! ["tmp"; "x"; "b.txt"] = Some (File "hi") ∧
    (∀ l, l ≠ ["tmp"; "x"; "b.txt"] → files w1 !! l = files tmp_x_old !! l) ∧
    journal w1 = (journal tmp_x_old ++
                  match stat tmp_x_old ["tmp"; "x"; "b.txt"] with
                  | None => [Creat ["tmp"; "x"; "b.txt"]]
                  | Some _ => []
                  end)%list ∧
    cwd w1 = cwd tmp_x_old.
Proof.
  apply (string_leaf_written (Path_of "/tmp/x") [] "b.txt" "hi" [] tmp_x_old tmp_x_old).
  - reflexivity.
  - reflexivity.
  - vm_compute. discriminate.
Defined.

Lemma other_leaf_written_as_str_example :
  ∃ w1,
    create_item (Path_of "/tmp/x") "n.txt" (VList [VInt 3; VStr "a"; VBool true]) tmp_x
    = (w1, inr tt) ∧
    _create (Path_of "/tmp/x")
      (VDict ([] ++ [("n.txt", VList [VInt 3; VStr "a"; VBool true])])) tmp_x
    = _create (Path_of "/tmp/x") (VDict []) w1 ∧
    files w1 = <[ ["tmp"; "x"; "n.txt"] :=
                    File (py_str (VList [VInt 3; VStr "a"; VBool true])) ]>
                 (files tmp_x) ∧
    files w1 !! ["tmp"; "x"; "n.txt"]
    = Some (File (py_str (VList [VInt 3; VStr "a"; VBool true]))) ∧
    (∀ l, l ≠ ["tmp"; "x"; "n.txt"] → files w1 !! l = files tmp_x !! l) ∧
    journal w1 = (journal tmp_x ++
                  match stat tmp_x ["tmp"; "x"; "n.txt"] with
                  | None => [Creat ["tmp"; "x"; "n.txt"]]
                  | Some _ => []
                  end)%list ∧
    cwd w1 = cwd tmp_x.
Proof.
  apply (other_leaf_written_as_str (Path_of "/tmp/x") [] "n.txt"
           (VList [VInt 3; VStr "a"; VBool true]) [] tmp_x tmp_x).
  - reflexivity.
  - reflexivity.
  - reflexivity.
  - reflexivity.
  - vm_compute. discriminate.
Defined.

Lemma materialize_twice_example :
  ∃ w2,
    create_structure "/tmp/x" example_structure
      (create_structure "/tmp/x" example_structure tmp_x).1 = (w2, inr tt)
    ∧ files w2 = files (create_structure "/tmp/x" example_structure tmp_x).1
    ∧ cwd w2 = cwd (create_structure "/tmp/x" example_structure tmp_x).1
    ∧ journal w2 = journal (create_structure "/tmp/x" example_structure tmp_x).1.
Proof.
  apply (materialize_twice "/tmp/x" example_structure tmp_x).
  vm_compute. reflexivity.
Defined.

Lemma parent_before_child_example :
  ∃ evs,
    journal (create_structure "/tmp/x" example_structure tmp_x).1
    = (journal tmp_x ++ evs)%list ∧
    (∀ l, is_Some (stat (create_structure "/tmp/x" example_structure tmp_x).1 l) →
          is_Some (stat tmp_x l) ∨ l ∈ map event_loc evs) ∧
    ∀ pre ev post, evs = (pre ++ ev :: post)%list →
      stat tmp_x (removelast (event_loc ev)) = Some Dir
      ∨ Mkdir (removelast (event_loc ev)) ∈ pre.
Proof.
  apply (parent_before_child "/tmp/x" example_structure tmp_x _ (inr tt)).
  - split; [apply treeb_sound; vm_compute; reflexivity|reflexivity].
  - vm_compute. reflexivity.
Defined.

Lemma mapping_child_becomes_directory_example :
  (is_dir tmp_x (Path_of "/tmp/x" / "c")%path →
   Path_mkdir (Path_of "/tmp/x" / "c")%path tmp_x = (tmp_x, inr tt)) ∧
  (∀ w1, Path_mkdir (Path_of "/tmp/x" / "c")%path tmp_x = (w1, inr tt) →
     is_dir w1 (Path_of "/tmp/x" / "c")%path ∧
     (∀ l, files w1 !! l = files tmp_x !! l
           ∨ (files tmp_x !! l = None ∧ files w1 !! l = Some Dir)) ∧
     _create (Path_of "/tmp/x") (VDict ([] ++ [("c", VDict [])])) tmp_x
     = (_create (Path_of "/tmp/x" / "c")%path (VDict [])
        >> _create (Path_of "/tmp/x") (VDict []))
         (with_line w1
            ("Created directory: " ++ Path_str (Path_of "/tmp/x" / "c")%path))) ∧
  (∀ w1 e, Path_mkdir (Path_of "/tmp/x" / "c")%path tmp_x = (w1, inl e) →
     _create (Path_of "/tmp/x") (VDict ([] ++ [("c", VDict [])])) tmp_x = (w1, inl e)) ∧
  (∀ loc text, locate tmp_x (Path_of "/tmp/x" / "c")%path = inr loc →
     stat tmp_x loc = Some (File text) →
     Path_mkdir (Path_of "/tmp/x" / "c")%path tmp_x = (tmp_x, inl FileExistsError)) ∧
  (VDict [] = VNone ∨ VDict [] = VDict [] →
     (∀ w2, _create (Path_of "/tmp/x" / "c")%path (VDict []) w2 = (w2, inr tt)) ∧
     (∀ loc, tree tmp_x → locate tmp_x (Path_of "/tmp/x" / "c")%path = inr loc →
        stat tmp_x loc = None →
        Path_mkdir (Path_of "/tmp/x" / "c")%path tmp_x
        = (with_entry tmp_x (Mkdir loc), inr tt) ∧
        files (with_entry tmp_x (Mkdir loc)) !! loc = Some Dir ∧
        ∀ l, below loc l → files (with_entry tmp_x (Mkdir loc)) !! l = None)).
Proof.
  apply (mapping_child_becomes_directory (Path_of "/tmp/x") [] "c" (VDict []) []
           tmp_x tmp_x).
  - reflexivity.
  - reflexivity.
Defined.

(* ===================================================================== *)
(** * The editor *)
(* ===================================================================== *)

Lemma read_text_run p w :
  read_text p w =
  match locate w p with
  | inl e => (w, inl e)
  | inr loc =>
      match stat w loc with
      | Some (File text) => (w, inr text)
      | Some Dir => (w, inl IsADirectoryError)
      | None => (w, inl FileNotFoundError)
      end
  end.
Proof.
  unfold read_text, bind, resolve, lookup_entry.
  destruct (locate w p) as [e|loc]; [done|]. by destruct (stat w loc) as [[|?]|].
Qed.

Lemma read_text_still p w : (read_text p w).1 = w.
Proof.
  rewrite read_text_run. destruct (locate w p) as [e|loc]; [done|].
  by destruct (stat w loc) as [[|?]|].
Qed.

Lemma String_eqb_false s : s ≠ "" → String.eqb s "" = false.
Proof. intros H. by apply String.eqb_neq. Qed.

(* ===================================================================== *)
(** * Generation and the objects in memory *)
(* ===================================================================== *)

Lemma keeps_heap_ret {A} (a : A) : keeps_heap (py_ret a).
Proof. by intros m m1 r [= <- _]. Qed.

Lemma keeps_heap_raise {A} e : keeps_heap (py_raise e : Py Mem A).
Proof. by intros m m1 r [= <- _]. Qed.

Lemma keeps_heap_too_deep {A} : keeps_heap (too_deep : Py Mem A).
Proof. by intros m m1 r. Qed.

Lemma keeps_heap_bind {A B} (c : Py Mem A) (k : A → Py Mem B) :
  keeps_heap c → (∀ a, keeps_heap (k a)) → keeps_heap (py_bind c k).
Proof.
  intros Hc Hk m m2 r. unfold py_bind.
  destruct (c m) as [[m1 [e|a]]|] eqn:Hrun; [| |done].
  - intros [= <- _]. by eapply Hc.
  - intros Hrun2. rewrite (Hk _ _ _ _ Hrun2). by eapply Hc.
Qed.

Lemma keeps_heap_on_disk {A} (c : M A) : keeps_heap (on_disk c).
Proof. intros m m1 r. unfold on_disk. destruct (c (disk m)). by intros [= <- _]. Qed.

Lemma keeps_heap_deref r : keeps_heap (deref r).
Proof. intros m m1 o. unfold deref. destruct (heap m !! r); [|done]. by intros [= <- _]. Qed.

Lemma keeps_heap_str_of depth r : keeps_heap (str_of depth r).
Proof.
  intros m m1 o. unfold str_of. destruct (value_at depth (heap m) r); [|done].
  by intros [= <- _].
Qed.

(** A change in place is seen by whoever holds the object: emptying the
    shared dictionary of the example changes the structure read from
    the top, so a computation on the memory need not keep it. *)
Example change_in_place_is_seen :
  value_at 3 example_heap 4%nat
  = Some (VDict [("left", VDict [("b.txt", VStr "hi"); ("c", VDict [])]);
                 ("right", VDict [("b.txt", VStr "hi"); ("c", VDict [])])])
  ∧ (∃ m1, store_at 1%nat (ODict []) (mkMem tmp_x example_heap) = Some (m1, inr tt)
           ∧ heap m1 ≠ example_heap
           ∧ value_at 3 (heap m1) 4%nat
             = Some (VDict [("left", VDict []); ("right", VDict [])])).
Proof. split; [done|]. by eexists. Qed.

(** The walk reads the objects and writes none of them: whatever is in
    memory, however the objects hang together and however the run ends. *)
Lemma keeps_heap_create depth : ∀ base content,
  keeps_heap (InMemory._create depth base content).
Proof.
  induction depth as [|depth IH]; intros base content; [apply keeps_heap_too_deep|].
  simpl. apply keeps_heap_bind; [apply keeps_heap_deref|]. intros o.
  destruct o as [| | |s|xs|items];
    try apply keeps_heap_ret; try apply keeps_heap_raise.
  - apply keeps_heap_bind; intros; apply keeps_heap_on_disk.
  - induction items as [|[name subcontent] rest IHrest]; [apply keeps_heap_ret|].
    apply keeps_heap_bind; [|intros _; apply IHrest].
    apply keeps_heap_bind; [apply keeps_heap_deref|]. intros sub.
    assert (Hdir : keeps_heap
              (on_disk (Path_mkdir (base / name)%path) >>
               on_disk (print ("Created directory: " ++ Path_str (base / name)%path)) >>
               InMemory._create depth (base / name)%path subcontent)%mem).
    { apply keeps_heap_bind; [apply keeps_heap_on_disk|]. intros _.
      apply keeps_heap_bind; [apply keeps_heap_on_disk|]. intros _. apply IH. }
    assert (Hleaf : keeps_heap
              ((let* f := on_disk (open_w (base / name)%path) in
                let* text := str_of depth subcontent in
                on_disk (f_write f text)) >>
               on_disk (print ("Created file: " ++ Path_str (base / name)%path)))%mem).
    { apply keeps_heap_bind; [|intros _; apply keeps_heap_on_disk].
      apply keeps_heap_bind; [apply keeps_heap_on_disk|]. intros f.
      apply keeps_heap_bind; [apply keeps_heap_str_of|]. intros text.
      apply keeps_heap_on_disk. }
    destruct sub; done.
Qed.

Lemma keeps_heap_create_structure depth base_dir structure :
  keeps_heap (InMemory.create_structure depth base_dir structure).
Proof.
  apply keeps_heap_bind; [apply keeps_heap_create|]. intros _. apply keeps_heap_on_disk.
Qed.

Lemma value_at_mono n : ∀ m h r v,
  (n ≤ m)%nat → value_at n h r = Some v → value_at m h r = Some v.
Proof.
  induction n as [|n IH]; intros m h r v Hle; [done|].
  destruct m as [|m]; [lia|]. simpl.
  destruct (h !! r) as [[| | | |xs|items]|]; try done.
  - intros (l & Hl & ->)%fmap_Some. apply fmap_Some. exists l. split; [|done].
    apply mapM_Some. apply mapM_Some in Hl.
    eapply Forall2_impl; [exact Hl|]. intros x y Hxy. apply IH; [lia|done].
  - intros (l & Hl & ->)%fmap_Some. apply fmap_Some. exists l. split; [|done].
    apply mapM_Some. apply mapM_Some in Hl.
    eapply Forall2_impl; [exact Hl|]. intros [k x] y. simpl.
    intros (cv & Hcv & ->)%fmap_Some. apply fmap_Some. exists cv. split; [|done].
    apply IH; [lia|done].
Qed.

(** The object behind a value that was read. *)
Lemma value_at_obj n h r v :
  value_at n h r = Some v →
  ∃ o, h !! r = Some o ∧
       match o with
       | ONone => v = VNone
       | OBool b => v = VBool b
       | OInt k => v = VInt k
       | OStr s => v = VStr s
       | OList _ => ∃ l, v = VList l
       | ODict _ => ∃ l, v = VDict l
       end.
Proof.
  destruct n as [|n]; [done|]. simpl.
  destruct (h !! r) as [o|]; [|done]. intros Hv. exists o. split; [done|].
  destruct o; try (by injection Hv as <-).
  - apply fmap_Some in Hv as (l & _ & ->). by exists l.
  - apply fmap_Some in Hv as (l & _ & ->). by exists l.
Qed.

Lemma on_disk_run {A} (c : M A) w h :
  on_disk c (mkMem w h) = Some (mkMem (c w).1 h, (c w).2).
Proof. unfold on_disk. simpl. by destruct (c w). Qed.

Lemma deref_run r w h o :
  h !! r = Some o → deref r (mkMem w h) = Some (mkMem w h, inr o).
Proof. unfold deref. simpl. by intros ->. Qed.

Lemma str_of_run depth r w h v :
  value_at depth h r = Some v →
  str_of depth r (mkMem w h) = Some (mkMem w h, inr (py_str v)).
Proof. unfold str_of. simpl. by intros ->. Qed.

(** On a structure that is a tree in memory the walk does what [_create]
    does on the value, once the bound covers the depth of the tree. *)
Lemma create_in_memory n : ∀ depth h r v base w,
  (n ≤ depth)%nat → value_at n h r = Some v →
  InMemory._create depth base r (mkMem w h)
  = Some (mkMem (_create base v w).1 h, (_create base v w).2).
Proof.
  induction n as [|n IH]; intros depth h r v base w Hle Hv; [done|].
  destruct depth as [|d]; [lia|].
  pose proof Hv as Hv'. simpl in Hv'.
  destruct (h !! r) as [o|] eqn:Hr; [|done].
  cbn [InMemory._create]. unfold py_bind at 1. rewrite (deref_run _ _ _ _ Hr).
  destruct o as [|b|k|s|xs|items].
  - by injection Hv' as <-.
  - by injection Hv' as <-.
  - by injection Hv' as <-.
  - injection Hv' as <-. unfold py_bind. rewrite on_disk_run.
    cbn [_create]. unfold bind.
    destruct (Path_touch (base / s)%path w) as [w1 [e|[]]]; [done|].
    simpl. by rewrite on_disk_run.
  - apply fmap_Some in Hv' as (l & _ & ->). done.
  - apply fmap_Some in Hv' as (vitems & Hitems & ->). clear Hv Hr.
    revert vitems w Hitems.
    induction items as [|[name sub] rest IHrest]; intros vitems w Hitems.
    { apply mapM_Some in Hitems. apply Forall2_nil_inv_l in Hitems as ->. done. }
    apply mapM_Some in Hitems.
    apply Forall2_cons_inv_l in Hitems as ([name' cv] & vrest & Hcv & Hrest & ->).
    simpl in Hcv. apply fmap_Some in Hcv as (cv' & Hcv & [= <- <-]).
    apply mapM_Some in Hrest. specialize (IHrest vrest).
    rewrite _create_cons.
    assert (Hd : (n ≤ d)%nat) by lia.
    assert (Hitem :
      (let* sub0 := deref sub in
       match sub0 with
       | ONone | ODict _ =>
           on_disk (Path_mkdir (base / name')%path) >>
           on_disk (print ("Created directory: " ++ Path_str (base / name')%path)) >>
           InMemory._create d (base / name')%path sub
       | _ =>
           (let* f := on_disk (open_w (base / name')%path) in
            let* text := str_of d sub in
            on_disk (f_write f text)) >>
           on_disk (print ("Created file: " ++ Path_str (base / name')%path))
       end)%mem (mkMem w h)
      = Some (mkMem (create_item base name' cv w).1 h, (create_item base name' cv w).2)).
    { destruct (value_at_obj _ _ _ _ Hcv) as (so & Hso & Hkind).
      pose proof (value_at_mono _ _ _ _ _ Hd Hcv) as Hcvd.
      unfold py_bind at 1. rewrite (deref_run _ _ _ _ Hso).
      assert (Hdir : is_dict cv || is_none cv = true →
        (on_disk (Path_mkdir (base / name')%path) >>
         on_disk (print ("Created directory: " ++ Path_str (base / name')%path)) >>
         InMemory._create d (base / name')%path sub)%mem (mkMem w h)
        = Some (mkMem (create_item base name' cv w).1 h, (create_item base name' cv w).2)).
      { intros Hk. rewrite (dir_item_unfold _ _ _ Hk). unfold py_bind, bind.
        rewrite on_disk_run.
        destruct (Path_mkdir (base / name')%path w) as [w1 [e|[]]]; [done|].
        cbn [fst snd]. rewrite on_disk_run. cbn [fst snd print].
        by rewrite (IH d h sub cv _ _ Hd Hcv). }
      assert (Hleaf : is_dict cv = false → is_none cv = false →
        ((let* f := on_disk (open_w (base / name')%path) in
          let* text := str_of d sub in
          on_disk (f_write f text)) >>
         on_disk (print ("Created file: " ++ Path_str (base / name')%path)))%mem
          (mkMem w h)
        = Some (mkMem (create_item base name' cv w).1 h, (create_item base name' cv w).2)).
      { intros Hnd Hnn.
        assert (Hunfold : create_item base name' cv
                = ((let* f := open_w (base / name')%path in f_write f (py_str cv)) >>
                   print ("Created file: " ++ Path_str (base / name')%path))).
        { by destruct cv. }
        rewrite Hunfold. unfold py_bind, bind. rewrite on_disk_run.
        destruct (open_w (base / name')%path w) as [w1 [e|f]]; [done|].
        cbn [fst snd]. rewrite (str_of_run _ _ _ _ _ Hcvd), on_disk_run.
        destruct (f_write f (py_str cv) w1) as [w2 [e|[]]]; [done|].
        cbn [fst snd]. by rewrite on_disk_run. }
      destruct so as [|b|k|s|xs|items']; subst; try (by apply Hleaf); try (by apply Hdir).
      - destruct Hkind as [l ->]. by apply Hleaf.
      - destruct Hkind as [l ->]. by apply Hdir. }
    unfold py_bind at 1. rewrite Hitem. unfold bind.
    destruct (create_item base name' cv w) as [w1 [e|[]]]; [done|].
    cbn [fst snd]. by apply IHrest.
Qed.

Lemma create_structure_in_memory n depth h r v base_dir w :
  (n ≤ depth)%nat → value_at n h r = Some v →
  InMemory.create_structure depth base_dir r (mkMem w h)
  = Some (mkMem (create_structure base_dir v w).1 h, (create_structure base_dir v w).2).
Proof.
  intros Hle Hv. unfold InMemory.create_structure, create_structure, py_bind, bind.
  rewrite (create_in_memory n depth h r v _ w Hle Hv).
  destruct (_create (Path_of base_dir) v w) as [w1 [e|[]]]; [done|].
  cbn [fst snd]. by rewrite on_disk_run.
Qed.

(** C6.  Generation leaves the structure as it was.  The structure is an
    object in memory, the one the editor holds, handed to
    [create_structure] by reference; a run can change the objects in
    memory as it can change the disk.
    - Whatever object [create_structure] is given and however its run
      ends, with its closing line printed or with an exception, every
      object in memory is afterwards as it was before.
    - [generate_project] returns with the editor holding the same object,
      every object in memory as it was, and so the same structure.
    - For a structure that is a tree in memory no deeper than the bound,
      [generate_project] does return, and it leaves the disk as
      [create_structure] on the value of the structure does. *)
Theorem generation_keeps_structure depth target_dir :
  (∀ structure m m1 r,
     InMemory.create_structure depth target_dir structure m = Some (m1, r) →
     heap m1 = heap m) ∧
  (∀ win win1 r,
     InMemory.generate_project depth target_dir win = Some (win1, r) →
     r = inr tt
     ∧ self_project_structure win1 = self_project_structure win
     ∧ heap (memory win1) = heap (memory win)
     ∧ ∀ k, value_at k (heap (memory win1)) (self_project_structure win1)
            = value_at k (heap (memory win)) (self_project_structure win)) ∧
  (∀ n win v,
     (n ≤ depth)%nat →
     value_at n (heap (memory win)) (self_project_structure win) = Some v →
     ∃ win1,
       InMemory.generate_project depth target_dir win = Some (win1, inr tt)
       ∧ value_at n (heap (memory win1)) (self_project_structure win1) = Some v
       ∧ (target_dir ≠ "" →
          disk (memory win1)
          = (create_structure target_dir v (disk (memory win))).1)).
Proof.
  assert (Hkeeps : ∀ win win1 r,
     InMemory.generate_project depth target_dir win = Some (win1, r) →
     r = inr tt
     ∧ self_project_structure win1 = self_project_structure win
     ∧ heap (memory win1) = heap (memory win)).
  { intros win win1 r. unfold InMemory.generate_project.
    destruct (String.eqb target_dir ""); [by intros [= <- <-]|].
    unfold py_try, py_bind, in_memory.
    destruct (InMemory.create_structure depth target_dir
                (self_project_structure win) (memory win))
      as [[m1 [e|[]]]|] eqn:Hrun; [| |done].
    - apply keeps_heap_create_structure in Hrun. unfold messagebox. simpl.
      intros [= <- <-]. done.
    - apply keeps_heap_create_structure in Hrun. unfold messagebox, config_status. simpl.
      intros [= <- <-]. done. }
  split_and!.
  - intros structure m m1 r. apply keeps_heap_create_structure.
  - intros win win1 r Hrun. destruct (Hkeeps _ _ _ Hrun) as (-> & Href & Hheap).
    split_and!; try done. intros k. by rewrite Href, Hheap.
  - intros n win v Hle Hv.
    destruct (String.eqb target_dir "") eqn:Hp.
    { exists win. unfold InMemory.generate_project. rewrite Hp.
      split_and!; try done. intros Hne. apply String.eqb_neq in Hne. congruence. }
    destruct win as [r st boxes [w h]]. simpl in Hv.
    pose proof (create_structure_in_memory n depth h r v target_dir w Hle Hv) as Hsim.
    unfold InMemory.generate_project. rewrite Hp.
    unfold py_try, py_bind, in_memory.
    cbn [self_project_structure self_status message_boxes memory disk heap].
    rewrite Hsim.
    destruct (create_structure target_dir v w) as [w1 [e|[]]]; cbn [fst snd];
      eexists; (split_and!; [reflexivity|by simpl|by simpl]).
Qed.

Lemma generation_keeps_structure_example :
  ∃ win1,
    InMemory.generate_project 3 "/tmp/x" (mkWindow 4%nat "Ready" [] (mkMem tmp_x example_heap))
    = Some (win1, inr tt)
    ∧ value_at 3 (heap (memory win1)) (self_project_structure win1)
      = Some (VDict [("left", VDict [("b.txt", VStr "hi"); ("c", VDict [])]);
                     ("right", VDict [("b.txt", VStr "hi"); ("c", VDict [])])])
    ∧ ("/tmp/x" ≠ "" →
       disk (memory win1)
       = (create_structure "/tmp/x"
            (VDict [("left", VDict [("b.txt", VStr "hi"); ("c", VDict [])]);
                    ("right", VDict [("b.txt", VStr "hi"); ("c", VDict [])])])
            tmp_x).1).
Proof.
  apply (generation_keeps_structure 3 "/tmp/x").
  - simpl. lia.
  - reflexivity.
Defined.

(* ===================================================================== *)
(** * Loading a file *)
(* ===================================================================== *)

Lemma load_json_read_error file_path app w e :
  file_path ≠ "" →
  read_text (Path_of file_path) (world app) = (w, inl e) →
  load_json file_path app = (load_failed app e, inr tt).
Proof.
  intros Hne Hrun. pose proof (read_text_still (Path_of file_path) (world app)) as Hw.
  rewrite Hrun in Hw. simpl in Hw. subst w.
  unfold load_json. rewrite (String_eqb_false _ Hne).
  unfold try_except, bind, lift. rewrite Hrun. by destruct app.
Qed.

Lemma load_json_parse_error file_path app w text :
  file_path ≠ "" →
  read_text (Path_of file_path) (world app) = (w, inr text) →
  json_loads text = None →
  load_json file_path app = (load_failed app JSONDecodeError, inr tt).
Proof.
  intros Hne Hrun Hparse.
  pose proof (read_text_still (Path_of file_path) (world app)) as Hw.
  rewrite Hrun in Hw. simpl in Hw. subst w.
  unfold load_json. rewrite (String_eqb_false _ Hne).
  unfold try_except, bind, lift, json_load. rewrite Hrun, Hparse. by destruct app.
Qed.

Lemma load_json_parsed file_path app w text v :
  file_path ≠ "" →
  read_text (Path_of file_path) (world app) = (w, inr text) →
  json_loads text = Some v →
  load_json file_path app = (loaded app file_path v, inr tt).
Proof.
  intros Hne Hrun Hparse.
  pose proof (read_text_still (Path_of file_path) (world app)) as Hw.
  rewrite Hrun in Hw. simpl in Hw. subst w.
  unfold load_json. rewrite (String_eqb_false _ Hne).
  unfold try_except, bind, lift, json_load. rewrite Hrun, Hparse. by destruct app.
Qed.

(** C7.  Loading from a chosen file:
    - when the file cannot be read, the exception is caught and shown,
      and the editor is otherwise as it was, with the structure it had;
    - when the text read is not JSON, the same, with [JSONDecodeError];
    - the structure is replaced only when the text was read and parsed,
      and then by the value parsed. *)
Theorem load_json_atomic file_path app :
  file_path ≠ "" →
  (∀ w e, read_text (Path_of file_path) (world app) = (w, inl e) →
     load_json file_path app = (load_failed app e, inr tt)) ∧
  (∀ w text, read_text (Path_of file_path) (world app) = (w, inr text) →
     json_loads text = None →
     load_json file_path app = (load_failed app JSONDecodeError, inr tt)) ∧
  (∀ w text v, read_text (Path_of file_path) (world app) = (w, inr text) →
     json_loads text = Some v →
     load_json file_path app = (loaded app file_path v, inr tt)) ∧
  (project_structure (designer (load_json file_path app).1)
   ≠ project_structure (designer app) →
   ∃ w text v, read_text (Path_of file_path) (world app) = (w, inr text)
               ∧ json_loads text = Some v
               ∧ project_structure (designer (load_json file_path app).1) = v).
Proof.
  intros Hne. split_and!.
  - intros w e. by apply load_json_read_error.
  - intros w text. by apply load_json_parse_error.
  - intros w text v. by apply load_json_parsed.
  - destruct (read_text (Path_of file_path) (world app)) as [w [e|text]] eqn:Hrun.
    + rewrite (load_json_read_error _ _ _ _ Hne Hrun). by intros H.
    + destruct (json_loads text) as [v|] eqn:Hparse.
      * rewrite (load_json_parsed _ _ _ _ _ Hne Hrun Hparse). intros _.
        by exists w, text, v.
      * rewrite (load_json_parse_error _ _ _ _ Hne Hrun Hparse). by intros H.
Qed.

Lemma load_json_atomic_example :
  (∀ w e, read_text (Path_of "/tmp/x/bad.json") (world example_app) = (w, inl e) →
     load_json "/tmp/x/bad.json" example_app = (load_failed example_app e, inr tt)) ∧
  (∀ w text, read_text (Path_of "/tmp/x/bad.json") (world example_app) = (w, inr text) →
     json_loads text = None →
     load_json "/tmp/x/bad.json" example_app
     = (load_failed example_app JSONDecodeError, inr tt)) ∧
  (∀ w text v, read_text (Path_of "/tmp/x/bad.json") (world example_app) = (w, inr text) →
     json_loads text = Some v →
     load_json "/tmp/x/bad.json" example_app
     = (loaded example_app "/tmp/x/bad.json" v, inr tt)) ∧
  (project_structure (designer (load_json "/tmp/x/bad.json" example_app).1)
   ≠ project_structure (designer example_app) →
   ∃ w text v, read_text (Path_of "/tmp/x/bad.json") (world example_app) = (w, inr text)
               ∧ json_loads text = Some v
               ∧ project_structure (designer (load_json "/tmp/x/bad.json" example_app).1)
                 = v).
Proof.
  apply (load_json_atomic "/tmp/x/bad.json" example_app). discriminate.
Defined.

(** The three cases on the disk of the example. *)
Example load_bad_json :
  load_json "/tmp/x/bad.json" example_app = (load_failed example_app JSONDecodeError, inr tt).
Proof. vm_compute. reflexivity. Qed.

Example load_missing_json :
  load_json "/tmp/x/none.json" example_app
  = (load_failed example_app FileNotFoundError, inr tt).
Proof. vm_compute. reflexivity. Qed.

Example load_good_json :
  load_json "/tmp/x/good.json" example_app
  = (loaded example_app "/tmp/x/good.json" (VList [VInt 1; VInt 2]), inr tt).
Proof. vm_compute. reflexivity. Qed.

(* ===================================================================== *)
(** * Writing JSON and reading it back *)
(* ===================================================================== *)

Lemma append_cons c (a b : string) : String c a ++ b = String c (a ++ b).
Proof. reflexivity. Qed.

Lemma append_nil_l (b : string) : "" ++ b = b.
Proof. reflexivity. Qed.

Lemma append_assoc (a b c : string) : (a ++ b) ++ c = a ++ (b ++ c).
Proof. induction a as [|x a IH]; [done|]. by rewrite !append_cons, IH. Qed.

Lemma append_nil_r (a : string) : a ++ "" = a.
Proof. induction a as [|x a IH]; [done|]. by rewrite append_cons, IH. Qed.

(** Appending to a string that is written out. *)
Ltac app_norm := repeat (rewrite append_cons || rewrite append_nil_l).

(** One escaped character is read back as the character. *)
Lemma scanstring_escape_char c t :
  scanstring (escape_char c ++ t)
  = match scanstring t with
    | Some (text, after) => Some (String c text, after)
    | None => None
    end.
Proof. destruct c as [[] [] [] [] [] [] [] []]; reflexivity. Qed.

Lemma scanstring_escape s rest :
  scanstring (escape s ++ String DQ rest) = Some (s, rest).
Proof.
  induction s as [|c s IH]; [done|].
  change (escape (String c s)) with (escape_char c ++ escape s).
  rewrite append_assoc, scanstring_escape_char. by rewrite IH.
Qed.

(** ** Integers *)

Lemma span_digits_uint d rest :
  match rest with String c _ => is_digit c = false | "" => True end →
  span_digits (NilEmpty.string_of_uint d ++ rest) = (NilEmpty.string_of_uint d, rest).
Proof.
  intros Hrest.
  induction d; simpl NilEmpty.string_of_uint; app_norm;
    try (simpl; by rewrite IHd).
  destruct rest as [|c r]; [done|]. simpl. by rewrite Hrest.
Qed.

Lemma pos_uint_head p :
  match Pos.to_uint p with Nil | D0 _ => False | _ => True end.
Proof.
  pose proof (DecimalPos.Unsigned.to_of (Pos.to_uint p)) as Hnorm.
  rewrite DecimalPos.Unsigned.of_to in Hnorm. simpl in Hnorm.
  pose proof (DecimalPos.Unsigned.to_uint_nonnil p) as Hnil.
  pose proof (DecimalPos.Unsigned.to_uint_nonzero p) as Hzero.
  destruct (Pos.to_uint p) as [|d| | | | | | | | |] eqn:Hd; try done.
  rewrite DecimalFacts.unorm_D0 in Hnorm.
  assert (d ≠ Nil) as Hne by (intros ->; by apply Hzero).
  pose proof (DecimalFacts.nb_digits_unorm d Hne) as Hle.
  rewrite <- Hnorm in Hle. simpl in Hle. lia.
Qed.

Lemma match_integer_repr n rest :
  match rest with String c _ => is_digit c = false | "" => True end →
  match_integer (repr_int n ++ rest) = Some (repr_int n, rest).
Proof.
  intros Hrest. unfold repr_int. destruct n as [|p|p]; simpl Z.to_int.
  - reflexivity.
  - pose proof (pos_uint_head p) as Hhead. simpl NilZero.string_of_int.
    destruct (Pos.to_uint p) as [|d|d|d|d|d|d|d|d|d|d]; try done;
      simpl NilZero.string_of_uint; app_norm; unfold match_integer; simpl;
      by rewrite (span_digits_uint d rest Hrest).
  - pose proof (pos_uint_head p) as Hhead. simpl NilZero.string_of_int.
    destruct (Pos.to_uint p) as [|d|d|d|d|d|d|d|d|d|d]; try done;
      simpl NilZero.string_of_uint; app_norm; unfold match_integer; simpl;
      by rewrite (span_digits_uint d rest Hrest).
Qed.

Lemma parse_int_repr n : parse_int (repr_int n) = Some n.
Proof.
  unfold parse_int, repr_int. rewrite NilZero.isi.
  - simpl. by rewrite DecimalZ.of_to.
  - destruct n as [|p|p]; try done. simpl. intros [= H].
    by apply (DecimalPos.Unsigned.to_uint_nonnil p).
  - destruct n as [|p|p]; try done. simpl. intros [= H].
    by apply (DecimalPos.Unsigned.to_uint_nonnil p).
Qed.

Lemma repr_int_head n :
  ∃ c s, repr_int n = String c s ∧ (c = "-"%char ∨ is_digit c = true).
Proof.
  unfold repr_int. destruct n as [|p|p]; simpl Z.to_int.
  - exists "0"%char, "". by split; [|right].
  - pose proof (pos_uint_head p) as Hhead. simpl NilZero.string_of_int.
    destruct (Pos.to_uint p) as [|d|d|d|d|d|d|d|d|d|d]; try done;
      simpl; eexists _, _; (split; [done|by right]).
  - simpl. eexists _, _. split; [done|by left].
Qed.

(** A text that starts like a number is scanned as a number. *)
Lemma scan_once_number c s fuel :
  c = "-"%char ∨ is_digit c = true →
  scan_once (S fuel) (String c s)
  = match match_integer (String c s) with
    | Some (text, after) =>
        if float_follows after then None
        else match parse_int text with
             | Some n => Some (VInt n, after)
             | None => None
             end
    | None => None
    end.
Proof.
  intros Hc. destruct c as [[] [] [] [] [] [] [] []]; try reflexivity;
    exfalso; destruct Hc as [Hc|Hc]; discriminate Hc.
Qed.

Lemma value_end_no_digit rest :
  value_end rest = true →
  match rest with String c _ => is_digit c = false | "" => True end.
Proof.
  destruct rest as [|c r]; [done|]. simpl. intros H.
  apply orb_true_iff in H as [H|H]; apply Ascii.eqb_eq in H; by subst c.
Qed.

Lemma value_end_no_float rest : value_end rest = true → float_follows rest = false.
Proof.
  destruct rest as [|c r]; [done|]. simpl. intros H.
  apply orb_true_iff in H as [H|H]; apply Ascii.eqb_eq in H; by subst c.
Qed.

Lemma scan_once_int n fuel rest :
  value_end rest = true →
  scan_once (S fuel) (repr_int n ++ rest) = Some (VInt n, rest).
Proof.
  intros Hend. destruct (repr_int_head n) as (c & s & Heq & Hc).
  pose proof (match_integer_repr n rest (value_end_no_digit _ Hend)) as Hm.
  rewrite Heq in Hm |- *. rewrite append_cons in Hm |- *.
  rewrite (scan_once_number _ _ _ Hc), Hm, (value_end_no_float _ Hend).
  by rewrite <- Heq, parse_int_repr.
Qed.

(** ** Whitespace *)

Lemma skip_ws_spaces n t : skip_ws (spaces n ++ t) = skip_ws t.
Proof. induction n as [|n IH]; [done|]. simpl spaces. by rewrite append_cons. Qed.

Lemma skip_ws_newline_indent level t : skip_ws (newline_indent level ++ t) = skip_ws t.
Proof. unfold newline_indent. rewrite append_cons. simpl. apply skip_ws_spaces. Qed.

Lemma skip_ws_value s : value_start s = true → skip_ws s = s.
Proof.
  destruct s as [|c s]; [done|]. simpl.
  rewrite !andb_true_iff, !negb_true_iff. by intros [[-> _] _].
Qed.

Lemma value_start_not_close s :
  value_start s = true →
  match s with
  | String c _ => Ascii.eqb c "]" = false ∧ Ascii.eqb c "}" = false
  | "" => False
  end.
Proof.
  destruct s as [|c s]; [done|]. simpl.
  rewrite !andb_true_iff, !negb_true_iff. by intros [[_ ->] ->].
Qed.

Lemma value_start_iterencode level v rest :
  value_start (iterencode level v ++ rest) = true.
Proof.
  destruct v as [|[]|n|s|[|x xs]|[|kv items]]; try reflexivity.
  simpl iterencode. destruct (repr_int_head n) as (c & s & Heq & Hc).
  rewrite Heq, append_cons. simpl.
  destruct Hc as [->|Hc]; [done|].
  destruct c as [[] [] [] [] [] [] [] []]; try done.
Qed.

(** ** One step of the scanner *)

Lemma scan_once_str fuel rest :
  scan_once (S fuel) (String DQ rest)
  = match scanstring rest with
    | Some (text, after) => Some (VStr text, after)
    | None => None
    end.
Proof. reflexivity. Qed.

Lemma scan_once_list fuel s0 :
  value_start (skip_ws s0) = true →
  scan_once (S fuel) (String "[" s0)
  = match parse_values fuel (skip_ws s0) with
    | Some (values, after) => Some (VList values, after)
    | None => None
    end.
Proof.
  intros Hs. change (scan_once (S fuel) (String "[" s0))
    with (match skip_ws s0 with
          | "" => None
          | String c' after =>
              if Ascii.eqb c' "]" then Some (VList [], after)
              else
                match parse_values fuel (String c' after) with
                | Some (values, after') => Some (VList values, after')
                | None => None
                end
          end).
  apply value_start_not_close in Hs.
  destruct (skip_ws s0) as [|c s]; [done|]. destruct Hs as [Hs _]. by rewrite Hs.
Qed.

Lemma scan_once_dict fuel s0 s1 :
  skip_ws s0 = String DQ s1 →
  scan_once (S fuel) (String "{" s0)
  = match parse_pairs fuel s1 with
    | Some (pairs, after) => Some (VDict (dict_of_pairs pairs), after)
    | None => None
    end.
Proof.
  intros Hs. change (scan_once (S fuel) (String "{" s0))
    with (match skip_ws s0 with
          | "" => None
          | String c' after =>
              if Ascii.eqb c' "}" then Some (VDict [], after)
              else if Ascii.eqb c' DQ then
                match parse_pairs fuel after with
                | Some (pairs, after') => Some (VDict (dict_of_pairs pairs), after')
                | None => None
                end
              else None
          end).
  by rewrite Hs.
Qed.

Lemma parse_values_S fuel s :
  parse_values (S fuel) s
  = match scan_once fuel s with
    | None => None
    | Some (value, s1) =>
        match skip_ws s1 with
        | "" => None
        | String c1 s2 =>
            if Ascii.eqb c1 "]" then Some ([value], s2)
            else if Ascii.eqb c1 "," then
              match parse_values fuel (skip_ws s2) with
              | Some (more, after) => Some (value :: more, after)
              | None => None
              end
            else None
        end
    end.
Proof. reflexivity. Qed.

Lemma parse_pairs_S fuel s :
  parse_pairs (S fuel) s
  = match scanstring s with
    | None => None
    | Some (key, s1) =>
        match skip_ws s1 with
        | "" => None
        | String c1 s2 =>
            if Ascii.eqb c1 ":" then
              match scan_once fuel (skip_ws s2) with
              | None => None
              | Some (value, s3) =>
                  match skip_ws s3 with
                  | "" => None
                  | String c3 s4 =>
                      if Ascii.eqb c3 "}" then Some ([(key, value)], s4)
                      else if Ascii.eqb c3 "," then
                        match skip_ws s4 with
                        | "" => None
                        | String c5 s5 =>
                            if Ascii.eqb c5 DQ then
                              match parse_pairs fuel s5 with
                              | Some (more, after) =>
                                  Some ((key, value) :: more, after)
                              | None => None
                              end
                            else None
                        end
                      else None
                  end
              end
            else None
        end
    end.
Proof. reflexivity. Qed.

(** ** Dictionaries built from pairs *)

Lemma dict_set_fresh k v d : k ∉ map fst d → dict_set k v d = (d ++ [(k, v)])%list.
Proof.
  induction d as [|[k' v'] d IH]; [done|]. simpl. intros Hk.
  apply not_elem_of_cons in Hk as [Hne Hk].
  apply String.eqb_neq in Hne. rewrite Hne. by rewrite IH.
Qed.

Lemma dict_of_pairs_NoDup pairs :
  NoDup (map fst pairs) → dict_of_pairs pairs = pairs.
Proof.
  unfold dict_of_pairs.
  assert (∀ acc, NoDup (map fst (acc ++ pairs)) →
                 fold_left (λ d kv, dict_set kv.1 kv.2 d) pairs acc
                 = (acc ++ pairs)%list) as H; [|apply (H [])].
  induction pairs as [|[k v] pairs IH]; intros acc Hnd.
  - by rewrite app_nil_r.
  - simpl. rewrite dict_set_fresh.
    + rewrite IH; rewrite <- app_assoc; [done|]. exact Hnd.
    + rewrite map_app in Hnd. apply NoDup_app in Hnd as (_ & Hdisj & _).
      intros Hin. apply (Hdisj k Hin). simpl. by left.
Qed.

(** ** Values *)

Lemma value_end_comma s : value_end (String "," s) = true.
Proof. reflexivity. Qed.

Lemma value_end_newline_indent level s : value_end (newline_indent level ++ s) = true.
Proof. reflexivity. Qed.

#[local] Opaque newline_indent.

Lemma parse_values_join level xs : ∀ fuel tail after,
  Forall reads_back xs → xs ≠ [] →
  forallb well_formed xs = true →
  (list_sum (map (λ x, S (weight x)) xs) ≤ fuel)%nat →
  value_end tail = true → skip_ws tail = String "]" after →
  parse_values fuel
    (join ("," ++ newline_indent level) (map (iterencode level) xs) ++ tail)
  = Some (xs, after).
Proof.
  induction xs as [|x xs IHxs]; intros fuel tail after IH Hne Hwf Hfuel Hend Hskip;
    [done|].
  apply Forall_cons in IH as [IHx IH]. simpl in Hwf, Hfuel.
  apply andb_true_iff in Hwf as [Hwfx Hwf].
  destruct fuel as [|fuel]; [lia|]. rewrite parse_values_S.
  destruct xs as [|x' xs'].
  - change (join ("," ++ newline_indent level) (map (iterencode level) [x]))
      with (iterencode level x).
    rewrite IHx; [|done|lia|done]. by rewrite Hskip.
  - change (join ("," ++ newline_indent level) (map (iterencode level) (x :: x' :: xs')))
      with (iterencode level x ++ ("," ++ newline_indent level)
            ++ join ("," ++ newline_indent level) (map (iterencode level) (x' :: xs'))).
    rewrite !append_assoc, append_cons, append_nil_l.
    rewrite IHx; [|done|lia|done].
    change (skip_ws (String "," ?s)) with (String "," s).
    cbv beta iota. rewrite skip_ws_newline_indent.
    rewrite skip_ws_value.
    + rewrite (IHxs fuel tail after); try done. simpl in *. lia.
    + destruct xs'; [apply value_start_iterencode|].
      change (join ?sep (map ?f (x' :: ?y :: ?l)))
        with (f x' ++ sep ++ join sep (map f (y :: l))).
      rewrite append_assoc. apply value_start_iterencode.
Qed.

Lemma pair_shape level k v t :
  (encode_basestring_ascii k ++ ": " ++ iterencode level v) ++ t
  = String DQ (escape k ++ String DQ (String ":" (String " " (iterencode level v ++ t)))).
Proof.
  unfold encode_basestring_ascii.
  by rewrite !append_assoc, !append_cons, !append_assoc, !append_cons, !append_nil_l.
Qed.

Lemma pairs_start level items tail :
  items ≠ [] →
  ∃ s, join ("," ++ newline_indent level)
         (map (λ kv, encode_basestring_ascii kv.1 ++ ": " ++ iterencode level kv.2) items)
       ++ tail = String DQ s.
Proof.
  destruct items as [|[k v] [|kv' items']]; [done| |]; intros _.
  - change (join ?sep (map ?f [(k, v)])) with (f (k, v)). cbv beta.
    rewrite pair_shape. by eexists.
  - change (join ?sep (map ?f ((k, v) :: kv' :: items')))
      with (f (k, v) ++ sep ++ join sep (map f (kv' :: items'))). cbv beta.
    rewrite append_assoc, pair_shape. by eexists.
Qed.

Lemma parse_pairs_join level items : ∀ fuel tail after s,
  Forall (λ kv, reads_back kv.2) items → items ≠ [] →
  forallb (λ kv, well_formed kv.2) items = true →
  (list_sum (map (λ kv, S (weight kv.2)) items) ≤ fuel)%nat →
  value_end tail = true → skip_ws tail = String "}" after →
  String DQ s
  = join ("," ++ newline_indent level)
      (map (λ kv, encode_basestring_ascii kv.1 ++ ": " ++ iterencode level kv.2) items)
    ++ tail →
  parse_pairs fuel s = Some (items, after).
Proof.
  induction items as [|[k v] items IHitems];
    intros fuel tail after s IH Hne Hwf Hfuel Hend Hskip Hs; [done|].
  apply Forall_cons in IH as [IHv IH]. change (reads_back v) in IHv.
  change (forallb _ _) with (well_formed v && forallb (λ kv, well_formed kv.2) items)
    in Hwf.
  change (list_sum _)
    with (S (weight v) + list_sum (map (λ kv, S (weight kv.2)) items))%nat in Hfuel.
  apply andb_true_iff in Hwf as [Hwfv Hwf].
  destruct fuel as [|fuel]; [lia|]. rewrite parse_pairs_S.
  destruct items as [|kv' items'].
  - change (join ?sep (map ?f [(k, v)])) with (f (k, v)) in Hs. cbv beta in Hs.
    rewrite pair_shape in Hs. injection Hs as ->.
    rewrite scanstring_escape.
    change (skip_ws (String ":" ?t)) with (String ":" t). cbv beta iota.
    change (skip_ws (String " " ?t)) with (skip_ws t).
    rewrite skip_ws_value by apply value_start_iterencode.
    rewrite (IHv level fuel tail); [|done|lia|done]. by rewrite Hskip.
  - destruct (pairs_start level (kv' :: items') tail) as [s' Hs']; [done|].
    change (join ?sep (map ?f ((k, v) :: kv' :: items')))
      with (f (k, v) ++ sep ++ join sep (map f (kv' :: items'))) in Hs.
    cbv beta in Hs.
    rewrite append_assoc, pair_shape, !append_assoc, Hs' in Hs. injection Hs as ->.
    rewrite scanstring_escape.
    change (skip_ws (String ":" ?t)) with (String ":" t). cbv beta iota.
    change (skip_ws (String " " ?t)) with (skip_ws t).
    rewrite skip_ws_value by apply value_start_iterencode.
    rewrite (IHv level fuel); [|done|lia|done].
    rewrite append_cons, append_nil_l.
    change (skip_ws (String "," ?t)) with (String "," t). cbv beta iota.
    rewrite skip_ws_newline_indent.
    change (skip_ws (String DQ s')) with (String DQ s').
    cbv beta iota. change (Ascii.eqb DQ DQ) with true. cbv beta iota.
    rewrite (IHitems fuel tail after s'); try done. lia.
Qed.

Lemma scan_once_null fuel rest : scan_once (S fuel) ("null" ++ rest) = Some (VNone, rest).
Proof. reflexivity. Qed.

Lemma scan_once_true fuel rest :
  scan_once (S fuel) ("true" ++ rest) = Some (VBool true, rest).
Proof. reflexivity. Qed.

Lemma scan_once_false fuel rest :
  scan_once (S fuel) ("false" ++ rest) = Some (VBool false, rest).
Proof. reflexivity. Qed.

Lemma forallb_Forall_well_formed xs :
  forallb well_formed xs = true → Forall (λ x, well_formed x = true) xs.
Proof. intros H. apply Forall_forall. intros x Hx. rewrite forallb_forall in H. by apply H, list_elem_of_In. Qed.

(** What [json.dumps] writes for a well-formed value, [scan_once] reads
    back as that value, given fuel for its depth. *)
Lemma reads_back_all v : reads_back v.
Proof.
  induction v as [|b|n|s|xs IH|items IH] using Value_nested_ind;
    intros level fuel rest Hwf Hfuel Hend;
    (destruct fuel as [|fuel]; [simpl in Hfuel; lia|]).
  - apply scan_once_null.
  - destruct b; [apply scan_once_true|apply scan_once_false].
  - by apply scan_once_int.
  - simpl iterencode. unfold encode_basestring_ascii.
    rewrite append_cons, append_assoc, append_cons, append_nil_l.
    by rewrite scan_once_str, scanstring_escape.
  - destruct xs as [|x xs]; [reflexivity|].
    change (iterencode level (VList (x :: xs)))
      with ("[" ++ newline_indent (S level)
            ++ join ("," ++ newline_indent (S level))
                 (map (iterencode (S level)) (x :: xs))
            ++ newline_indent level ++ "]").
    rewrite !append_assoc, append_cons, append_nil_l.
    assert (value_start (join ("," ++ newline_indent (S level))
                           (map (iterencode (S level)) (x :: xs))
                         ++ newline_indent level ++ "]" ++ rest) = true) as Hstart.
    { destruct xs as [|x' xs']; [apply value_start_iterencode|].
      change (join ?sep (map ?f (x :: x' :: xs')))
        with (f x ++ sep ++ join sep (map f (x' :: xs'))).
      rewrite append_assoc. apply value_start_iterencode. }
    change (well_formed (VList (x :: xs))) with (forallb well_formed (x :: xs)) in Hwf.
    change (weight (VList (x :: xs)))
      with (S (list_sum (map (λ x, S (weight x)) (x :: xs)))) in Hfuel.
    rewrite scan_once_list; rewrite skip_ws_newline_indent, (skip_ws_value _ Hstart);
      [|done].
    rewrite (parse_values_join (S level) (x :: xs) fuel _ rest); try done.
    + lia.
    + rewrite skip_ws_newline_indent. reflexivity.
  - destruct items as [|kv items]; [reflexivity|].
    change (iterencode level (VDict (kv :: items)))
      with ("{" ++ newline_indent (S level)
            ++ join ("," ++ newline_indent (S level))
                 (map (λ kv, encode_basestring_ascii kv.1 ++ ": "
                             ++ iterencode (S level) kv.2) (kv :: items))
            ++ newline_indent level ++ "}").
    rewrite !append_assoc, append_cons, append_nil_l.
    destruct (pairs_start (S level) (kv :: items)
                (newline_indent level ++ "}" ++ rest)) as [s1 Hs1]; [done|].
    change (well_formed (VDict (kv :: items)))
      with (bool_decide (NoDup (map fst (kv :: items)))
            && forallb (λ kv, well_formed kv.2) (kv :: items)) in Hwf.
    apply andb_true_iff in Hwf as [Hnd Hwf]. apply bool_decide_eq_true in Hnd.
    change (weight (VDict (kv :: items)))
      with (S (list_sum (map (λ kv, S (weight kv.2)) (kv :: items)))) in Hfuel.
    rewrite (scan_once_dict fuel _ s1).
    + rewrite (parse_pairs_join (S level) (kv :: items) fuel
                 (newline_indent level ++ "}" ++ rest) rest s1); try done.
      * by rewrite dict_of_pairs_NoDup.
      * lia.
      * rewrite skip_ws_newline_indent. reflexivity.
    + rewrite skip_ws_newline_indent, Hs1. reflexivity.
Qed.

#[local] Transparent newline_indent.

(** ** The fuel [json_loads] starts with is enough *)

Lemma length_append (a b : string) :
  String.length (a ++ b) = (String.length a + String.length b)%nat.
Proof. induction a as [|c a IH]; [done|]. rewrite append_cons. simpl. by rewrite IH. Qed.

Lemma join_weight (enc : Value → string) sep xs :
  Forall (λ x, (weight x ≤ String.length (enc x))%nat) xs →
  (1 ≤ String.length sep)%nat →
  (list_sum (map (λ x, S (weight x)) xs) ≤ S (String.length (join sep (map enc xs))))%nat.
Proof.
  intros IH Hsep. induction xs as [|x xs IHxs]; [simpl; lia|].
  apply Forall_cons in IH as [IHx IH]. specialize (IHxs IH).
  destruct xs as [|x' xs'].
  - simpl in *. lia.
  - change (join sep (map enc (x :: x' :: xs')))
      with (enc x ++ sep ++ join sep (map enc (x' :: xs'))).
    rewrite !length_append.
    change (list_sum (map (λ x, S (weight x)) (x :: x' :: xs')))
      with (S (weight x) + list_sum (map (λ x, S (weight x)) (x' :: xs')))%nat.
    lia.
Qed.

Lemma join_weight_pairs (enc : string * Value → string) sep items :
  Forall (λ kv, (weight kv.2 ≤ String.length (enc kv))%nat) items →
  (1 ≤ String.length sep)%nat →
  (list_sum (map (λ kv, S (weight kv.2)) items)
   ≤ S (String.length (join sep (map enc items))))%nat.
Proof.
  intros IH Hsep. induction items as [|x xs IHxs]; [simpl; lia|].
  apply Forall_cons in IH as [IHx IH]. specialize (IHxs IH).
  destruct xs as [|x' xs'].
  - simpl in *. lia.
  - change (join sep (map enc (x :: x' :: xs')))
      with (enc x ++ sep ++ join sep (map enc (x' :: xs'))).
    rewrite !length_append.
    change (list_sum (map (λ kv, S (weight kv.2)) (x :: x' :: xs')))
      with (S (weight x.2) + list_sum (map (λ kv, S (weight kv.2)) (x' :: xs')))%nat.
    lia.
Qed.

Lemma weight_le_length v : ∀ level, (weight v ≤ String.length (iterencode level v))%nat.
Proof.
  induction v as [|b|n|s|xs IH|items IH] using Value_nested_ind; intros level.
  - simpl. lia.
  - destruct b; simpl; lia.
  - simpl. destruct (repr_int_head n) as (c & s & -> & _). simpl. lia.
  - simpl. lia.
  - destruct xs as [|x xs]; [simpl; lia|].
    change (iterencode level (VList (x :: xs)))
      with ("[" ++ newline_indent (S level)
            ++ join ("," ++ newline_indent (S level))
                 (map (iterencode (S level)) (x :: xs))
            ++ newline_indent level ++ "]").
    change (weight (VList (x :: xs)))
      with (S (list_sum (map (λ x, S (weight x)) (x :: xs)))).
    rewrite !length_append.
    pose proof (join_weight (iterencode (S level)) ("," ++ newline_indent (S level))
                  (x :: xs)) as Hj.
    change (String.length "[") with 1%nat. change (String.length "]") with 1%nat.
    assert (Forall (λ x, (weight x ≤ String.length (iterencode (S level) x))%nat)
              (x :: xs)) as Hall.
    { eapply Forall_impl; [exact IH|]. intros y Hy. apply Hy. }
    specialize (Hj Hall). rewrite length_append in Hj.
    change (String.length ",") with 1%nat in Hj. lia.
  - destruct items as [|kv items]; [simpl; lia|].
    change (iterencode level (VDict (kv :: items)))
      with ("{" ++ newline_indent (S level)
            ++ join ("," ++ newline_indent (S level))
                 (map (λ kv, encode_basestring_ascii kv.1 ++ ": "
                             ++ iterencode (S level) kv.2) (kv :: items))
            ++ newline_indent level ++ "}").
    change (weight (VDict (kv :: items)))
      with (S (list_sum (map (λ kv, S (weight kv.2)) (kv :: items)))).
    rewrite !length_append.
    pose proof (join_weight_pairs
                  (λ kv, encode_basestring_ascii kv.1 ++ ": "
                         ++ iterencode (S level) kv.2)
                  ("," ++ newline_indent (S level)) (kv :: items)) as Hj.
    change (String.length "{") with 1%nat. change (String.length "}") with 1%nat.
    assert (Forall (λ kv : string * Value,
              (weight kv.2 ≤ String.length (encode_basestring_ascii kv.1 ++ ": "
                                            ++ iterencode (S level) kv.2))%nat)
              (kv :: items)) as Hall.
    { eapply Forall_impl; [exact IH|]. intros y Hy. simpl.
      rewrite !length_append. specialize (Hy (S level)). lia. }
    specialize (Hj Hall). rewrite length_append in Hj.
    change (String.length ",") with 1%nat in Hj. lia.
Qed.

(** Writing a well-formed structure and reading the text back gives the
    structure. *)
Lemma loads_dumps v : well_formed v = true → json_loads (json_dumps v) = Some v.
Proof.
  intros Hwf. unfold json_loads, json_dumps.
  pose proof (value_start_iterencode 0 v "") as Hstart. rewrite append_nil_r in Hstart.
  rewrite (skip_ws_value _ Hstart).
  pose proof (reads_back_all v 0%nat (S (String.length (iterencode 0 v))) "" Hwf) as Hscan.
  rewrite append_nil_r in Hscan. rewrite Hscan; [done| |done].
  pose proof (weight_le_length v 0). lia.
Qed.

(** ** The bound on the scanner *)

(** The scanner's result does not depend on its bound once the bound
    covers the characters it reads: [json_loads] never stops short. *)

Lemma scan_once_S fuel s :
  scan_once (S fuel) s
  = match s with
    | "" => None
    | String c rest =>
        if Ascii.eqb c DQ then
          match scanstring rest with
          | Some (text, after) => Some (VStr text, after)
          | None => None
          end
        else if Ascii.eqb c "{" then
          match skip_ws rest with
          | "" => None
          | String c' after =>
              if Ascii.eqb c' "}" then Some (VDict [], after)
              else if Ascii.eqb c' DQ then
                match parse_pairs fuel after with
                | Some (pairs, after') => Some (VDict (dict_of_pairs pairs), after')
                | None => None
                end
              else None
          end
        else if Ascii.eqb c "[" then
          match skip_ws rest with
          | "" => None
          | String c' after =>
              if Ascii.eqb c' "]" then Some (VList [], after)
              else
                match parse_values fuel (String c' after) with
                | Some (values, after') => Some (VList values, after')
                | None => None
                end
          end
        else if starts_with "null" s then Some (VNone, drop 4 s)
        else if starts_with "true" s then Some (VBool true, drop 4 s)
        else if starts_with "false" s then Some (VBool false, drop 5 s)
        else
          match match_integer s with
          | Some (text, after) =>
              if float_follows after then None
              else
                match parse_int text with
                | Some n => Some (VInt n, after)
                | None => None
                end
          | None => None
          end
    end.
Proof. reflexivity. Qed.

Lemma skip_ws_length s : (String.length (skip_ws s) ≤ String.length s)%nat.
Proof. induction s as [|c s IH]; simpl; [lia|]. destruct (is_ws c); simpl; lia. Qed.

Lemma scanstring_length s :
  ∀ t r, scanstring s = Some (t, r) → (String.length r < String.length s)%nat.
Proof.
  remember (String.length s) as n eqn:Hn.
  assert (Hle : (String.length s ≤ n)%nat) by lia. clear Hn.
  revert s Hle. induction n as [|n IH]; intros s Hle t r H.
  - destruct s; simpl in *; [done|lia].
  - destruct s as [|c rest]; [done|]. simpl in H, Hle.
    repeat case_match; simplify_eq; simpl in *;
      try lia;
      match goal with
      | E : scanstring ?x = Some (_, ?r) |- _ =>
          apply IH in E; simpl in *; lia
      end.
Qed.

Lemma span_digits_length s :
  (String.length (span_digits s).2 ≤ String.length s)%nat.
Proof.
  induction s as [|c s IH]; simpl; [lia|].
  destruct (is_digit c); simpl; [|lia].
  destruct (span_digits s); simpl in *; lia.
Qed.

Lemma match_integer_length s t r :
  match_integer s = Some (t, r) → (String.length r < String.length s)%nat.
Proof.
  unfold match_integer. intros H.
  repeat case_match; simplify_eq; simpl in *; try lia;
    match goal with
    | E : span_digits ?x = (_, ?r) |- _ =>
        pose proof (span_digits_length x) as Hl; rewrite E in Hl; simpl in Hl; lia
    end.
Qed.

Lemma drop_length n s :
  (n ≤ String.length s)%nat →
  (String.length (drop n s) + n = String.length s)%nat.
Proof.
  revert s. induction n as [|n IH]; intros s H; simpl; [lia|].
  destruct s; simpl in *; [lia|]. specialize (IH s). lia.
Qed.

Lemma starts_with_length p s :
  starts_with p s = true → (String.length p ≤ String.length s)%nat.
Proof.
  revert s. induction p as [|a p IH]; intros s H; simpl in *; [lia|].
  destruct s; [done|]. apply andb_true_iff in H as [_ H]. apply IH in H. simpl. lia.
Qed.

Ltac same_branch :=
  repeat match goal with
  | E : ?t = ?v |- context [?t] =>
      lazymatch v with context [t] => fail | _ => rewrite E end
  end.

Lemma scanner_bound_free fuel :
  bound_free scan_once fuel ∧ bound_free parse_pairs fuel ∧ bound_free parse_values fuel.
Proof.
  unfold bound_free, consumed.
  induction fuel as [|fuel (IHs & IHp & IHv)]; [done|].
  split_and!; intros s x rest H.
  - rewrite scan_once_S in H.
    destruct s as [|c s0]; [done|].
    destruct (Ascii.eqb c DQ) eqn:E1.
    { destruct (scanstring s0) as [[text after]|] eqn:E2; [|done].
      injection H as <- <-. apply scanstring_length in E2 as Hl.
      split; [simpl; lia|]. intros [|f] Hf; [simpl in Hf; lia|].
      rewrite scan_once_S. by same_branch. }
    destruct (Ascii.eqb c "{") eqn:E2.
    { pose proof (skip_ws_length s0) as Hw.
      destruct (skip_ws s0) as [|c' after] eqn:E3; [done|].
      destruct (Ascii.eqb c' "}") eqn:E4.
      { injection H as <- <-. simpl in *. split; [lia|].
        intros [|f] Hf; [lia|]. rewrite scan_once_S. by same_branch. }
      destruct (Ascii.eqb c' DQ) eqn:E5; [|done].
      destruct (parse_pairs fuel after) as [[pairs after']|] eqn:E6; [|done].
      injection H as <- <-. apply IHp in E6 as [Hl Hk]. simpl in *.
      split; [lia|]. intros [|f] Hf; [lia|].
      rewrite scan_once_S. same_branch. rewrite Hk; [done|lia]. }
    destruct (Ascii.eqb c "[") eqn:E3.
    { pose proof (skip_ws_length s0) as Hw.
      destruct (skip_ws s0) as [|c' after] eqn:E4; [done|].
      destruct (Ascii.eqb c' "]") eqn:E5.
      { injection H as <- <-. simpl in *. split; [lia|].
        intros [|f] Hf; [lia|]. rewrite scan_once_S. by same_branch. }
      destruct (parse_values fuel (String c' after)) as [[values after']|] eqn:E6; [|done].
      injection H as <- <-. apply IHv in E6 as [Hl Hk]. simpl in *.
      split; [lia|]. intros [|f] Hf; [lia|].
      rewrite scan_once_S. same_branch. rewrite Hk; [done|lia]. }
    destruct (starts_with "null" (String c s0)) eqn:E4.
    { injection H as <- <-. apply starts_with_length in E4 as Hl.
      pose proof (drop_length 4 (String c s0)) as Hd. simpl in Hl, Hd.
      split; [simpl; lia|]. intros [|f] Hf; [simpl in Hf; lia|].
      rewrite scan_once_S. by same_branch. }
    destruct (starts_with "true" (String c s0)) eqn:E5.
    { injection H as <- <-. apply starts_with_length in E5 as Hl.
      pose proof (drop_length 4 (String c s0)) as Hd. simpl in Hl, Hd.
      split; [simpl; lia|]. intros [|f] Hf; [simpl in Hf; lia|].
      rewrite scan_once_S. by same_branch. }
    destruct (starts_with "false" (String c s0)) eqn:E6.
    { injection H as <- <-. apply starts_with_length in E6 as Hl.
      pose proof (drop_length 5 (String c s0)) as Hd. simpl in Hl, Hd.
      split; [simpl; lia|]. intros [|f] Hf; [simpl in Hf; lia|].
      rewrite scan_once_S. by same_branch. }
    destruct (match_integer (String c s0)) as [[text after]|] eqn:E7; [|done].
    destruct (float_follows after) eqn:E8; [done|].
    destruct (parse_int text) as [n|] eqn:E9; [|done].
    injection H as <- <-. apply match_integer_length in E7 as Hl.
    split; [done|]. intros [|f] Hf; [lia|].
    rewrite scan_once_S. by same_branch.
  - rewrite parse_pairs_S in H.
    destruct (scanstring s) as [[key s1]|] eqn:E1; [|done].
    apply scanstring_length in E1 as Hl1.
    pose proof (skip_ws_length s1) as Hw1.
    destruct (skip_ws s1) as [|c1 s2] eqn:E2; [done|].
    destruct (Ascii.eqb c1 ":") eqn:E3; [|done].
    pose proof (skip_ws_length s2) as Hw2.
    destruct (scan_once fuel (skip_ws s2)) as [[value s3]|] eqn:E4; [|done].
    apply IHs in E4 as [Hl4 Hk4].
    pose proof (skip_ws_length s3) as Hw3.
    destruct (skip_ws s3) as [|c3 s4] eqn:E5; [done|].
    destruct (Ascii.eqb c3 "}") eqn:E6.
    { injection H as <- <-. simpl in *. split; [lia|].
      intros [|f] Hf; [lia|]. rewrite parse_pairs_S. same_branch.
      rewrite Hk4; [|lia]. by same_branch. }
    destruct (Ascii.eqb c3 ",") eqn:E7; [|done].
    pose proof (skip_ws_length s4) as Hw4.
    destruct (skip_ws s4) as [|c5 s5] eqn:E8; [done|].
    destruct (Ascii.eqb c5 DQ) eqn:E9; [|done].
    destruct (parse_pairs fuel s5) as [[more after]|] eqn:E10; [|done].
    injection H as <- <-. apply IHp in E10 as [Hl10 Hk10]. simpl in *.
    split; [lia|]. intros [|f] Hf; [lia|]. rewrite parse_pairs_S. same_branch.
    rewrite Hk4; [|lia]. same_branch. rewrite Hk10; [done|lia].
  - rewrite parse_values_S in H.
    destruct (scan_once fuel s) as [[value s1]|] eqn:E1; [|done].
    apply IHs in E1 as [Hl1 Hk1].
    pose proof (skip_ws_length s1) as Hw1.
    destruct (skip_ws s1) as [|c1 s2] eqn:E2; [done|].
    destruct (Ascii.eqb c1 "]") eqn:E3.
    { injection H as <- <-. simpl in *. split; [lia|].
      intros [|f] Hf; [lia|]. rewrite parse_values_S.
      rewrite Hk1; [|lia]. by same_branch. }
    destruct (Ascii.eqb c1 ",") eqn:E4; [|done].
    pose proof (skip_ws_length s2) as Hw2.
    destruct (parse_values fuel (skip_ws s2)) as [[more after]|] eqn:E5; [|done].
    injection H as <- <-. apply IHv in E5 as [Hl5 Hk5]. simpl in *.
    split; [lia|]. intros [|f] Hf; [lia|]. rewrite parse_values_S.
    rewrite Hk1; [|lia]. same_branch. rewrite Hk5; [done|lia].
Qed.

(** Whatever bound lets the scanner read a whole document, the bound of
    [json_loads] gives the same value: it fails on a text only if every
    bound does. *)
Lemma json_loads_any_bound fuel text obj after :
  scan_once fuel (skip_ws text) = Some (obj, after) →
  skip_ws after = "" →
  json_loads text = Some obj.
Proof.
  intros H Ha. apply scanner_bound_free in H as [Hl Hk].
  unfold json_loads. rewrite Hk, ?Ha; [done|].
  unfold consumed. pose proof (skip_ws_length text). lia.
Qed.

Lemma json_loads_iff text obj :
  json_loads text = Some obj ↔
  ∃ fuel after, scan_once fuel (skip_ws text) = Some (obj, after) ∧ skip_ws after = "".
Proof.
  split.
  - unfold json_loads. intros H.
    destruct (scan_once _ _) as [[obj' after]|] eqn:E; [|done].
    destruct (skip_ws after) eqn:Ea; [|done]. injection H as <-. eauto.
  - intros (fuel & after & H & Ha). by eapply json_loads_any_bound.
Qed.

(* ===================================================================== *)
(** * Save, then load *)
(* ===================================================================== *)

(** Saving, case by case: what is written is [json.dumps] of the
    structure; an exception from [open] is not caught. *)
Lemma save_json_run file_path app :
  file_path ≠ "" →
  save_json file_path app =
  match locate (world app) (Path_of file_path) with
  | inl e => (app, inl e)
  | inr loc =>
      match stat (world app) loc with
      | Some Dir => (app, inl IsADirectoryError)
      | _ =>
          (mkApp (mkDesigner (project_structure (designer app))
                    (tree_view (designer app))
                    ("Structure saved to: " ++ file_path)
                    (dialogs (designer app)))
             (written (world app) loc (json_dumps (project_structure (designer app)))),
           inr tt)
      end
  end.
Proof.
  intros Hne. unfold save_json. rewrite (String_eqb_false _ Hne).
  pose proof (open_write_run (Path_of file_path)
                (json_dumps (project_structure (designer app))) (world app)) as Hrun.
  unfold bind, get_structure, lift in *.
  destruct (open_w (Path_of file_path) (world app)) as [w1 [e|f]].
  - destruct (locate (world app) (Path_of file_path)) as [e'|loc].
    + injection Hrun as -> ->. by destruct app.
    + destruct (stat (world app) loc) as [[|?]|]; try done.
      injection Hrun as -> ->. by destruct app.
  - simpl. destruct (f_write f _ w1) as [w2 [e|[]]].
    + destruct (locate (world app) (Path_of file_path)) as [e'|loc].
      * injection Hrun as -> ->. by destruct app.
      * destruct (stat (world app) loc) as [[|?]|]; try done.
        injection Hrun as -> ->. by destruct app.
    + destruct (locate (world app) (Path_of file_path)) as [e'|loc]; [done|].
      destruct (stat (world app) loc) as [[|?]|]; try done; by injection Hrun as ->.
Qed.

(** What was written is what is read. *)
Lemma read_written p w loc text :
  locate w p = inr loc → stat w loc ≠ Some Dir →
  read_text p (written w loc text) = (written w loc text, inr text).
Proof.
  intros Hl Hs. rewrite read_text_run.
  rewrite (locate_extends w (written w loc text) p loc (extends_written w loc text Hs) Hl).
  assert (loc ≠ []) as Hne by (intros ->; done).
  rewrite (stat_files _ _ Hne). simpl. by rewrite lookup_insert_eq.
Qed.

(** C5.  When the editor saves a well-formed structure to a file and the
    save goes through, loading that file afterwards, from whatever state
    the editor is in, succeeds without an error box and makes the saved
    structure the structure of the editor: the same value, key by key,
    level by level and leaf by leaf. *)
Theorem save_then_load file_path app app1 :
  file_path ≠ "" →
  well_formed (project_structure (designer app)) = true →
  save_json file_path app = (app1, inr tt) →
  json_loads (json_dumps (project_structure (designer app)))
  = Some (project_structure (designer app)) ∧
  ∀ d,
    load_json file_path (mkApp d (world app1))
    = (loaded (mkApp d (world app1)) file_path (project_structure (designer app)),
       inr tt)
    ∧ project_structure (designer (load_json file_path (mkApp d (world app1))).1)
      = project_structure (designer app)
    ∧ dialogs (designer (load_json file_path (mkApp d (world app1))).1) = dialogs d.
Proof.
  intros Hne Hwf Hsave.
  pose proof (loads_dumps _ Hwf) as Hrt. split; [done|]. intros d.
  rewrite (save_json_run _ _ Hne) in Hsave.
  destruct (locate (world app) (Path_of file_path)) as [e|loc] eqn:Hl; [done|].
  assert (stat (world app) loc ≠ Some Dir
          ∧ world app1 = written (world app) loc
                           (json_dumps (project_structure (designer app))))
    as [Hs Hw].
  { destruct (stat (world app) loc) as [[|?]|]; [done|..];
      injection Hsave as <-; by split. }
  assert (load_json file_path (mkApp d (world app1))
          = (loaded (mkApp d (world app1)) file_path (project_structure (designer app)),
             inr tt)) as Hload.
  { eapply load_json_parsed; [done| |exact Hrt].
    simpl. rewrite Hw. by apply read_written. }
  by rewrite Hload.
Qed.

Lemma save_then_load_example :
  json_loads (json_dumps (project_structure (designer example_app)))
  = Some (project_structure (designer example_app)) ∧
  ∀ d,
    load_json "/tmp/x/saved.json"
      (mkApp d (world (save_json "/tmp/x/saved.json" example_app).1))
    = (loaded (mkApp d (world (save_json "/tmp/x/saved.json" example_app).1))
         "/tmp/x/saved.json" (project_structure (designer example_app)),
       inr tt)
    ∧ project_structure
        (designer (load_json "/tmp/x/saved.json"
                     (mkApp d (world (save_json "/tmp/x/saved.json" example_app).1))).1)
      = project_structure (designer example_app)
    ∧ dialogs
        (designer (load_json "/tmp/x/saved.json"
                     (mkApp d (world (save_json "/tmp/x/saved.json" example_app).1))).1)
      = dialogs d.
Proof.
  apply (save_then_load "/tmp/x/saved.json" example_app).
  - discriminate.
  - reflexivity.
  - vm_compute. reflexivity.
Defined.

(** The structure the editor starts with is well formed and valid: it
    survives saving and loading, and it materializes key by key. *)
Example sample_round_trip :
  well_formed sample_structure = true
  ∧ valid sample_structure = true
  ∧ json_loads (json_dumps sample_structure) = Some sample_structure.
Proof. split_and!; vm_compute; reflexivity. Qed.

(* ===================================================================== *)
(** * The tree view *)
(* ===================================================================== *)

(** X1.  The tree view has one row for each key of the structure, in the
    order of the keys and under the same names from the top down; a row
    is a folder exactly when the value of its key is a mapping.  So a
    key whose value is [None], which [_create] makes a directory, is
    shown as a file. *)
Theorem tree_view_rows structure :
  rows (_add_tree_node structure) = key_kinds structure
  ∧ map fst (rows (_add_tree_node structure)) = key_paths structure
  ∧ ∀ name items, structure = VDict items → (name, VNone) ∈ items →
      ([name], false) ∈ rows (_add_tree_node structure)
      ∧ ∀ base, create_item base name VNone
                = (Path_mkdir (base / name)%path >>
                   print ("Created directory: " ++ Path_str (base / name)%path) >>
                   _create (base / name)%path VNone).
Proof.
  assert (Hrows : ∀ v, rows (_add_tree_node v) = key_kinds v).
  { induction v as [|?|?|?|? _|items IH] using Value_nested_ind; try done.
    induction items as [|[k child] items IHitems]; [done|].
    apply Forall_cons in IH as [IHchild IH]. specialize (IHitems IH).
    simpl in *. unfold rows in *. simpl.
    destruct child; simpl in *; try by rewrite IHitems.
    rewrite IHitems. do 2 f_equal. by rewrite <- IHchild. }
  assert (Hkeys : ∀ v, map fst (key_kinds v) = key_paths v).
  { induction v as [|?|?|?|? _|items IH] using Value_nested_ind; try done.
    induction items as [|[k child] items IHitems]; [done|].
    apply Forall_cons in IH as [IHchild IH]. specialize (IHitems IH).
    simpl in *. rewrite map_app, IHitems. do 2 f_equal.
    rewrite <- IHchild, !map_map. done. }
  split_and!.
  - apply Hrows.
  - by rewrite Hrows, Hkeys.
  - intros name items -> Hin. split; [|intros base; by apply dir_item_unfold].
    rewrite Hrows. simpl.
    apply list_elem_of_In, in_flat_map. exists (name, VNone).
    split; [by apply list_elem_of_In|]. simpl. by left.
Qed.

(* ===================================================================== *)
(** * From a JSON file to the disk *)
(* ===================================================================== *)

(** X2.  [create_from_json] creates nothing unless the file was read and
    parsed: when the file cannot be read, or its text is not JSON, the
    exception goes to the caller and the world is as it was, with
    nothing printed; when the text parses, the run is that of
    [create_structure] on the value parsed. *)
Theorem create_from_json_cases json_path target_dir w :
  (∀ w' e, read_text (Path_of json_path) w = (w', inl e) →
     create_from_json json_path target_dir w = (w, inl e)) ∧
  (∀ w' text, read_text (Path_of json_path) w = (w', inr text) →
     json_loads text = None →
     create_from_json json_path target_dir w = (w, inl JSONDecodeError)) ∧
  (∀ w' text structure, read_text (Path_of json_path) w = (w', inr text) →
     json_loads text = Some structure →
     create_from_json json_path target_dir w = create_structure target_dir structure w) ∧
  (∀ w1 e, create_from_json json_path target_dir w = (w1, inl e) →
     w1 = w ∨ ∃ text structure,
       read_text (Path_of json_path) w = (w, inr text) ∧
       json_loads text = Some structure ∧
       create_structure target_dir structure w = (w1, inl e)).
Proof.
  pose proof (read_text_still (Path_of json_path) w) as Hstill.
  unfold create_from_json, json_load, bind.
  destruct (read_text (Path_of json_path) w) as [w0 [e0|text0]] eqn:Hread;
    simpl in Hstill; subst w0.
  - split_and!; try done.
    + by intros w' e [= _ <-].
    + intros w1 e [= <- _]. by left.
  - split_and!; try done.
    + intros w' text [= _ <-] ->. done.
    + intros w' text structure [= _ <-] ->. done.
    + intros w1 e. destruct (json_loads text0) as [v|] eqn:Hv.
      * intros H. right. by exists text0, v.
      * intros [= <- _]. by left.
Qed.

(* ===================================================================== *)
(** * What the materializer never does *)
(* ===================================================================== *)

Lemma create_structure_extends base_dir structure w w1 r :
  create_structure base_dir structure w = (w1, r) → extends w w1.
Proof.
  apply (keeps_create_structure extends extends_refl extends_trans extends_with_line).
  - intros w' p loc ev _ Hs <-. by apply extends_with_entry.
  - intros w' loc old text Hs. apply (extends_with_content w' loc old).
    rewrite <- stat_files; [done|]. by intros ->.
Qed.

(** X3.  Whatever the structure and however the run ends, [create_structure]
    removes nothing: every entry that was on disk is on disk afterwards,
    a directory as a directory and a file as a file, and the working
    directory is the same. *)
Theorem create_structure_removes_nothing base_dir structure w :
  extends w (create_structure base_dir structure w).1.
Proof.
  destruct (create_structure base_dir structure w) as [w1 r] eqn:Hrun. simpl.
  by eapply create_structure_extends.
Qed.

(* ===================================================================== *)
(** * What is printed *)
(* ===================================================================== *)

Lemma Path_mkdir_quiet p w w1 r : Path_mkdir p w = (w1, r) → stdout w1 = stdout w.
Proof.
  apply (keeps_Path_mkdir (λ w w1, stdout w1 = stdout w)); [done| |done].
  intros ??? -> ->. done.
Qed.

Lemma open_write_quiet p text w w1 r :
  (let* f := open_w p in f_write f text) w = (w1, r) → stdout w1 = stdout w.
Proof.
  apply (keeps_open_write (λ w w1, stdout w1 = stdout w)); [done| |done|done].
  intros ??? -> ->. done.
Qed.

Lemma Path_touch_quiet p w w1 r : Path_touch p w = (w1, r) → stdout w1 = stdout w.
Proof. apply (keeps_Path_touch (λ w w1, stdout w1 = stdout w)); done. Qed.

Lemma leaf_item_unfold base name child :
  is_dict child || is_none child = false →
  create_item base name child
  = ((let* f := open_w (base / name)%path in f_write f (py_str child)) >>
     print ("Created file: " ++ Path_str (base / name)%path)).
Proof. by destruct child. Qed.

Lemma _create_prints content : ∀ base w w1 r,
  _create base content w = (w1, r) →
  ∃ lines, stdout w1 = (stdout w ++ lines)%list
           ∧ lines `prefix_of` report base content
           ∧ (r = inr tt → lines = report base content).
Proof.
  induction content as [|?|?|s|? _|items IH] using Value_nested_ind; intros base w w1 r.
  - intros [= <- <-]. exists []. by rewrite app_nil_r.
  - intros [= <- <-]. exists []. by rewrite app_nil_r.
  - intros [= <- <-]. exists []. by rewrite app_nil_r.
  - simpl. unfold bind.
    destruct (Path_touch (base / s)%path w) as [wa [e|[]]] eqn:Ha;
      apply Path_touch_quiet in Ha.
    + intros [= <- <-]. exists []. rewrite app_nil_r. split_and!; [done| |done].
      apply prefix_nil.
    + intros [= <- <-]. eexists. simpl. rewrite Ha. done.
  - intros [= <- <-]. exists []. by rewrite app_nil_r.
  - revert w. induction items as [|[k child] items IHitems]; intros w.
    { rewrite _create_nil. intros [= <- <-]. exists []. by rewrite app_nil_r. }
    apply Forall_cons in IH as [IHchild IH]. specialize (IHitems IH).
    simpl in IHchild. rewrite _create_cons.
    change (report base (VDict ((k, child) :: items)))
      with ((if is_dict child || is_none child
             then ("Created directory: " ++ Path_str (base / k)%path)%string
                  :: report (base / k)%path child
             else [("Created file: " ++ Path_str (base / k)%path)%string])
            ++ report base (VDict items))%list.
    destruct (is_dict child || is_none child) eqn:Hkind.
    + rewrite (dir_item_unfold _ _ _ Hkind). unfold bind at 1 2 3.
      destruct (Path_mkdir (base / k)%path w) as [wa [e|[]]] eqn:Ha;
        apply Path_mkdir_quiet in Ha.
      { intros [= <- <-]. exists []. rewrite app_nil_r.
        split_and!; [done|apply prefix_nil|done]. }
      unfold print at 1.
      destruct (_create (base / k)%path child (with_line wa _)) as [wb [e|[]]] eqn:Hb;
        apply IHchild in Hb as (lc & Hc1 & Hc2 & Hc3); simpl in Hc1; rewrite Ha in Hc1.
      { intros [= <- <-]. eexists (_ :: lc). rewrite Hc1, <- app_assoc.
        split_and!; [done| |done].
        apply prefix_app_r, (prefix_cons _ _ _ Hc2). }
      intros Hrest. apply IHitems in Hrest as (lr & Hr1 & Hr2 & Hr3).
      specialize (Hc3 eq_refl). subst lc.
      eexists ((_ :: report (base / k)%path child) ++ lr)%list.
      rewrite Hr1, Hc1, <- !app_assoc. simpl. split_and!; [done| |].
      * apply (prefix_app (_ :: _)), Hr2.
      * intros Hok. by rewrite (Hr3 Hok).
    + rewrite (leaf_item_unfold _ _ _ Hkind). unfold bind at 1 2.
      destruct ((let* f := open_w (base / k)%path in f_write f (py_str child)) w)
        as [wa [e|[]]] eqn:Ha; apply open_write_quiet in Ha.
      { intros [= <- <-]. exists []. rewrite app_nil_r.
        split_and!; [done|apply prefix_nil|done]. }
      unfold print at 1.
      intros Hrest. apply IHitems in Hrest as (lr & Hr1 & Hr2 & Hr3).
      simpl in Hr1. rewrite Ha in Hr1.
      eexists (_ :: lr). rewrite Hr1, <- app_assoc. simpl. split_and!; [done| |].
      * apply (prefix_app [_]), Hr2.
      * intros Hok. by rewrite (Hr3 Hok).
Qed.

Lemma report_length content : ∀ base,
  is_dict content || is_none content = true →
  length (report base content) = length (key_paths content).
Proof.
  induction content as [|?|?|?|? _|items IH] using Value_nested_ind;
    intros base Hkind; try done.
  clear Hkind. induction items as [|[k child] items IHitems]; [done|].
  apply Forall_cons in IH as [IHchild IH]. specialize (IHitems IH).
  change (report base (VDict ((k, child) :: items)))
    with ((if is_dict child || is_none child
           then ("Created directory: " ++ Path_str (base / k)%path)%string
                :: report (base / k)%path child
           else [("Created file: " ++ Path_str (base / k)%path)%string])
          ++ report base (VDict items))%list.
  change (key_paths (VDict ((k, child) :: items)))
    with (([k] :: map (cons k) (key_paths child)) ++ key_paths (VDict items))%list.
  rewrite !length_app, IHitems. f_equal.
  destruct (is_dict child || is_none child) eqn:Hkind.
  - simpl in *. by rewrite length_map, (IHchild _ Hkind).
  - destruct child; try done.
Qed.

(** X4.  What [create_structure] prints is fixed by the base directory and
    the structure alone, not by what is on disk: a run that succeeds
    prints one line for each key, in the order of the traversal
    ([Created directory] for a mapping or [None], also when the
    directory was there already; [Created file] for anything else),
    then the closing line.  A run that fails prints the lines up to the
    item that failed and not the closing line. *)
Theorem create_structure_prints base_dir structure w :
  (is_dict structure = true →
   length (report (Path_of base_dir) structure) = length (key_paths structure)) ∧
  ∃ lines,
    lines `prefix_of` report (Path_of base_dir) structure ∧
    match (create_structure base_dir structure w).2 with
    | inr _ =>
        lines = report (Path_of base_dir) structure ∧
        stdout (create_structure base_dir structure w).1
        = (stdout w ++ lines ++ [success_line base_dir])%list
    | inl _ =>
        stdout (create_structure base_dir structure w).1 = (stdout w ++ lines)%list
    end.
Proof.
  split.
  { intros Hd. apply report_length. by rewrite Hd. }
  unfold create_structure, bind.
  destruct (_create (Path_of base_dir) structure w) as [w1 [e|[]]] eqn:Hrun;
    apply _create_prints in Hrun as (lines & H1 & H2 & H3); exists lines; simpl.
  - done.
  - split; [done|]. split; [by apply H3|]. by rewrite H1, <- app_assoc.
Qed.

(** A base directory written with two slashes is printed with both, as
    [pathlib] keeps them; the entries are those of [/tmp/x]. *)
Example two_slashes_printed :
  stdout (create_structure "//tmp/x" (VDict [("f", VStr "1")]) tmp_x).1
  = ["Created file: //tmp/x/f";
     nl ++ "Project structure created successfully at //tmp/x"]
  ∧ journal (create_structure "//tmp/x" (VDict [("f", VStr "1")]) tmp_x).1
    = [Creat ["tmp"; "x"; "f"]]
  ∧ Path_str (Path_of "/tmp/x" / "//a")%path = "//a"
  ∧ Path_str (Path_of "///tmp/x") = "/tmp/x".
Proof. by split_and!. Qed.

(* ===================================================================== *)
(** * A failure in the middle *)
(* ===================================================================== *)

(** X5.  When an item of a mapping raises, the run of the whole mapping ends
    there with that exception: the items after it are not tried, what
    the items before it made stays on disk, and [create_structure] does
    not print its closing line. *)
Theorem failure_stops_traversal base_dir pre name child post w0 w w1 e :
  _create (Path_of base_dir) (VDict pre) w0 = (w, inr tt) →
  create_item (Path_of base_dir) name child w = (w1, inl e) →
  create_structure base_dir (VDict (pre ++ (name, child) :: post)) w0 = (w1, inl e)
  ∧ extends w0 w ∧ extends w w1
  ∧ ∀ post', create_structure base_dir (VDict (pre ++ (name, child) :: post')) w0
             = (w1, inl e).
Proof.
  intros Hpre Hitem.
  assert (Hall : ∀ post', create_structure base_dir (VDict (pre ++ (name, child) :: post')) w0
                          = (w1, inl e)).
  { intros post'. unfold create_structure.
    erewrite bind_err; [done|]. rewrite (_create_middle _ _ _ _ _ _ _ Hpre).
    by erewrite bind_err. }
  split_and!; [apply Hall|by eapply _create_extends| |apply Hall].
  assert (Hone : _create (Path_of base_dir) (VDict [(name, child)]) w = (w1, inl e)).
  { rewrite _create_cons. by erewrite bind_err. }
  by eapply _create_extends.
Qed.

Lemma failure_stops_traversal_example :
  create_structure "/tmp/x"
    (VDict [("a", VStr "1"); ("a/b", VStr "2"); ("c", VDict [])]) tmp_x
  = (with_line (written tmp_x ["tmp"; "x"; "a"] "1") "Created file: /tmp/x/a",
     inl NotADirectoryError).
Proof.
  apply (failure_stops_traversal "/tmp/x" [("a", VStr "1")] "a/b" (VStr "2")
           [("c", VDict [])] tmp_x
           (with_line (written tmp_x ["tmp"; "x"; "a"] "1") "Created file: /tmp/x/a")).
  - reflexivity.
  - reflexivity.
Defined.

(* ===================================================================== *)
(** * The handlers of the editor *)
(* ===================================================================== *)

Lemma try_except_ok {S A} (m : Run S A) h s s1 a :
  m s = (s1, inr a) → try_except m h s = (s1, inr a).
Proof. unfold try_except. by intros ->. Qed.

Lemma try_except_err {S A} (m : Run S A) h s s1 e :
  m s = (s1, inl e) → try_except m h s = h e s1.
Proof. unfold try_except. by intros ->. Qed.

(** X6.  [load_json] reads and never writes: whatever the file holds, the
    handler returns without raising and the world (disk, working
    directory, output) is as it was. *)
Theorem load_json_reads_only file_path app :
  (load_json file_path app).2 = inr tt
  ∧ world (load_json file_path app).1 = world app.
Proof.
  destruct (String.eqb file_path "") eqn:Hp.
  { unfold load_json. by rewrite Hp. }
  apply String.eqb_neq in Hp.
  destruct (read_text (Path_of file_path) (world app)) as [w [e|text]] eqn:Hread.
  - by rewrite (load_json_read_error file_path app w e).
  - destruct (json_loads text) as [v|] eqn:Hv.
    + by rewrite (load_json_parsed file_path app w text v).
    + by rewrite (load_json_parse_error file_path app w text).
Qed.

(** X7.  [save_json] writes the structure and changes nothing else in the
    editor: its structure, tree view and message boxes stay.  Unlike the
    other two handlers it catches nothing: when the file cannot be
    opened the exception leaves the handler, with the editor and the
    world as they were.  When it goes through, the file holds the JSON
    text of the structure and nothing else on disk has changed. *)
Theorem save_json_effect file_path app :
  project_structure (designer (save_json file_path app).1)
  = project_structure (designer app)
  ∧ tree_view (designer (save_json file_path app).1) = tree_view (designer app)
  ∧ dialogs (designer (save_json file_path app).1) = dialogs (designer app)
  ∧ (∀ e, (save_json file_path app).2 = inl e → (save_json file_path app).1 = app)
  ∧ (file_path ≠ "" → (save_json file_path app).2 = inr tt →
     ∃ loc, locate (world app) (Path_of file_path) = inr loc
       ∧ files (world (save_json file_path app).1) !! loc
         = Some (File (json_dumps (project_structure (designer app))))
       ∧ (∀ l, l ≠ loc →
            files (world (save_json file_path app).1) !! l = files (world app) !! l)
       ∧ status (designer (save_json file_path app).1)
         = "Structure saved to: " ++ file_path).
Proof.
  destruct (String.eqb file_path "") eqn:Hp.
  { apply String.eqb_eq in Hp. subst. unfold save_json. simpl. by split_and!. }
  apply String.eqb_neq in Hp. rewrite (save_json_run _ _ Hp).
  destruct (locate (world app) (Path_of file_path)) as [e0|loc]; simpl.
  { split_and!; try done. }
  destruct (stat (world app) loc) as [[|old]|] eqn:Hs; simpl.
  - split_and!; try done.
  - split_and!; try done. intros _ _. exists loc. split_and!; try done.
    + by rewrite lookup_insert_eq.
    + intros l Hl. by rewrite lookup_insert_ne.
  - split_and!; try done. intros _ _. exists loc. split_and!; try done.
    + by rewrite lookup_insert_eq.
    + intros l Hl. by rewrite lookup_insert_ne.
Qed.

(** X8.  [generate_project] with a directory chosen: when [create_structure]
    goes through, one information box is put up and the status line
    names the directory; when it raises, the exception is caught, one
    error box carrying it is put up, the status line stays, and what was
    created before the failure stays on disk.  The handler returns in
    both cases, and the tree view is untouched. *)
Theorem generate_project_cases target_dir app :
  target_dir ≠ "" →
  let d := designer app in
  let run := create_structure target_dir (project_structure d) (world app) in
  generate_project target_dir app
  = match run.2 with
    | inr _ =>
        (mkApp (mkDesigner (project_structure d) (tree_view d)
                  ("Project created at: " ++ target_dir)
                  (dialogs d ++ [ShowInfo "Success"
                                   ("Project generated at:" ++ nl ++ target_dir)]))
           run.1, inr tt)
    | inl e =>
        (mkApp (mkDesigner (project_structure d) (tree_view d) (status d)
                  (dialogs d ++ [ShowError "Error" ("Failed to create project:" ++ nl) e]))
           run.1, inr tt)
    end.
Proof.
  intros Hne d run. unfold generate_project. rewrite (String_eqb_false _ Hne).
  subst d run. unfold try_except, bind, lift, get_structure.
  destruct (create_structure target_dir (project_structure (designer app)) (world app))
    as [w1 [e|[]]]; reflexivity.
Qed.

Lemma generate_project_cases_example :
  generate_project "/tmp/x" example_app
  = (mkApp (mkDesigner example_structure (_add_tree_node example_structure)
              "Project created at: /tmp/x"
              [ShowInfo "Success" ("Project generated at:" ++ nl ++ "/tmp/x")])
       (create_structure "/tmp/x" example_structure tmp_x_json).1, inr tt).
Proof.
  apply (generate_project_cases "/tmp/x" example_app). done.
Defined.

(* ===================================================================== *)
(** * What json.load can return *)
(* ===================================================================== *)

Lemma dict_set_keys k v d :
  map fst (dict_set k v d)
  = if bool_decide (k ∈ map fst d) then map fst d else (map fst d ++ [k])%list.
Proof.
  induction d as [|[k' v'] d IH]; simpl; [done|].
  destruct (String.eqb k k') eqn:Hk.
  - apply String.eqb_eq in Hk. subst k'. simpl.
    rewrite bool_decide_eq_true_2; [done|]. apply elem_of_cons; by left.
  - apply String.eqb_neq in Hk. simpl. rewrite IH.
    destruct (bool_decide (k ∈ map fst d)) eqn:Hin.
    + apply bool_decide_eq_true in Hin. rewrite bool_decide_eq_true_2; [done|].
      apply elem_of_cons; by right.
    + apply bool_decide_eq_false in Hin. rewrite bool_decide_eq_false_2; [done|].
      intros [?|?]%elem_of_cons; done.
Qed.

Lemma dict_set_NoDup k v d : NoDup (map fst d) → NoDup (map fst (dict_set k v d)).
Proof.
  intros Hd. rewrite dict_set_keys.
  destruct (bool_decide (k ∈ map fst d)) eqn:Hin; [done|].
  apply bool_decide_eq_false in Hin. apply NoDup_app. split_and!; [done| |apply NoDup_singleton].
  intros x Hx ->%list_elem_of_singleton. done.
Qed.

Lemma dict_set_Forall (P : Value → Prop) k v d :
  P v → Forall (λ kv, P kv.2) d → Forall (λ kv, P kv.2) (dict_set k v d).
Proof.
  intros Hv. induction 1 as [|[k' v'] d Hx Hd IH]; simpl.
  - by constructor.
  - destruct (String.eqb k k'); constructor; done.
Qed.

Lemma dict_of_pairs_well_formed pairs :
  Forall (λ kv, well_formed kv.2 = true) pairs →
  well_formed (VDict (dict_of_pairs pairs)) = true.
Proof.
  intros Hp. unfold dict_of_pairs.
  assert (H : ∀ acc, NoDup (map fst acc) → Forall (λ kv, well_formed kv.2 = true) acc →
            let d := fold_left (λ d kv, dict_set kv.1 kv.2 d) pairs acc in
            NoDup (map fst d) ∧ Forall (λ kv, well_formed kv.2 = true) d).
  { induction Hp as [|[k v] pairs Hv Hp IH]; intros acc Hn Ha; simpl; [done|].
    apply IH; [by apply dict_set_NoDup|].
    by apply (dict_set_Forall (λ v, well_formed v = true)). }
  destruct (H [] (NoDup_nil_2) (Forall_nil_2 _)) as [Hn Hf].
  simpl. apply andb_true_iff. split; [by apply bool_decide_eq_true|].
  apply forallb_forall. intros kv Hin. rewrite Forall_forall in Hf.
  apply Hf. by apply list_elem_of_In.
Qed.

Lemma scanner_well_formed fuel :
  (∀ s v rest, scan_once fuel s = Some (v, rest) → well_formed v = true)
  ∧ (∀ s ps rest, parse_pairs fuel s = Some (ps, rest) →
       Forall (λ kv, well_formed kv.2 = true) ps)
  ∧ (∀ s vs rest, parse_values fuel s = Some (vs, rest) →
       Forall (λ v, well_formed v = true) vs).
Proof.
  induction fuel as [|fuel (IHs & IHp & IHv)]; [done|].
  split_and!.
  - intros s v rest. rewrite scan_once_S.
    repeat case_match; try done; intros [= <- <-]; try done.
    + apply dict_of_pairs_well_formed. by eapply IHp.
    + simpl. apply forallb_forall. intros x Hx.
      match goal with
      | Hpv : parse_values _ _ = _ |- _ =>
          apply IHv in Hpv; rewrite Forall_forall in Hpv; by apply Hpv, list_elem_of_In
      end.
  - intros s ps rest. rewrite parse_pairs_S.
    repeat case_match; try done; intros [= <- <-].
    + constructor; [|done]. simpl. by eapply IHs.
    + constructor; [simpl; by eapply IHs|by eapply IHp].
  - intros s vs rest. rewrite parse_values_S.
    repeat case_match; try done; intros [= <- <-].
    + constructor; [|done]. by eapply IHs.
    + constructor; [by eapply IHs|by eapply IHv].
Qed.

Lemma json_loads_well_formed text v : json_loads text = Some v → well_formed v = true.
Proof.
  unfold json_loads. repeat case_match; try done. intros [= <-].
  by eapply scanner_well_formed.
Qed.

(** X9.  Load JSON takes any JSON document, not only an object.  A document
    that is not an object becomes the structure of the editor without a
    message box, and the tree view is then empty; Generate Project on a
    number, a boolean or a list then puts up an error box with
    [TypeError] and leaves the disk as it was. *)
Theorem load_json_takes_any_value file_path target_dir app text v :
  file_path ≠ "" → target_dir ≠ "" →
  read_text (Path_of file_path) (world app) = (world app, inr text) →
  json_loads text = Some v →
  is_dict v = false →
  project_structure (designer (load_json file_path app).1) = v
  ∧ tree_view (designer (load_json file_path app).1) = []
  ∧ dialogs (designer (load_json file_path app).1) = dialogs (designer app)
  ∧ (is_none v = false → (∀ s, v ≠ VStr s) →
     world (generate_project target_dir (load_json file_path app).1).1 = world app
     ∧ dialogs (designer (generate_project target_dir (load_json file_path app).1).1)
       = (dialogs (designer app)
          ++ [ShowError "Error" ("Failed to create project:" ++ nl) TypeError])%list).
Proof.
  intros Hp Hd Hread Hv Hkind.
  rewrite (load_json_parsed file_path app _ _ _ Hp Hread Hv). simpl.
  split_and!; try done.
  - by destruct v.
  - intros Hn Hs. unfold generate_project. rewrite (String_eqb_false _ Hd).
    unfold try_except, bind, lift, get_structure, create_structure, bind. simpl.
    destruct v; try done. by destruct (Hs s).
Qed.

Lemma load_json_takes_any_value_example :
  project_structure (designer (load_json "/tmp/x/good.json" example_app).1)
  = VList [VInt 1; VInt 2].
Proof.
  apply (load_json_takes_any_value "/tmp/x/good.json" "/tmp/x" example_app "[1, 2]"
           (VList [VInt 1; VInt 2])); done.
Defined.

(* ===================================================================== *)
(** * A session at the window *)
(* ===================================================================== *)

Lemma generate_project_designer target_dir app :
  project_structure (designer (generate_project target_dir app).1)
  = project_structure (designer app)
  ∧ tree_view (designer (generate_project target_dir app).1) = tree_view (designer app)
  ∧ (generate_project target_dir app).2 = inr tt
  ∧ extends (world app) (world (generate_project target_dir app).1).
Proof.
  unfold generate_project. destruct (String.eqb target_dir ""); simpl.
  { split_and!; try done. apply extends_refl. }
  unfold try_except, bind, lift, get_structure.
  destruct (create_structure target_dir (project_structure (designer app)) (world app))
    as [w1 [e|[]]] eqn:Hrun; simpl; apply create_structure_extends in Hrun; done.
Qed.

Lemma save_json_designer file_path app :
  project_structure (designer (save_json file_path app).1)
  = project_structure (designer app)
  ∧ tree_view (designer (save_json file_path app).1) = tree_view (designer app)
  ∧ extends (world app) (world (save_json file_path app).1).
Proof.
  destruct (String.eqb file_path "") eqn:Hp.
  { unfold save_json. rewrite Hp. simpl. split_and!; try done. apply extends_refl. }
  apply String.eqb_neq in Hp. rewrite (save_json_run _ _ Hp).
  destruct (locate (world app) (Path_of file_path)) as [e0|loc]; simpl.
  { split_and!; try done. apply extends_refl. }
  destruct (stat (world app) loc) as [[|old]|] eqn:Hs; simpl; split_and!; try done.
  - apply extends_refl.
  - apply extends_written. by rewrite Hs.
  - apply extends_written. by rewrite Hs.
Qed.

Lemma load_json_in_step file_path app :
  in_step (designer app) → in_step (designer (load_json file_path app).1).
Proof.
  intros Hin. destruct (String.eqb file_path "") eqn:Hp.
  { unfold load_json. by rewrite Hp. }
  apply String.eqb_neq in Hp.
  destruct (read_text (Path_of file_path) (world app)) as [w [e|text]] eqn:Hread.
  - by rewrite (load_json_read_error file_path app w e).
  - destruct (json_loads text) as [v|] eqn:Hv.
    + rewrite (load_json_parsed file_path app w text v); [|done..].
      split; [|done]. simpl. by eapply json_loads_well_formed.
    + by rewrite (load_json_parse_error file_path app w text).
Qed.

Lemma load_json_world file_path app :
  (load_json file_path app).2 = inr tt
  ∧ world (load_json file_path app).1 = world app.
Proof.
  destruct (String.eqb file_path "") eqn:Hp.
  { unfold load_json. by rewrite Hp. }
  apply String.eqb_neq in Hp.
  destruct (read_text (Path_of file_path) (world app)) as [w [e|text]] eqn:Hread.
  - by rewrite (load_json_read_error file_path app w e).
  - destruct (json_loads text) as [v|] eqn:Hv.
    + by rewrite (load_json_parsed file_path app w text v).
    + by rewrite (load_json_parse_error file_path app w text).
Qed.

Lemma command_in_step c app :
  in_step (designer app) →
  in_step (designer (try_except (command c) (λ _, ret tt) app).1)
  ∧ (try_except (command c) (λ _, ret tt) app).2 = inr tt
  ∧ extends (world app) (world (try_except (command c) (λ _, ret tt) app).1).
Proof.
  intros Hin. unfold try_except. destruct c as [p|p|p]; simpl.
  - pose proof (load_json_in_step p app Hin) as H1.
    destruct (load_json_world p app) as [H2 H3].
    destruct (load_json p app) as [app1 [e|[]]]; simpl in *; try done.
    rewrite H3. split_and!; try done. apply extends_refl.
  - destruct (save_json_designer p app) as (H1 & H2 & H3).
    destruct (save_json p app) as [app1 [e|[]]]; simpl in *;
      (split_and!; [|done..]); destruct Hin as [Hwf Hview];
      split; congruence.
  - destruct (generate_project_designer p app) as (H1 & H2 & H3 & H4).
    destruct (generate_project p app) as [app1 [e|[]]]; simpl in *; try done.
    split_and!; try done. destruct Hin as [Hwf Hview]. split; congruence.
Qed.

Lemma mainloop_in_step clicks : ∀ app,
  in_step (designer app) →
  in_step (designer (mainloop clicks app).1)
  ∧ (mainloop clicks app).2 = inr tt
  ∧ extends (world app) (world (mainloop clicks app).1).
Proof.
  induction clicks as [|c clicks IH]; intros app Hin; simpl.
  { split_and!; try done. apply extends_refl. }
  destruct (command_in_step c app Hin) as (H1 & H2 & H3).
  unfold bind.
  destruct (try_except (command c) (λ _, ret tt) app) as [app1 [e|[]]]; simpl in *; [done|].
  destruct (IH app1 H1) as (H4 & H5 & H6).
  split_and!; try done. by eapply extends_trans.
Qed.

Lemma ProjectDesigner_init_in_step app :
  in_step (designer (ProjectDesigner_init app).1)
  ∧ (ProjectDesigner_init app).2 = inr tt
  ∧ world (ProjectDesigner_init app).1 = world app.
Proof. split_and!; [split; [by vm_compute|done]|done..]. Qed.

Lemma window_loop_returns clicks app :
  ((ProjectDesigner_init >> mainloop clicks) app).2 = inr tt.
Proof.
  destruct (ProjectDesigner_init_in_step app) as (H1 & H2 & H3).
  unfold bind.
  destruct (ProjectDesigner_init app) as [app0 [e|[]]]; simpl in *; [done|].
  by destruct (mainloop_in_step clicks app0 H1) as (_ & H5 & _).
Qed.

Lemma window_in_step clicks app :
  in_step (designer ((ProjectDesigner_init >> mainloop clicks) app).1).
Proof.
  destruct (ProjectDesigner_init_in_step app) as (H1 & H2 & H3).
  unfold bind.
  destruct (ProjectDesigner_init app) as [app0 [e|[]]]; simpl in *; [done|].
  by destruct (mainloop_in_step clicks app0 H1) as (H4 & _ & _).
Qed.

(** X10.  However the user clicks, the window stays in step: after
    [ProjectDesigner(root)] and any clicks, the structure of the editor
    has no key twice in a mapping, the tree view shows exactly that
    structure, and the loop has gone through every click (a handler that
    raises does not end it). *)
Theorem window_stays_in_step clicks app :
  in_step (designer ((ProjectDesigner_init >> mainloop clicks) app).1)
  ∧ ((ProjectDesigner_init >> mainloop clicks) app).2 = inr tt.
Proof.
  destruct (ProjectDesigner_init_in_step app) as (H1 & H2 & H3).
  unfold bind.
  destruct (ProjectDesigner_init app) as [app0 [e|[]]]; simpl in *; [done|].
  destruct (mainloop_in_step clicks app0 H1) as (H4 & H5 & _). done.
Qed.

Lemma create_from_json_extends json_path target_dir w w1 r :
  create_from_json json_path target_dir w = (w1, r) → extends w w1.
Proof.
  pose proof (read_text_still (Path_of json_path) w) as Hstill.
  unfold create_from_json, json_load, bind.
  destruct (read_text (Path_of json_path) w) as [w0 [e0|text0]]; simpl in Hstill; subst w0.
  { intros [= <- _]. apply extends_refl. }
  destruct (json_loads text0).
  - apply create_structure_extends.
  - intros [= <- _]. apply extends_refl.
Qed.

(** X11.  Nothing the program does removes an entry: whatever the arguments
    of [main] and whatever the user clicks, every file and directory
    that was on disk when it started is there when it ends, a directory
    still a directory and a file still a file. *)
Theorem main_removes_nothing help args clicks app :
  extends (world app) (world (main help args clicks app).1).
Proof.
  unfold main. destruct (gui args).
  - destruct (ProjectDesigner_init_in_step app) as (H1 & H2 & H3).
    unfold bind.
    destruct (ProjectDesigner_init app) as [app0 [e|[]]]; simpl in *; [done|].
    destruct (mainloop_in_step clicks app0 H1) as (_ & _ & H6). by rewrite <- H3.
  - destruct (truthy (json args)).
    + unfold lift.
      destruct (create_from_json _ _ (world app)) as [w1 r] eqn:Hrun. simpl.
      by eapply create_from_json_extends.
    + simpl. split; [done|]. intros loc e He. exists e. split; [done|]. by destruct e.
Qed.

(** X12.  The three ways of [main].  With [--gui] the window comes up and
    [--json] and [--output] are not looked at.  Without [--gui], a
    [--json] that is absent or empty makes [main] print its hint and the
    help text and do nothing else; otherwise it is [create_from_json]
    on the two arguments, and what that raises leaves [main]. *)
Theorem main_dispatch help args clicks app :
  (gui args = true →
     main help args clicks app = main help (mkArgs None "." true) clicks app
     ∧ (main help args clicks app).2 = inr tt) ∧
  (gui args = false → truthy (json args) = false →
     main help args clicks app
     = (mkApp (designer app)
          (with_line (with_line (world app)
                        "Please specify either --gui or --json argument") help),
        inr tt)) ∧
  (gui args = false → ∀ json_path, json args = Some json_path → json_path ≠ "" →
     main help args clicks app
     = lift (create_from_json json_path (output args)) app
     ∧ designer (main help args clicks app).1 = designer app).
Proof.
  unfold main. split_and!.
  - intros ->. simpl. split; [done|]. apply window_loop_returns.
  - by intros -> ->.
  - intros -> json_path -> Hne. simpl. rewrite (String_eqb_false _ Hne). simpl.
    split; [done|]. unfold lift. by destruct (create_from_json _ _ _).
Qed.

(* ===================================================================== *)
(** * The window and the command line together *)
(* ===================================================================== *)

Lemma saved_file_read file_path app app1 :
  file_path ≠ "" →
  save_json file_path app = (app1, inr tt) →
  read_text (Path_of file_path) (world app1)
  = (world app1, inr (json_dumps (project_structure (designer app))))
  ∧ designer app1
    = mkDesigner (project_structure (designer app)) (tree_view (designer app))
        ("Structure saved to: " ++ file_path) (dialogs (designer app)).
Proof.
  intros Hne. rewrite (save_json_run _ _ Hne).
  destruct (locate (world app) (Path_of file_path)) as [e0|loc] eqn:Hloc; [done|].
  destruct (stat (world app) loc) as [[|old]|] eqn:Hs; try done;
    intros [= <-]; simpl; (split; [|done]); apply read_written; try done;
    by rewrite Hs.
Qed.

Lemma mainloop_app xs ys : ∀ app,
  mainloop (xs ++ ys) app = (mainloop xs >> mainloop ys) app.
Proof.
  induction xs as [|c xs IH]; intros app; simpl; [done|].
  unfold bind. destruct (try_except (command c) (λ _, ret tt) app) as [app1 [e|[]]]; [done|].
  rewrite IH. done.
Qed.

Lemma window_goes_on clicks more app :
  (ProjectDesigner_init >> mainloop (clicks ++ more)) app
  = mainloop more ((ProjectDesigner_init >> mainloop clicks) app).1.
Proof.
  destruct (ProjectDesigner_init_in_step app) as (H1 & H2 & H3).
  unfold bind.
  destruct (ProjectDesigner_init app) as [app0 [e|[]]]; simpl in *; [done|].
  rewrite mainloop_app. unfold bind.
  destruct (mainloop_in_step clicks app0 H1) as (_ & H5 & _).
  by destruct (mainloop clicks app0) as [app1 [e|[]]].
Qed.

(** X13.  In a window, whatever was clicked before: saving to a file and, when
    the save went through, loading that file puts up no message box and
    leaves the structure and the tree view as they were.  No condition on
    the structure is needed, since the editor only ever holds structures
    that JSON can carry. *)
Theorem save_then_load_in_window clicks file_path app :
  file_path ≠ "" →
  (save_json file_path ((ProjectDesigner_init >> mainloop clicks) app).1).2 = inr tt →
  project_structure
    (designer ((ProjectDesigner_init >> mainloop (clicks ++ [SaveJSON file_path; LoadJSON file_path])) app).1)
  = project_structure (designer ((ProjectDesigner_init >> mainloop clicks) app).1)
  ∧ tree_view
      (designer ((ProjectDesigner_init >> mainloop (clicks ++ [SaveJSON file_path; LoadJSON file_path])) app).1)
    = tree_view (designer ((ProjectDesigner_init >> mainloop clicks) app).1)
  ∧ dialogs
      (designer ((ProjectDesigner_init >> mainloop (clicks ++ [SaveJSON file_path; LoadJSON file_path])) app).1)
    = dialogs (designer ((ProjectDesigner_init >> mainloop clicks) app).1).
Proof.
  intros Hne. rewrite window_goes_on.
  destruct (window_in_step clicks app) as [Hwf Hview].
  set (app0 := ((ProjectDesigner_init >> mainloop clicks) app).1) in *.
  simpl. unfold bind, try_except.
  destruct (save_json file_path app0) as [app1 [e|[]]] eqn:Hsave; [done|]. intros _.
  destruct (saved_file_read _ _ _ Hne Hsave) as [Hread Hd].
  rewrite (load_json_parsed file_path app1 _ _ _ Hne Hread (loads_dumps _ Hwf)).
  simpl. rewrite Hd. simpl. done.
Qed.

Lemma save_then_load_in_window_example :
  project_structure
    (designer ((ProjectDesigner_init >>
                mainloop ([LoadJSON "/tmp/x/p.json"; GenerateProject "/tmp/x/out"]
                          ++ [SaveJSON "/tmp/x/q.json"; LoadJSON "/tmp/x/q.json"]))
                 (mkApp initial_designer tmp_x_project)).1)
  = example_structure.
Proof.
  apply (save_then_load_in_window
           [LoadJSON "/tmp/x/p.json"; GenerateProject "/tmp/x/out"] "/tmp/x/q.json"
           (mkApp initial_designer tmp_x_project)).
  - done.
  - by vm_compute.
Defined.

(** X14.  A structure saved from the window can be generated from the command
    line: whatever was clicked before, once [save_json] went through,
    [create_from_json] on the saved file runs as [create_structure] on
    the structure of the editor, so it leaves the disk and the output as
    Generate Project in the window does. *)
Theorem saved_file_generates_the_same clicks file_path target_dir app app1 :
  file_path ≠ "" → target_dir ≠ "" →
  save_json file_path ((ProjectDesigner_init >> mainloop clicks) app).1 = (app1, inr tt) →
  create_from_json file_path target_dir (world app1)
  = create_structure target_dir (project_structure (designer app1)) (world app1)
  ∧ world (generate_project target_dir app1).1
    = (create_from_json file_path target_dir (world app1)).1.
Proof.
  intros Hne Hd Hsave.
  destruct (window_in_step clicks app) as [Hwf _].
  destruct (saved_file_read _ _ _ Hne Hsave) as [Hread Hdes].
  assert (Hsame : project_structure (designer app1)
                  = project_structure (designer ((ProjectDesigner_init >> mainloop clicks) app).1)).
  { by rewrite Hdes. }
  assert (Hrun : create_from_json file_path target_dir (world app1)
                 = create_structure target_dir (project_structure (designer app1)) (world app1)).
  { unfold create_from_json, json_load. rewrite (bind_ok _ _ _ _ _ Hread).
    rewrite (loads_dumps _ Hwf), Hsame. done. }
  split; [done|]. rewrite Hrun.
  unfold generate_project. rewrite (String_eqb_false _ Hd).
  unfold try_except, bind, lift, get_structure.
  by destruct (create_structure target_dir (project_structure (designer app1)) (world app1))
    as [w1 [e|[]]].
Qed.

Lemma saved_file_generates_the_same_example :
  create_from_json "/tmp/x/q.json" "/tmp/x/out"
    (world (save_json "/tmp/x/q.json"
              ((ProjectDesigner_init >> mainloop [LoadJSON "/tmp/x/p.json"])
                 (mkApp initial_designer tmp_x_project)).1).1)
  = create_structure "/tmp/x/out" example_structure
      (world (save_json "/tmp/x/q.json"
                ((ProjectDesigner_init >> mainloop [LoadJSON "/tmp/x/p.json"])
                   (mkApp initial_designer tmp_x_project)).1).1).
Proof.
  apply (saved_file_generates_the_same [LoadJSON "/tmp/x/p.json"] "/tmp/x/q.json"
           "/tmp/x/out" (mkApp initial_designer tmp_x_project)
           (save_json "/tmp/x/q.json"
              ((ProjectDesigner_init >> mainloop [LoadJSON "/tmp/x/p.json"])
                 (mkApp initial_designer tmp_x_project)).1).1).
  - done.
  - done.
  - by vm_compute.
Defined.

(** X15.  The window and the command line agree on a file that loads: Load
    JSON on it and then Generate Project into a directory leave the
    world (disk and output) as [main] with [--json] and [--output] on
    the same two does. *)
Theorem window_and_command_line_agree help json_path target_dir app text structure :
  json_path ≠ "" → target_dir ≠ "" →
  read_text (Path_of json_path) (world app) = (world app, inr text) →
  json_loads text = Some structure →
  world (main help (mkArgs None "." true)
           [LoadJSON json_path; GenerateProject target_dir] app).1
  = world (main help (mkArgs (Some json_path) target_dir false) [] app).1.
Proof.
  intros Hp Hd Hread Hv. unfold main. simpl. rewrite (String_eqb_false _ Hp). simpl.
  destruct (ProjectDesigner_init_in_step app) as (H1 & H2 & H3).
  unfold bind at 1.
  destruct (ProjectDesigner_init app) as [app0 [e|[]]]; simpl in *; [done|].
  rewrite <- H3 in Hread.
  unfold bind at 1 2, try_except at 1.
  rewrite (load_json_parsed json_path app0 _ _ _ Hp Hread Hv).
  unfold try_except, generate_project. rewrite (String_eqb_false _ Hd).
  unfold create_from_json, json_load, try_except, bind, lift, get_structure. simpl.
  rewrite H3 in *. rewrite Hread. rewrite Hv. unfold ret.
  by destruct (create_structure target_dir structure (world app)) as [w1 [e|[]]].
Qed.

Lemma window_and_command_line_agree_example :
  world (main "usage" (mkArgs None "." true)
           [LoadJSON "/tmp/x/p.json"; GenerateProject "/tmp/x/out"]
           (mkApp initial_designer tmp_x_project)).1
  = world (main "usage" (mkArgs (Some "/tmp/x/p.json") "/tmp/x/out" false) []
             (mkApp initial_designer tmp_x_project)).1.
Proof.
  apply (window_and_command_line_agree "usage" "/tmp/x/p.json" "/tmp/x/out"
           (mkApp initial_designer tmp_x_project)
           (json_dumps example_structure) example_structure).
  - done.
  - done.
  - by vm_compute.
  - by vm_compute.
Defined.

(* ===================================================================== *)
(** * The text json.dump writes *)
(* ===================================================================== *)

Lemma all_chars_app P s t :
  all_chars P (s ++ t) = all_chars P s && all_chars P t.
Proof.
  induction s as [|c s IH]; [by rewrite append_nil_l|].
  rewrite append_cons. simpl. by rewrite IH, andb_assoc.
Qed.

Lemma all_chars_join P sep l :
  all_chars P sep = true → Forall (λ s, all_chars P s = true) l →
  all_chars P (join sep l) = true.
Proof.
  intros Hsep. induction 1 as [|x l Hx Hl IH]; [done|].
  destruct l as [|y l]; [done|].
  change (join sep (x :: y :: l)) with (x ++ sep ++ join sep (y :: l)).
  by rewrite !all_chars_app, Hx, Hsep, IH.
Qed.

Lemma escape_char_plain c : all_chars plain_ascii (escape_char c) = true.
Proof. destruct c as [[] [] [] [] [] [] [] []]; reflexivity. Qed.

Lemma escape_plain s : all_chars plain_ascii (escape s) = true.
Proof.
  induction s as [|c s IH]; [done|]. simpl.
  by rewrite all_chars_app, escape_char_plain, IH.
Qed.

Lemma encode_basestring_ascii_plain s :
  all_chars plain_ascii (encode_basestring_ascii s) = true.
Proof.
  unfold encode_basestring_ascii.
  change (all_chars plain_ascii (escape s ++ String DQ "") = true).
  by rewrite all_chars_app, escape_plain.
Qed.

Lemma digits_plain d :
  all_chars plain_ascii (NilEmpty.string_of_uint d) = true.
Proof. induction d as [|d IH|d IH|d IH|d IH|d IH|d IH|d IH|d IH|d IH|d IH]; simpl; done. Qed.

Lemma string_of_uint_plain d :
  all_chars plain_ascii (NilZero.string_of_uint d) = true.
Proof. destruct d; try done; apply (digits_plain (_ d)). Qed.

Lemma repr_int_plain n : all_chars plain_ascii (repr_int n) = true.
Proof.
  unfold repr_int. destruct (Z.to_int n) as [d|d]; simpl; apply string_of_uint_plain.
Qed.

Lemma spaces_plain n : all_chars plain_ascii (spaces n) = true.
Proof. induction n; simpl; done. Qed.

Lemma newline_indent_plain level : all_chars plain_ascii (newline_indent level) = true.
Proof. unfold newline_indent. simpl. apply spaces_plain. Qed.

Lemma iterencode_plain v : ∀ level, all_chars plain_ascii (iterencode level v) = true.
Proof.
  induction v as [|[]|?|?|xs IH|items IH] using Value_nested_ind; intros level;
    try done.
  - apply repr_int_plain.
  - apply encode_basestring_ascii_plain.
  - destruct xs as [|x xs]; [done|].
    change (iterencode level (VList (x :: xs)))
      with ("[" ++ newline_indent (S level)
            ++ join ("," ++ newline_indent (S level))
                 (map (iterencode (S level)) (x :: xs))
            ++ newline_indent level ++ "]").
    rewrite !all_chars_app, !newline_indent_plain, all_chars_join; [done| |].
    + by rewrite all_chars_app, newline_indent_plain.
    + apply Forall_map. eapply Forall_impl; [exact IH|]. intros v Hv. apply Hv.
  - destruct items as [|kv items]; [done|].
    change (iterencode level (VDict (kv :: items)))
      with ("{" ++ newline_indent (S level)
            ++ join ("," ++ newline_indent (S level))
                 (map (λ kv, encode_basestring_ascii kv.1 ++ ": "
                             ++ iterencode (S level) kv.2) (kv :: items))
            ++ newline_indent level ++ "}").
    rewrite !all_chars_app, !newline_indent_plain, all_chars_join; [done| |].
    + by rewrite all_chars_app, newline_indent_plain.
    + apply Forall_map. eapply Forall_impl; [exact IH|]. intros [k v] Hv.
      by rewrite !all_chars_app, encode_basestring_ascii_plain, (Hv (S level)).
Qed.

(** X16.  What Save JSON writes is plain ASCII, whatever characters the keys and
    the texts of the structure have: every character of the file is a
    line feed or lies between the space and the tilde, and the file is
    the text [json.dumps] gives for the structure. *)
Theorem saved_text_is_ascii file_path app :
  all_chars plain_ascii (json_dumps (project_structure (designer app))) = true
  ∧ (file_path ≠ "" → (save_json file_path app).2 = inr tt →
     ∃ loc text,
       locate (world app) (Path_of file_path) = inr loc
       ∧ files (world (save_json file_path app).1) !! loc = Some (File text)
       ∧ all_chars plain_ascii text = true).
Proof.
  assert (Hplain : all_chars plain_ascii (json_dumps (project_structure (designer app))) = true).
  { apply iterencode_plain. }
  split; [done|]. intros Hp. rewrite (save_json_run _ _ Hp).
  destruct (locate (world app) (Path_of file_path)) as [e0|loc]; [done|].
  destruct (stat (world app) loc) as [[|old]|] eqn:Hs; simpl; try done;
    intros _; exists loc; eexists; (split; [done|]);
    (split; [by rewrite lookup_insert_eq|done]).
Qed.

(* ===================================================================== *)
(** * A key of two components *)
(* ===================================================================== *)

Lemma split_on_slash a b :
  has_char "/" a = false → has_char "/" b = false →
  split_on "/" (a ++ "/" ++ b) = [a; b].
Proof.
  intros Ha Hb. induction a as [|c a IH].
  - rewrite append_nil_l, append_cons, append_nil_l. simpl.
    by rewrite (split_on_absent _ _ Hb).
  - change (has_char "/" (String c a))
      with (Ascii.eqb "/" c || has_char "/" a) in Ha.
    apply orb_false_iff in Ha as [Hc Ha].
    rewrite append_cons.
    change (split_on "/" (String c (a ++ "/" ++ b)))
      with (if Ascii.eqb c "/" then "" :: split_on "/" (a ++ "/" ++ b)
            else match split_on "/" (a ++ "/" ++ b) with
                 | x :: xs => String c x :: xs
                 | [] => [String c ""]
                 end).
    by rewrite Ascii.eqb_sym, Hc, (IH Ha).
Qed.

Lemma Path_of_two a b :
  plain_name a = true → plain_name b = true →
  Path_of (a ++ "/" ++ b) = mkPath NoRoot [a; b].
Proof.
  intros Ha Hb.
  apply plain_name_inv in Ha as (Ha1 & Ha2 & _ & Ha4 & _).
  apply plain_name_inv in Hb as (Hb1 & Hb2 & _ & Hb4 & _).
  unfold Path_of. rewrite (split_on_slash _ _ Ha4 Hb4). f_equal.
  - destruct a as [|c a]; [done|]. rewrite append_cons.
    change (has_char "/" (String c a))
      with (Ascii.eqb "/" c || has_char "/" a) in Ha4.
    apply orb_false_iff in Ha4 as [Hc _].
    destruct (Ascii.eqb_spec "/" c) as [<-|Hne]; [done|].
    destruct c as [[] [] [] [] [] [] [] []]; done.
  - simpl. unfold kept_part.
    apply String.eqb_neq in Ha1, Ha2, Hb1, Hb2. by rewrite Ha1, Ha2, Hb1, Hb2.
Qed.

Lemma joinpath_two p a b :
  plain_name a = true → plain_name b = true →
  (p / (a ++ "/" ++ b))%path = ((p / a) / b)%path.
Proof.
  intros Ha Hb. rewrite (joinpath_plain _ _ Hb), (joinpath_plain _ _ Ha).
  unfold joinpath. rewrite (Path_of_two _ _ Ha Hb). simpl.
  by rewrite <- app_assoc.
Qed.

Lemma locate_missing_parent w base dir a b :
  plain_name a = true → plain_name b = true →
  locate w base = inr dir → stat w dir = Some Dir → stat w (dir ++ [a])%list = None →
  locate w ((base / a) / b)%path = inl FileNotFoundError.
Proof.
  intros Ha Hb Hl Hs Hfree.
  pose proof (locate_join_plain w base dir a Ha Hl Hs) as Hla.
  rewrite (joinpath_plain _ _ Hb).
  apply plain_name_inv in Hb as (_ & _ & Hb3 & _ & Hb5).
  unfold locate, has_nul, anchored in *. simpl.
  rewrite existsb_app. simpl. rewrite Hb5, !orb_false_r.
  destruct (existsb (has_char NUL) (parts (base / a)%path)); [done|].
  rewrite walk_app, Hla. simpl. by rewrite Hfree.
Qed.

Lemma Path_mkdir_missing p c w :
  locate w (mkPath (root p) (parts p ++ [c])) = inl FileNotFoundError →
  Path_mkdir (mkPath (root p) (parts p ++ [c])) w
  = (Path_mkdir p >> mkdir_exist_ok (mkPath (root p) (parts p ++ [c]))) w.
Proof.
  intros Hmiss. unfold Path_mkdir. cbn [root parts].
  rewrite rev_app_distr. cbn [rev app mkdir_parents].
  rewrite rev_involutive. unfold try_except at 1. by rewrite os_mkdir_run, Hmiss.
Qed.

Lemma Path_mkdir_two w base dir a b :
  plain_name a = true → plain_name b = true → tree w →
  locate w base = inr dir → stat w dir = Some Dir → stat w (dir ++ [a])%list = None →
  Path_mkdir ((base / a) / b)%path w
  = (made w [(dir ++ [a])%list; (dir ++ [a; b])%list], inr tt).
Proof.
  intros Ha Hb Ht Hl Hs Hfree.
  pose proof (locate_missing_parent w base dir a b Ha Hb Hl Hs Hfree) as Hmiss.
  pose proof (locate_join_plain w base dir a Ha Hl Hs) as Hla.
  pose proof (Path_mkdir_fresh _ _ _ Hla Hfree) as Hparent.
  set (w1 := with_entry w (Mkdir (dir ++ [a])%list)) in *.
  assert (Hext : extends w w1) by (by apply (extends_with_entry w (Mkdir (dir ++ [a])%list))).
  assert (Hla1 : locate w1 (base / a)%path = inr (dir ++ [a])%list).
  { by eapply locate_extends. }
  assert (Hdir1 : stat w1 (dir ++ [a])%list = Some Dir).
  { rewrite stat_files by (by destruct dir). apply lookup_insert_eq. }
  pose proof (locate_join_plain w1 (base / a)%path _ b Hb Hla1 Hdir1) as Hlb.
  assert (Hfree1 : stat w1 ((dir ++ [a]) ++ [b])%list = None).
  { rewrite stat_files by (by destruct dir). subst w1. simpl.
    rewrite lookup_insert_ne.
    - apply (tree_nothing_below w (dir ++ [a])%list); [done..|]. by exists [b].
    - intros H. apply (f_equal length) in H. rewrite !length_app in H. simpl in H. lia. }
  rewrite (joinpath_plain _ _ Hb) in *.
  rewrite (Path_mkdir_missing _ _ _ Hmiss). unfold bind. rewrite Hparent.
  unfold mkdir_exist_ok, try_except. rewrite os_mkdir_run, Hlb, Hfree1.
  unfold made. simpl. by rewrite <- app_assoc.
Qed.

(** X17.  A key of two components, [a/b], where the base directory has no
    [a]: for a value that is a mapping or [None] the missing directory
    [a] is made on the way and then [a/b] ([mkdir] is called with
    [parents=True]); for any other value the item raises
    [FileNotFoundError] and nothing is created ([open] makes no
    directories). *)
Theorem key_of_two_parts base w dir a b child :
  plain_name a = true → plain_name b = true → tree w →
  locate w base = inr dir → stat w dir = Some Dir → stat w (dir ++ [a])%list = None →
  (is_dict child || is_none child = false →
     create_item base (a ++ "/" ++ b) child w = (w, inl FileNotFoundError)) ∧
  (is_dict child || is_none child = true →
     create_item base (a ++ "/" ++ b) child w
     = _create (base / (a ++ "/" ++ b))%path child
         (with_line (made w [(dir ++ [a])%list; (dir ++ [a; b])%list])
            ("Created directory: " ++ Path_str (base / (a ++ "/" ++ b))%path))).
Proof.
  intros Ha Hb Ht Hl Hs Hfree. split; intros Hkind.
  - apply orb_false_iff in Hkind as [Hd Hn].
    apply leaf_item_locate_err; [done..|].
    rewrite (joinpath_two _ _ _ Ha Hb). by eapply locate_missing_parent.
  - rewrite (dir_item_unfold _ _ _ Hkind). rewrite (joinpath_two _ _ _ Ha Hb).
    unfold bind. by rewrite (Path_mkdir_two w base dir a b).
Qed.

Lemma key_of_two_parts_example :
  create_item (Path_of "/tmp/x") "a/b" (VStr "hi") tmp_x = (tmp_x, inl FileNotFoundError)
  ∧ create_item (Path_of "/tmp/x") "a/b" VNone tmp_x
    = (with_line (made tmp_x [["tmp"; "x"; "a"]; ["tmp"; "x"; "a"; "b"]])
         "Created directory: /tmp/x/a/b", inr tt).
Proof.
  assert (Ht : tree tmp_x) by (apply treeb_sound; by vm_compute).
  split.
  - apply (key_of_two_parts (Path_of "/tmp/x") tmp_x ["tmp"; "x"] "a" "b" (VStr "hi"));
      done.
  - apply (key_of_two_parts (Path_of "/tmp/x") tmp_x ["tmp"; "x"] "a" "b" VNone); done.
Defined.

(* ===================================================================== *)
(** * Over a disk that is not empty *)
(* ===================================================================== *)

Lemma item_settles base name child w b w1 r :
  plain_name name = true → valid child = true →
  (is_dict child || is_none child = true → settles child) →
  locate w base = inr b → stat w b = Some Dir →
  create_item base name child w = (w1, r) →
  only_at w w1 (map fst ((b ++ [name], entry_for child)%list
                         :: expected (b ++ [name])%list child)) ∧
  (r = inr tt → ∀ l e,
     (l, e) ∈ (b ++ [name], entry_for child)%list :: expected (b ++ [name])%list child →
     files w1 !! l = Some e).
Proof.
  intros Hp Hv IH Hl Hs.
  pose proof (locate_join_plain _ _ _ _ Hp Hl Hs) as Hloc.
  set (loc := (b ++ [name])%list) in *.
  assert (loc ≠ []) as Hne by (subst loc; by destruct b).
  unfold entry_for. destruct (is_dict child || is_none child) eqn:Hkind.
  - rewrite (dir_item_unfold _ _ _ Hkind).
    set (path := (base / name)%path) in *.
    set (line := "Created directory: " ++ Path_str path).
    assert (Hsub : ∀ l, l ∈ map fst (expected loc child) → l ≠ loc).
    { intros l Hin ->. apply list_elem_of_In, in_map_iff in Hin as ([l' e'] & Heq & H).
      simpl in Heq. subst l'.
      apply list_elem_of_In, expected_under in H as (k & s & _ & Heq).
      apply (f_equal length) in Heq. rewrite length_app in Heq. simpl in Heq. lia. }
    assert (Hgo : ∀ w', Path_mkdir path w = (w', inr tt) →
              files w' !! loc = Some Dir → only_at w w' [loc] → extends w w' →
              (print line >> _create path child) w' = (w1, r) →
              only_at w w1 (map fst ((loc, Dir) :: expected loc child)) ∧
              (r = inr tt → ∀ l e, (l, e) ∈ (loc, Dir) :: expected loc child →
                                   files w1 !! l = Some e)).
    { intros w' Hmk Hdir Honly Hext Hrun. unfold bind, print in Hrun.
      destruct (IH eq_refl path (with_line w' line) loc w1 r) as [Hfr Hpost]; try done.
      - eapply locate_extends; [|done].
        eapply extends_trans; [done|apply extends_with_line].
      - by rewrite stat_files.
      - split.
        + intros l Hnot. simpl in Hnot. apply not_elem_of_cons in Hnot as [Hnl Hnot].
          rewrite (Hfr l Hnot). simpl. apply Honly. by intros ->%list_elem_of_singleton.
        + intros Hok l e Hin. apply elem_of_cons in Hin as [[= -> ->]|Hin].
          * rewrite Hfr; [done|]. intros Hin. by apply (Hsub loc).
          * by apply Hpost. }
    unfold bind at 1 2.
    destruct (stat w loc) as [[|text]|] eqn:Hstat.
    + rewrite (Path_mkdir_there path w) by (by exists loc).
      apply Hgo; try done.
      * by apply Path_mkdir_there; exists loc.
      * by rewrite <- stat_files.
      * apply extends_refl.
    + rewrite (Path_mkdir_file path w loc text Hloc Hstat).
      intros [= <- <-]. split; [done|done].
    + rewrite (Path_mkdir_fresh path w loc Hloc Hstat).
      apply Hgo.
      * by apply Path_mkdir_fresh.
      * simpl. apply lookup_insert_eq.
      * intros l Hnot. simpl. rewrite lookup_insert_ne; [done|].
        intros <-. apply Hnot. by apply list_elem_of_singleton.
      * by apply (extends_with_entry w (Mkdir loc)).
  - rewrite (expected_leaf _ child Hkind).
    rewrite (leaf_item_unfold _ _ _ Hkind). unfold bind at 1.
    rewrite open_write_run, Hloc.
    destruct (stat w loc) as [[|text]|] eqn:Hstat.
    + intros [= <- <-]. done.
    + intros [= <- <-]. split.
      * intros l Hnot. simpl. rewrite lookup_insert_ne; [done|].
        intros <-. apply Hnot. by apply list_elem_of_singleton.
      * intros _ l e Hin. apply list_elem_of_singleton in Hin as [= -> ->].
        simpl. apply lookup_insert_eq.
    + intros [= <- <-]. split.
      * intros l Hnot. simpl. rewrite lookup_insert_ne; [done|].
        intros <-. apply Hnot. by apply list_elem_of_singleton.
      * intros _ l e Hin. apply list_elem_of_singleton in Hin as [= -> ->].
        simpl. apply lookup_insert_eq.
Qed.

Lemma settles_all v : settles v.
Proof.
  induction v as [|?|?|?|? _|items IH] using Value_nested_ind;
    intros base w bl w1 r Hv Hkind Hl Hs; try done.
  - intros [= <- <-]. split; [done|]. intros _ l e H. by apply elem_of_nil in H.
  - clear Hkind. revert w Hl Hs.
    induction items as [|[name child] rest IHrest]; intros w Hl Hs.
    + rewrite _create_nil. intros [= <- <-]. split; [done|].
      intros _ l e H. by apply elem_of_nil in H.
    + apply Forall_cons in IH as [IHchild IHitems].
      pose proof Hv as Hv'.
      apply valid_cons in Hv' as (Hnotin & Hp & Hvc & Hvr).
      rewrite _create_cons. unfold bind.
      destruct (create_item base name child w) as [w' [e|[]]] eqn:Hitem;
        destruct (item_settles base name child w bl w' _ Hp Hvc (λ _, IHchild) Hl Hs Hitem)
          as [Hfr1 Hpost1].
      * intros [= <- <-]. split; [|done].
        intros l Hnot. apply Hfr1. intros Hin. apply Hnot.
        change (expected bl (VDict ((name, child) :: rest)))
          with (((bl ++ [name], entry_for child)%list
                 :: expected (bl ++ [name])%list child)
                ++ expected bl (VDict rest))%list.
        rewrite map_app. apply elem_of_app. by left.
      * intros Hrest.
        assert (extends w w') as Hext.
        { apply (_create_extends base (VDict [(name, child)]) w w' (inr tt)).
          rewrite _create_cons. by rewrite (bind_ok _ _ _ _ _ Hitem). }
        destruct (IHrest IHitems Hvr w') as [Hfr2 Hpost2]; try done.
        { by eapply locate_extends. }
        { by eapply extends_stat_Dir. }
        change (expected bl (VDict ((name, child) :: rest)))
          with (((bl ++ [name], entry_for child)%list
                 :: expected (bl ++ [name])%list child)
                ++ expected bl (VDict rest))%list.
        split.
        -- intros l Hnot. rewrite map_app in Hnot.
           apply not_elem_of_app in Hnot as [Hn1 Hn2].
           by rewrite (Hfr2 l Hn2), (Hfr1 l Hn1).
        -- intros Hok l e Hin. apply elem_of_app in Hin as [Hin|Hin].
           ++ rewrite Hfr2; [by apply Hpost1|].
              intros Hin'.
              assert (Hl1 : l ∈ map fst ((bl ++ [name], entry_for child)%list
                                         :: expected (bl ++ [name])%list child)).
              { apply list_elem_of_In, in_map_iff. exists (l, e). split; [done|].
                by apply list_elem_of_In. }
              apply item_locs_under in Hl1 as (s & ->).
              apply list_elem_of_In, in_map_iff in Hin' as ([l' e'] & Heq & H).
              simpl in Heq. subst l'.
              apply list_elem_of_In, expected_under in H as (k & s' & Hk & Heq).
              apply app_inv_head in Heq. injection Heq as -> _. done.
           ++ by apply Hpost2.
Qed.

(** X18.  Materializing a mapping with plain keys over a disk that already
    has entries: whether the run goes through or fails, it changes
    nothing on disk except at the locations of its keys; and when it goes
    through, every key has its entry, a directory for a mapping or
    [None] (one that was there is kept, with what it holds elsewhere)
    and for anything else a file whose whole content is the text of the
    value, whatever the file held before. *)
Theorem materialize_over_existing base_dir structure w b :
  valid structure = true → is_dict structure = true →
  locate w (Path_of base_dir) = inr b → stat w b = Some Dir →
  (∀ l, l ∉ map (app b) (key_paths structure) →
        files (create_structure base_dir structure w).1 !! l = files w !! l) ∧
  ((create_structure base_dir structure w).2 = inr tt →
   ∀ l e, (l, e) ∈ expected b structure →
          files (create_structure base_dir structure w).1 !! l = Some e).
Proof.
  intros Hv Hd Hl Hs. unfold create_structure, bind.
  assert (Hk : is_dict structure || is_none structure = true) by (by rewrite Hd).
  destruct (_create (Path_of base_dir) structure w) as [w1 r] eqn:Hrun.
  destruct (settles_all structure (Path_of base_dir) w b w1 r Hv Hk Hl Hs Hrun)
    as [Hfr Hpost].
  destruct r as [e|[]]; simpl.
  - split; [|done]. intros l Hnot. apply Hfr. by rewrite expected_locs.
  - split; [|intros _; by apply Hpost].
    intros l Hnot. apply Hfr. by rewrite expected_locs.
Qed.

Lemma materialize_over_existing_example :
  files (create_structure "/tmp/x"
           (VDict [("b.txt", VStr "hi"); ("c", VNone)]) tmp_x_old).1
    !! ["tmp"; "x"; "b.txt"]
  = Some (File "hi").
Proof.
  apply (materialize_over_existing "/tmp/x"
           (VDict [("b.txt", VStr "hi"); ("c", VNone)]) tmp_x_old ["tmp"; "x"]).
  - done.
  - done.
  - done.
  - done.
  - by vm_compute.
  - simpl. apply elem_of_cons. by left.
Defined.
